(** * Verification of requestAPI: the request/response pipeline of the
    browser shell ([src/src/App.tsx]) and the mobile shell
    ([src/unnamed/part_000]).

    JavaScript strings are modelled as lists of UTF-16 code units ([jsstr]).
    The JavaScript built-ins [JSON.parse] and [JSON.stringify] that the
    pipeline calls are modelled after ECMA-262, on those code units. *)

From Stdlib Require Import ZArith List String Ascii Bool Lia Sorting.Sorted.
Import ListNotations.
Open Scope Z_scope.
Set Warnings "-register-all".

(* ================================================================= *)
(** ** JavaScript strings *)

Definition jsstr := list Z.

(** A Rocq string literal read as the code units of an ASCII JS string. *)
Definition js (s : string) : jsstr :=
  map (fun a => Z.of_nat (nat_of_ascii a)) (list_ascii_of_string s).

Fixpoint str_eqb (a b : jsstr) : bool :=
  match a, b with
  | [], [] => true
  | x :: a', y :: b' => (x =? y) && str_eqb a' b'
  | _, _ => false
  end.

(** JS truthiness of a string: only the empty string is falsy. *)
Definition truthy (s : jsstr) : bool :=
  match s with [] => false | _ => true end.

(* ================================================================= *)
(** ** Decimal digits *)

(** Little-endian decimal digit lists, built by binary recursion. *)
Fixpoint dsucc (l : list Z) : list Z :=
  match l with
  | [] => [1]
  | d :: r => if d =? 9 then 0 :: dsucc r else (d + 1) :: r
  end.

Fixpoint ddouble (l : list Z) : list Z :=
  match l with
  | [] => []
  | d :: r => if 2 * d <? 10 then (2 * d) :: ddouble r
              else (2 * d - 10) :: dsucc (ddouble r)
  end.

Fixpoint pdec (p : positive) : list Z :=
  match p with
  | xH => [1]
  | xO q => ddouble (pdec q)
  | xI q => dsucc (ddouble (pdec q))
  end.

(** Big-endian digits of a non-negative integer, and their text. *)
Definition zdigits (z : Z) : list Z :=
  match z with Zpos p => rev (pdec p) | _ => [0] end.

Definition ztext (z : Z) : jsstr := map (fun d => d + 48) (zdigits z).

Definition is_digit (c : Z) : bool := (48 <=? c) && (c <=? 57).

Definition digits_val (ds : jsstr) : Z :=
  fold_left (fun acc c => acc * 10 + (c - 48)) ds 0.

Fixpoint span_digits (s : jsstr) : jsstr * jsstr :=
  match s with
  | c :: r => if is_digit c then let '(d, t) := span_digits r in (c :: d, t)
              else ([], s)
  | [] => ([], [])
  end.

(* ================================================================= *)
(** ** JSON values *)

Fixpoint strip_zeros (f : nat) (m e : Z) : Z * Z :=
  match f with
  | O => (m, e)
  | S f' => if m mod 10 =? 0 then strip_zeros f' (m / 10) (e + 1) else (m, e)
  end.

Definition normalize (m e : Z) : Z * Z :=
  if m =? 0 then (0, 0) else strip_zeros (S (Z.to_nat (Z.log2 m))) m e.

(** Numbers: IEEE-754 doubles.  A finite double is [(-1)^neg * m * 2^e]
    with [0 <= m < 2^53]; in canonical form a zero is [m = 0, e = 0], a
    normal number has [2^52 <= m] and [-1074 <= e <= 971], a subnormal one
    has [0 < m < 2^52] and [e = -1074]. *)
Inductive num := NFin (neg : bool) (m e : Z) | NInf (neg : bool).

Definition num_eqb (x y : num) : bool :=
  match x, y with
  | NFin n1 m1 e1, NFin n2 m2 e2 => Bool.eqb n1 n2 && (m1 =? m2) && (e1 =? e2)
  | NInf n1, NInf n2 => Bool.eqb n1 n2
  | _, _ => false
  end.

(** [2^t <= p / q] for [p, q > 0]. *)
Definition pow2_le (p q t : Z) : bool :=
  if 0 <=? t then q * 2 ^ t <=? p else q <=? p * 2 ^ (- t).

(** [floor (log2 (p / q))] for [p, q > 0]: [log2 p - log2 q] or one less. *)
Definition flog2 (p q : Z) : Z :=
  let t := Z.log2 p - Z.log2 q in if pow2_le p q t then t else t - 1.

(** The Number value for the rational [p / q] ([p >= 0], [q > 0]), with
    sign [neg]: the nearest double, ties to even; a value that rounds to
    [2^1024] or beyond is an infinity, one that rounds to zero is a zero
    of that sign. *)
Definition round_q (neg : bool) (p q : Z) : num :=
  if p <=? 0 then NFin neg 0 0 else
  let E := Z.max (flog2 p q - 52) (-1074) in
  let a := if E <? 0 then p * 2 ^ (- E) else p in
  let b := if E <? 0 then q else q * 2 ^ E in
  let N := a / b in
  let R := a mod b in
  let M := if (b <? 2 * R) || ((2 * R =? b) && Z.odd N) then N + 1 else N in
  if M =? 0 then NFin neg 0 0
  else if M =? 2 ^ 53 then (if 971 <? E + 1 then NInf neg else NFin neg (2 ^ 52) (E + 1))
  else if 971 <? E then NInf neg else NFin neg M E.

(** The Number value for [N * 10^x]. *)
Definition dec_round (neg : bool) (N x : Z) : num :=
  if 0 <=? x then round_q neg (N * 10 ^ x) 1 else round_q neg N (10 ^ (- x)).

(** The same value with sign [neg]. *)
Definition set_sign (neg : bool) (x : num) : num :=
  match x with NFin _ m e => NFin neg m e | NInf _ => NInf neg end.

(** A finite double [m * 2^e] as a fraction [p / q]. *)
Definition dbl_frac (m e : Z) : Z * Z :=
  if 0 <=? e then (m * 2 ^ e, 1) else (m, 2 ^ (- e)).

Definition ndigits (z : Z) : Z := Z.of_nat (List.length (zdigits z)).

(** [10^t <= p / q] for [p, q > 0]. *)
Definition pow10_le (p q t : Z) : bool :=
  if 0 <=? t then q * 10 ^ t <=? p else q <=? p * 10 ^ (- t).

(** [floor (log10 (p / q))] for [p, q > 0]. *)
Definition flog10 (p q : Z) : Z :=
  let t := ndigits p - ndigits q in if pow10_le p q t then t else t - 1.

(** Step 5 of Number::toString for the positive double [m * 2^e], at [k]
    digits: the [k]-digit decimals [s * 10^x] next to the value (below and
    above it) that denote it; of two, the closer one, and of two equally
    close ones the even one. *)
Definition pick (m e k : Z) : option (Z * Z) :=
  let '(p, q) := dbl_frac m e in
  let x := flog10 p q + 1 - k in
  let '(A, B) := if 0 <=? x then (p, q * 10 ^ x) else (p * 10 ^ (- x), q) in
  let lo := A / B in
  let r := A mod B in
  let ok s := num_eqb (dec_round false s x) (NFin false m e) in
  if r =? 0 then (if ok lo then Some (lo, x) else None)
  else match ok lo, ok (lo + 1) with
       | true, true =>
           if (2 * r <? B) || ((2 * r =? B) && Z.even lo) then Some (lo, x) else Some (lo + 1, x)
       | true, false => Some (lo, x)
       | false, true => Some (lo + 1, x)
       | false, false => None
       end.

(** The smallest [k] for which [pick] succeeds, from [k]. *)
Fixpoint pick_from (fuel : nat) (m e k : Z) : option (Z * Z) :=
  match fuel with
  | O => None
  | S f => match pick m e k with Some r => Some r | None => pick_from f m e (k + 1) end
  end.

(** The exact decimal value of [m * 2^e]. *)
Definition exact_dec (m e : Z) : Z * Z :=
  if 0 <=? e then (m * 2 ^ e, 0) else (m * 5 ^ (- e), e).

(** [s] and [n - k] of Number::toString, [s] without trailing zeros.  A
    double always has a decimal of at most 17 digits that denotes it, so
    [pick_from] succeeds and the exact value is never used. *)
Definition shortest (m e : Z) : Z * Z :=
  let '(s, x) := match pick_from 17 m e 1 with Some r => r | None => exact_dec m e end in
  normalize s x.

Inductive json :=
| JNull
| JBool (b : bool)
| JNum (x : num)
| JStr (s : jsstr)
| JArr (l : list json)
| JObj (l : list (jsstr * json)).

(* ================================================================= *)
(** ** Objects: own property order of ordinary objects *)

(** [k] is an array index iff [ToString(ToUint32(k)) = k] and
    [ToUint32(k) <> 2^32 - 1]. *)
Definition idx (k : jsstr) : option Z :=
  let i := digits_val k in
  if (0 <=? i) && (i <? 4294967295) && str_eqb (ztext i) k then Some i else None.

Definition obj_has (k : jsstr) (o : list (jsstr * json)) : bool :=
  existsb (fun kv => str_eqb k (fst kv)) o.

Fixpoint obj_update (k : jsstr) (v : json) (o : list (jsstr * json)) :=
  match o with
  | [] => []
  | (k', v') :: r => if str_eqb k k' then (k', v) :: r
                     else (k', v') :: obj_update k v r
  end.

Fixpoint obj_insert_idx (i : Z) (k : jsstr) (v : json) (o : list (jsstr * json)) :=
  match o with
  | [] => [(k, v)]
  | (k', v') :: r =>
      match idx k' with
      | Some j => if i <? j then (k, v) :: o else (k', v') :: obj_insert_idx i k v r
      | None => (k, v) :: o
      end
  end.

(** CreateDataProperty on an ordinary object: an existing key keeps its
    place; a new array index goes among the indices in ascending order; any
    other new key goes last. *)
Definition obj_set (k : jsstr) (v : json) (o : list (jsstr * json)) :=
  if obj_has k o then obj_update k v o
  else match idx k with
       | Some i => obj_insert_idx i k v o
       | None => o ++ [(k, v)]
       end.

(* ================================================================= *)
(** ** JSON.parse *)

(** JSON whitespace: tab, line feed, carriage return, space. *)
Definition is_ws (c : Z) : bool := (c =? 9) || (c =? 10) || (c =? 13) || (c =? 32).

Fixpoint skip_ws (s : jsstr) : jsstr :=
  match s with
  | c :: r => if is_ws c then skip_ws r else s
  | [] => []
  end.

(** Strips a literal prefix. *)
Fixpoint lit (p s : jsstr) : option jsstr :=
  match p, s with
  | [], _ => Some s
  | a :: p', c :: s' => if a =? c then lit p' s' else None
  | _ :: _, [] => None
  end.

Definition hexval (c : Z) : option Z :=
  if (48 <=? c) && (c <=? 57) then Some (c - 48)
  else if (97 <=? c) && (c <=? 102) then Some (c - 87)
  else if (65 <=? c) && (c <=? 70) then Some (c - 55)
  else None.

Definition hex4 (a b c d : Z) : option Z :=
  match hexval a, hexval b, hexval c, hexval d with
  | Some x, Some y, Some z, Some w => Some (((x * 16 + y) * 16 + z) * 16 + w)
  | _, _, _, _ => None
  end.

(** Single-character escapes after a backslash: quote, backslash, slash,
    b, f, n, r, t. *)
Definition esc_char (e : Z) : option Z :=
  if e =? 34 then Some 34 else if e =? 92 then Some 92
  else if e =? 47 then Some 47 else if e =? 98 then Some 8
  else if e =? 102 then Some 12 else if e =? 110 then Some 10
  else if e =? 114 then Some 13 else if e =? 116 then Some 9
  else None.

Definition cons_fst (c : Z) (r : option (jsstr * jsstr)) : option (jsstr * jsstr) :=
  match r with Some (v, t) => Some (c :: v, t) | None => None end.

(** The body of a string literal, after its opening quote. *)
Fixpoint pstr (s : jsstr) : option (jsstr * jsstr) :=
  match s with
  | [] => None
  | c :: r =>
      if c =? 34 then Some ([], r)
      else if c =? 92 then
        match r with
        | e :: r' =>
            if e =? 117 then
              match r' with
              | h1 :: h2 :: h3 :: h4 :: r'' =>
                  match hex4 h1 h2 h3 h4 with
                  | Some u => cons_fst u (pstr r'')
                  | None => None
                  end
              | _ => None
              end
            else match esc_char e with
                 | Some u => cons_fst u (pstr r')
                 | None => None
                 end
        | [] => None
        end
      else if c <? 32 then None
      else cons_fst c (pstr r)
  end.

Definition pint (s : jsstr) : option (jsstr * jsstr) :=
  match s with
  | c :: r => if c =? 48 then Some ([c], r)
              else if (49 <=? c) && (c <=? 57) then
                let '(ds, t) := span_digits r in Some (c :: ds, t)
              else None
  | [] => None
  end.

Definition pfrac (s : jsstr) : option (jsstr * jsstr) :=
  match s with
  | c :: r => if c =? 46 then
                match span_digits r with
                | ([], _) => None
                | (ds, t) => Some (ds, t)
                end
              else Some ([], s)
  | [] => Some ([], [])
  end.

Definition pexp (s : jsstr) : option (Z * jsstr) :=
  match s with
  | c :: r =>
      if (c =? 101) || (c =? 69) then
        let '(sg, r1) := match r with
                         | d :: r' => if d =? 43 then (1, r')
                                      else if d =? 45 then (-1, r') else (1, r)
                         | [] => (1, r)
                         end in
        match span_digits r1 with
        | ([], _) => None
        | (ds, t) => Some (sg * digits_val ds, t)
        end
      else Some (0, s)
  | [] => Some (0, [])
  end.

(** A JSON number literal.  Its value is the double nearest to the decimal
    it denotes, ties to even, as [JSON.parse] computes it. *)
Definition pnumber (s : jsstr) : option (num * jsstr) :=
  let '(neg, s1) := match s with
                    | c :: r => if c =? 45 then (true, r) else (false, s)
                    | [] => (false, s)
                    end in
  match pint s1 with
  | None => None
  | Some (ip, s2) =>
      match pfrac s2 with
      | None => None
      | Some (fd, s3) =>
          match pexp s3 with
          | None => None
          | Some (x, s4) =>
              Some (dec_round neg (digits_val (ip ++ fd)) (x - Z.of_nat (List.length fd)), s4)
          end
      end
  end.

(** Values, array elements and object members; [n] is fuel, and
    [S (length text)] is always enough since each call consumes a character. *)
Fixpoint pvalue (n : nat) (s : jsstr) {struct n} : option (json * jsstr) :=
  match n with
  | O => None
  | S n' =>
      match s with
      | [] => None
      | c :: r =>
          if c =? 123 then
            match skip_ws r with
            | d :: r2 => if d =? 125 then Some (JObj [], r2)
                         else pmembers n' [] (d :: r2)
            | [] => None
            end
          else if c =? 91 then
            match skip_ws r with
            | d :: r2 => if d =? 93 then Some (JArr [], r2)
                         else pelems n' [] (d :: r2)
            | [] => None
            end
          else if c =? 34 then
            match pstr r with Some (str, t) => Some (JStr str, t) | None => None end
          else if c =? 110 then
            match lit (js "ull") r with Some t => Some (JNull, t) | None => None end
          else if c =? 116 then
            match lit (js "rue") r with Some t => Some (JBool true, t) | None => None end
          else if c =? 102 then
            match lit (js "alse") r with Some t => Some (JBool false, t) | None => None end
          else if (c =? 45) || is_digit c then
            match pnumber s with Some (x, t) => Some (JNum x, t) | None => None end
          else None
      end
  end
with pelems (n : nat) (acc : list json) (s : jsstr) {struct n} : option (json * jsstr) :=
  match n with
  | O => None
  | S n' =>
      match pvalue n' s with
      | None => None
      | Some (v, t) =>
          match skip_ws t with
          | d :: t' => if d =? 44 then pelems n' (acc ++ [v]) (skip_ws t')
                       else if d =? 93 then Some (JArr (acc ++ [v]), t')
                       else None
          | [] => None
          end
      end
  end
with pmembers (n : nat) (acc : list (jsstr * json)) (s : jsstr) {struct n}
  : option (json * jsstr) :=
  match n with
  | O => None
  | S n' =>
      match s with
      | d :: t =>
          if d =? 34 then
            match pstr t with
            | None => None
            | Some (k, t1) =>
                match skip_ws t1 with
                | e :: t2 =>
                    if e =? 58 then
                      match pvalue n' (skip_ws t2) with
                      | None => None
                      | Some (v, t3) =>
                          let acc' := obj_set k v acc in
                          match skip_ws t3 with
                          | f :: t4 => if f =? 44 then pmembers n' acc' (skip_ws t4)
                                       else if f =? 125 then Some (JObj acc', t4)
                                       else None
                          | [] => None
                          end
                      end
                    else None
                | [] => None
                end
            end
          else None
      | [] => None
      end
  end.

(** [JSON.parse(text)]: [None] is a thrown SyntaxError. *)
Definition JSON_parse (s : jsstr) : option json :=
  match pvalue (S (List.length s)) (skip_ws s) with
  | Some (v, t) => match skip_ws t with [] => Some v | _ => None end
  | None => None
  end.

(* ================================================================= *)
(** ** JSON.stringify *)

Definition hexdig (d : Z) : Z := if d <? 10 then d + 48 else d + 87.

(** UnicodeEscape: [\u] and four lowercase hex digits. *)
Definition uesc (c : Z) : jsstr :=
  [92; 117; hexdig (c / 4096 mod 16); hexdig (c / 256 mod 16);
   hexdig (c / 16 mod 16); hexdig (c mod 16)].

Definition is_lead (c : Z) : bool := (55296 <=? c) && (c <=? 56319).
Definition is_trail (c : Z) : bool := (56320 <=? c) && (c <=? 57343).

Definition esc1 (c : Z) : jsstr :=
  if c =? 8 then [92; 98] else if c =? 9 then [92; 116]
  else if c =? 10 then [92; 110] else if c =? 12 then [92; 102]
  else if c =? 13 then [92; 114] else if c =? 34 then [92; 34]
  else if c =? 92 then [92; 92] else if c <? 32 then uesc c
  else [c].

(** QuoteJSONString, code point by code point: surrogate pairs are kept,
    lone surrogates are escaped. *)
Fixpoint esc_all (s : jsstr) : jsstr :=
  match s with
  | [] => []
  | c :: r =>
      if is_lead c then
        match r with
        | d :: r' => if is_trail d then c :: d :: esc_all r' else uesc c ++ esc_all r
        | [] => uesc c
        end
      else if is_trail c then uesc c ++ esc_all r
      else esc1 c ++ esc_all r
  end.

Definition quote (s : jsstr) : jsstr := 34 :: esc_all s ++ [34].

(** Number::toString, steps 6 to 10, for [s * 10^e] (positive part). *)
Definition pos_num_text (a e : Z) : jsstr :=
  let D := ztext a in
  let k := Z.of_nat (List.length D) in
  let n := e + k in
  if (k <=? n) && (n <=? 21) then D ++ repeat 48 (Z.to_nat (n - k))
  else if (0 <? n) && (n <=? 21) then firstn (Z.to_nat n) D ++ 46 :: skipn (Z.to_nat n) D
  else if (-6 <? n) && (n <=? 0) then [48; 46] ++ repeat 48 (Z.to_nat (- n)) ++ D
  else
    let x := n - 1 in
    let expo := 101 :: (if x <? 0 then 45 else 43) :: ztext (Z.abs x) in
    match D with
    | [d] => d :: expo
    | d :: r => d :: 46 :: r ++ expo
    | [] => expo
    end.

(** SerializeJSONProperty on a number: non-finite numbers become null, both
    zeros [0]. *)
Definition num_text (x : num) : jsstr :=
  match x with
  | NInf _ => js "null"
  | NFin neg m e =>
      if m =? 0 then js "0"
      else (if neg then [45] else []) ++ let '(s, q) := shortest m e in pos_num_text s q
  end.

Definition join (sep : jsstr) (parts : list jsstr) : jsstr :=
  match parts with
  | [] => []
  | p :: r => p ++ List.concat (map (fun q => sep ++ q) r)
  end.

(** SerializeJSONArray / SerializeJSONObject layout around the parts. *)
Definition wrap (op cl : Z) (gap ind ind' : jsstr) (parts : list jsstr) : jsstr :=
  match parts with
  | [] => [op; cl]
  | _ => match gap with
         | [] => op :: join [44] parts ++ [cl]
         | _ => op :: 10 :: ind' ++ join (44 :: 10 :: ind') parts ++ 10 :: ind ++ [cl]
         end
  end.

Fixpoint ser (gap ind : jsstr) (v : json) {struct v} : jsstr :=
  match v with
  | JNull => js "null"
  | JBool b => if b then js "true" else js "false"
  | JNum x => num_text x
  | JStr s => quote s
  | JArr l =>
      let ind' := ind ++ gap in
      wrap 91 93 gap ind ind'
        ((fix go (l : list json) : list jsstr :=
            match l with [] => [] | x :: r => ser gap ind' x :: go r end) l)
  | JObj l =>
      let ind' := ind ++ gap in
      wrap 123 125 gap ind ind'
        ((fix go (l : list (jsstr * json)) : list jsstr :=
            match l with
            | [] => []
            | (k, x) :: r =>
                (quote k ++ [58] ++ (match gap with [] => [] | _ => [32] end)
                 ++ ser gap ind' x) :: go r
            end) l)
  end.

(** [JSON.stringify(value, null, space)] with [gap] the indentation unit. *)
Definition JSON_stringify (v : json) (gap : jsstr) : jsstr := ser gap [] v.

Definition gap2 : jsstr := [32; 32].

(* ================================================================= *)
(** ** The request pipeline: data *)

Inductive Method := GET | POST | PUT.

Definition method_eqb (a b : Method) : bool :=
  match a, b with
  | GET, GET | POST, POST | PUT, PUT => true
  | _, _ => false
  end.

(** The component state read by [handleSubmit]. *)
Record Config := {
  method : Method;
  baseUrl : jsstr;
  url : jsstr;
  urlParams : jsstr;
  useAuth : bool;
  token : jsstr;
  jsonBody : jsstr
}.

(** [RequestInit]: method, headers (in insertion order) and optional body. *)
Record Options := {
  opt_method : Method;
  opt_headers : list (jsstr * jsstr);
  opt_body : option jsstr
}.

Definition set_body (o : Options) (b : jsstr) : Options :=
  {| opt_method := opt_method o; opt_headers := opt_headers o; opt_body := Some b |}.

(** What the network does with one [fetch] call: it rejects (with the
    message of the TypeError), or a response arrives, with a null body or a
    body whose decoded text is given. *)
Inductive FetchOutcome :=
| NetworkError (msg : jsstr)
| Received (status : Z) (body : option jsstr).

Definition Transport := jsstr -> Options -> FetchOutcome.

(** A [Response] object: status, body, and whether the body stream has been
    read (Fetch standard: a body can be consumed once). *)
Record Response := { res_status : Z; res_body : option jsstr; res_used : bool }.

(** Thrown values: every value thrown here is an [Error] instance. *)
Inductive Thrown := JSErr (name msg : jsstr).

Definition err_message (e : Thrown) : jsstr := match e with JSErr _ m => m end.

(** The React state slots written by [handleSubmit]. *)
Record UI := {
  loading : bool;
  error : jsstr;
  response : jsstr;
  statusCode : option Z
}.

(** The world of one submission: the UI state, the [fetch] calls made
    (URL and options), and the [Response] objects created, by address. *)
Record World := {
  ui : UI;
  calls : list (jsstr * Options);
  heap : list Response
}.

(* ================================================================= *)
(** ** A state and exception monad for async handlers *)

Inductive Out (A : Type) := Ok (a : A) | Throw (e : Thrown) | Return.
Arguments Ok {A} a.
Arguments Throw {A} e.
Arguments Return {A}.

Definition M (A : Type) := World -> World * Out A.

Definition ret {A} (a : A) : M A := fun w => (w, Ok a).
Definition throw {A} (e : Thrown) : M A := fun w => (w, Throw e).
Definition early_return {A} : M A := fun w => (w, Return).

Definition bind {A B} (m : M A) (k : A -> M B) : M B :=
  fun w => match m w with
           | (w', Ok a) => k a w'
           | (w', Throw e) => (w', Throw e)
           | (w', Return) => (w', Return)
           end.

Notation "x <- m ;; k" := (bind m (fun x => k))
  (at level 61, m at next level, right associativity).
Notation "m ;;; k" := (bind m (fun _ => k)) (at level 61, right associativity).

(** [try { m } catch (e) { h e }]: a [return] is not caught. *)
Definition try_catch {A} (m : M A) (h : Thrown -> M A) : M A :=
  fun w => match m w with
           | (w', Throw e) => h e w'
           | r => r
           end.

(** [try { m } finally { f }]: [f] runs on every exit of [m]. *)
Definition try_finally {A} (m : M A) (f : M unit) : M A :=
  fun w => let '(w1, r) := m w in
           match f w1 with
           | (w2, Ok _) => (w2, r)
           | (w2, Throw e) => (w2, Throw e)
           | (w2, Return) => (w2, Return)
           end.

Definition modify_ui (f : UI -> UI) : M unit :=
  fun w => ({| ui := f (ui w); calls := calls w; heap := heap w |}, Ok tt).

Definition setLoading (b : bool) : M unit :=
  modify_ui (fun u => {| loading := b; error := error u; response := response u;
                          statusCode := statusCode u |}).
Definition setError (s : jsstr) : M unit :=
  modify_ui (fun u => {| loading := loading u; error := s; response := response u;
                          statusCode := statusCode u |}).
Definition setResponse (s : jsstr) : M unit :=
  modify_ui (fun u => {| loading := loading u; error := error u; response := s;
                          statusCode := statusCode u |}).
Definition setStatusCode (c : option Z) : M unit :=
  modify_ui (fun u => {| loading := loading u; error := error u; response := response u;
                          statusCode := c |}).

(** [JSON.parse] as a statement: a SyntaxError on invalid text. *)
Definition parse_error_msg : jsstr := js "Unexpected token in JSON".

Definition json_parse (s : jsstr) : M json :=
  match JSON_parse s with
  | Some v => ret v
  | None => throw (JSErr (js "SyntaxError") parse_error_msg)
  end.

(** [fetch(url, options)]: records the call; a network failure rejects with
    a TypeError, a response is allocated on the heap. *)
Definition fetch (net : Transport) (u : jsstr) (o : Options) : M nat :=
  fun w =>
    let w' := {| ui := ui w; calls := calls w ++ [(u, o)]; heap := heap w |} in
    match net u o with
    | NetworkError msg => (w', Throw (JSErr (js "TypeError") msg))
    | Received st b =>
        ({| ui := ui w; calls := calls w ++ [(u, o)];
            heap := heap w ++ [{| res_status := st; res_body := b; res_used := false |}] |},
         Ok (List.length (heap w)))
    end.

Definition get_res (r : nat) : M Response :=
  fun w => match nth_error (heap w) r with
           | Some x => (w, Ok x)
           | None => (w, Throw (JSErr (js "TypeError") (js "no such response")))
           end.

Fixpoint use_body (r : nat) (h : list Response) : list Response :=
  match h, r with
  | [], _ => []
  | x :: h', O => {| res_status := res_status x; res_body := res_body x;
                     res_used := true |} :: h'
  | x :: h', S r' => x :: use_body r' h'
  end.

Definition mark_used (r : nat) : M unit :=
  fun w => ({| ui := ui w; calls := calls w; heap := use_body r (heap w) |}, Ok tt).

(** The message of the TypeError for a second read of a body (Chrome's
    wording; other engines word it differently). *)
Definition body_used_msg : jsstr :=
  js "Failed to execute 'text' on 'Response': body stream already read".

(** Fetch "consume body": a used body rejects; a null body reads as the
    empty text and is never marked used; otherwise the body is read fully. *)
Definition consume_text (r : nat) : M jsstr :=
  x <- get_res r ;;
  match res_body x with
  | None => ret []
  | Some b => if res_used x then throw (JSErr (js "TypeError") body_used_msg)
              else mark_used r ;;; ret b
  end.

Definition res_text (r : nat) : M jsstr := consume_text r.

Definition res_json (r : nat) : M json := t <- consume_text r ;; json_parse t.

(* ================================================================= *)
(** ** handleSubmit, browser shell (src/src/App.tsx, lines 47-104) *)

(** [e.preventDefault()] stops the browser's own form navigation; it does
    not touch the component state. *)
Definition preventDefault : M unit := ret tt.

Definition handleSubmit_web (net : Transport) (c : Config) : M unit :=
  preventDefault ;;;
  setLoading true ;;;
  setError [] ;;;
  setResponse [] ;;;
  setStatusCode None ;;;
  try_finally
    (try_catch
       (let fullUrl := baseUrl c ++ url c ++
                       (if truthy (urlParams c) then 63 :: urlParams c else []) in
        let headers0 := [(js "Content-Type", js "application/json")] in
        let headers := if useAuth c && truthy (token c)
                       then headers0 ++ [(js "Authorization", js "Bearer " ++ token c)]
                       else headers0 in
        let options := {| opt_method := method c; opt_headers := headers;
                          opt_body := None |} in
        options <- (if negb (method_eqb (method c) GET) && truthy (jsonBody c) then
                      try_catch
                        (json_parse (jsonBody c) ;;; ret (set_body options (jsonBody c)))
                        (fun _ => setError (js "Invalid JSON in request body") ;;;
                                  setLoading false ;;;
                                  early_return)
                    else ret options) ;;
        res <- fetch net fullUrl options ;;
        x <- get_res res ;;
        setStatusCode (Some (res_status x)) ;;;
        try_catch
          (data <- res_json res ;;
           setResponse (JSON_stringify data gap2))
          (fun _ => text <- res_text res ;;
                    setResponse (if truthy text then text else js "No response body")))
       (fun err => setError (js "Request failed: " ++ err_message err)))
    (setLoading false).

(* ================================================================= *)
(** ** handleSubmit, mobile shell (src/unnamed/part_000, lines 74-130) *)

Definition handleSubmit_mobile (net : Transport) (c : Config) : M unit :=
  setLoading true ;;;
  setError [] ;;;
  setResponse [] ;;;
  setStatusCode None ;;;
  try_finally
    (try_catch
       (let fullUrl := baseUrl c ++ url c ++
                       (if truthy (urlParams c) then 63 :: urlParams c else []) in
        let headers0 := [(js "Content-Type", js "application/json")] in
        let headers := if useAuth c && truthy (token c)
                       then headers0 ++ [(js "Authorization", js "Bearer " ++ token c)]
                       else headers0 in
        let options := {| opt_method := method c; opt_headers := headers;
                          opt_body := None |} in
        options <- (if negb (method_eqb (method c) GET) && truthy (jsonBody c) then
                      try_catch
                        (json_parse (jsonBody c) ;;; ret (set_body options (jsonBody c)))
                        (fun _ => setError (js "Invalid JSON in request body") ;;;
                                  setLoading false ;;;
                                  early_return)
                    else ret options) ;;
        res <- fetch net fullUrl options ;;
        x <- get_res res ;;
        setStatusCode (Some (res_status x)) ;;;
        try_catch
          (data <- res_json res ;;
           setResponse (JSON_stringify data gap2))
          (fun _ => text <- res_text res ;;
                    setResponse (if truthy text then text else js "No response body")))
       (fun err => setError (js "Request failed: " ++ err_message err)))
    (setLoading false).

(** One submission from a world with no response allocated yet. *)
Definition run_submit (h : Transport -> Config -> M unit) (net : Transport) (c : Config)
  (u : UI) : World :=
  fst (h net c {| ui := u; calls := []; heap := [] |}).

(* ================================================================= *)
(** ** Status colours (App.tsx lines 157-163; part_000 lines 148-154) *)

(** [!code] for [code : number | null]: null and 0 are falsy. *)
Definition code_falsy (code : option Z) : bool :=
  match code with None => true | Some c => c =? 0 end.

Definition getStatusCodeColor_web (code : option Z) : string :=
  match code with
  | Some c =>
      if code_falsy code then "text-gray-600"
      else if (200 <=? c) && (c <? 300) then "text-green-600"
      else if (300 <=? c) && (c <? 400) then "text-blue-600"
      else if (400 <=? c) && (c <? 500) then "text-yellow-600"
      else "text-red-600"
  | None => "text-gray-600"
  end.

Definition getStatusCodeColor_mobile (code : option Z) : string :=
  match code with
  | Some c =>
      if code_falsy code then "#6B7280"
      else if (200 <=? c) && (c <? 300) then "#10B981"
      else if (300 <=? c) && (c <? 400) then "#3B82F6"
      else if (400 <=? c) && (c <? 500) then "#F59E0B"
      else "#EF4444"
  | None => "#6B7280"
  end.

Inductive Bucket := Neutral | Success | Redirect | ClientError | ServerError.

(** The bucket each shell's colour stands for (gray, green, blue, yellow, red). *)
Definition bucket_of_web_color (s : string) : option Bucket :=
  if String.eqb s "text-gray-600" then Some Neutral
  else if String.eqb s "text-green-600" then Some Success
  else if String.eqb s "text-blue-600" then Some Redirect
  else if String.eqb s "text-yellow-600" then Some ClientError
  else if String.eqb s "text-red-600" then Some ServerError
  else None.

Definition bucket_of_mobile_color (s : string) : option Bucket :=
  if String.eqb s "#6B7280" then Some Neutral
  else if String.eqb s "#10B981" then Some Success
  else if String.eqb s "#3B82F6" then Some Redirect
  else if String.eqb s "#F59E0B" then Some ClientError
  else if String.eqb s "#EF4444" then Some ServerError
  else None.

(** The classification as the spec words it (section 4.5). *)
Definition spec_bucket (code : option Z) : Bucket :=
  match code with
  | None => Neutral
  | Some c => if c <? 200 then Neutral
              else if c <? 300 then Success
              else if c <? 400 then Redirect
              else if c <? 500 then ClientError
              else ServerError
  end.

(** The classification the code implements: absent or 0 is neutral, the
    three ranges 200-499 as above, every other integer is server-error. *)
Definition code_bucket (code : option Z) : Bucket :=
  match code with
  | None => Neutral
  | Some c => if c =? 0 then Neutral
              else if (200 <=? c) && (c <? 300) then Success
              else if (300 <=? c) && (c <? 400) then Redirect
              else if (400 <=? c) && (c <? 500) then ClientError
              else ServerError
  end.

(* ================================================================= *)
(** ** formatJsonBody (App.tsx lines 112-119; part_000 lines 138-145) *)

(** The slots it touches: [jsonBody] and [error]. *)
Definition formatJsonBody (jsonBody error : jsstr) : jsstr * jsstr :=
  match JSON_parse jsonBody with
  | Some v => (JSON_stringify v gap2, error)
  | None => (jsonBody, js "Invalid JSON in request body")
  end.

(* ================================================================= *)
(** ** Environment store (App.tsx lines 24-45; part_000 lines 39-72) *)

Definition Storage := list (jsstr * jsstr).

Definition storage_key : jsstr := js "apiTesterUrls".

Fixpoint getItem (k : jsstr) (st : Storage) : option jsstr :=
  match st with
  | [] => None
  | (k', v) :: r => if str_eqb k k' then Some v else getItem k r
  end.

Definition setItem (k v : jsstr) (st : Storage) : Storage :=
  (k, v) :: filter (fun kv => negb (str_eqb k (fst kv))) st.

(** The saved-URL map as the object the code stores. *)
Definition env_map (development production : jsstr) : json :=
  JObj [(js "development", JStr development); (js "production", JStr production)].

(** The persisting step of [saveBaseUrl]:
    [setItem('apiTesterUrls', JSON.stringify(newSavedUrls))]. *)
Definition save_urls (m : json) (st : Storage) : Storage :=
  setItem storage_key (JSON_stringify m []) st.

(** [{...savedUrls, [environment]: baseUrl}] *)
Definition spread_set (o : list (jsstr * json)) (k : jsstr) (v : json) : json :=
  JObj (obj_set k v (fold_left (fun acc kv => obj_set (fst kv) (snd kv) acc) o [])).

Definition env_name (production : bool) : jsstr :=
  if production then js "production" else js "development".

(** [saveBaseUrl]: the new in-memory map and the new storage. *)
Definition saveBaseUrl (savedUrls : list (jsstr * json)) (production : bool)
  (baseUrl : jsstr) (st : Storage) : json * Storage :=
  let newSavedUrls := spread_set savedUrls (env_name production) (JStr baseUrl) in
  (newSavedUrls, save_urls newSavedUrls st).

(** What the load effect does with the saved-URL slot. *)
Inductive Loaded := LoadedMap (v : json) | KeepDefault | LoadThrew (e : Thrown).

(** The message of the TypeError of a property read on [null] (V8's wording). *)
Definition null_read_msg : jsstr := js "Cannot read properties of null".

(** Browser: [if (savedData) { parsed = JSON.parse(savedData);
    setSavedUrls(parsed); setBaseUrl(parsed[environment]) }]; a parse error,
    or the TypeError of [parsed[environment]] when [parsed] is [null],
    escapes the effect. *)
Definition load_urls_web (st : Storage) : Loaded :=
  match getItem storage_key st with
  | Some d => if truthy d then
                match JSON_parse d with
                | Some JNull => LoadThrew (JSErr (js "TypeError") null_read_msg)
                | Some v => LoadedMap v
                | None => LoadThrew (JSErr (js "SyntaxError") parse_error_msg)
                end
              else KeepDefault
  | None => KeepDefault
  end.

(** Mobile: the same inside [try ... catch], which only logs; a stored [null]
    is kept, since [setSavedUrls(parsed)] runs before [parsed[environment]]
    throws. *)
Definition load_urls_mobile (st : Storage) : Loaded :=
  match getItem storage_key st with
  | Some d => if truthy d then
                match JSON_parse d with
                | Some v => LoadedMap v
                | None => KeepDefault
                end
              else KeepDefault
  | None => KeepDefault
  end.

(* ================================================================= *)
(** ** Outcome of one submission, case by case *)

Definition mkUI (l : bool) (e r : jsstr) (s : option Z) : UI :=
  {| loading := l; error := e; response := r; statusCode := s |}.

Definition full_url (c : Config) : jsstr :=
  baseUrl c ++ url c ++ (if truthy (urlParams c) then 63 :: urlParams c else []).

Definition headers_of (c : Config) : list (jsstr * jsstr) :=
  [(js "Content-Type", js "application/json")] ++
  (if useAuth c && truthy (token c) then [(js "Authorization", js "Bearer " ++ token c)]
   else []).

(** [None]: the body check fails; [Some b]: the request goes out with body [b]. *)
Definition body_check (c : Config) : option (option jsstr) :=
  if negb (method_eqb (method c) GET) && truthy (jsonBody c) then
    match JSON_parse (jsonBody c) with
    | Some _ => Some (Some (jsonBody c))
    | None => None
    end
  else Some None.

Definition submit_outcome (net : Transport) (c : Config) : World :=
  match body_check c with
  | None => {| ui := mkUI false (js "Invalid JSON in request body") [] None;
               calls := []; heap := [] |}
  | Some b =>
      let o := {| opt_method := method c; opt_headers := headers_of c; opt_body := b |} in
      match net (full_url c) o with
      | NetworkError msg =>
          {| ui := mkUI false (js "Request failed: " ++ msg) [] None;
             calls := [(full_url c, o)]; heap := [] |}
      | Received st None =>
          {| ui := mkUI false [] (js "No response body") (Some st);
             calls := [(full_url c, o)];
             heap := [{| res_status := st; res_body := None; res_used := false |}] |}
      | Received st (Some t) =>
          match JSON_parse t with
          | Some v =>
              {| ui := mkUI false [] (JSON_stringify v gap2) (Some st);
                 calls := [(full_url c, o)];
                 heap := [{| res_status := st; res_body := Some t; res_used := true |}] |}
          | None =>
              {| ui := mkUI false (js "Request failed: " ++ body_used_msg) [] (Some st);
                 calls := [(full_url c, o)];
                 heap := [{| res_status := st; res_body := Some t; res_used := true |}] |}
          end
      end
  end.


(* ================================================================= *)
(** ** Sample inputs *)

Definition with_auth (c : Config) (b : bool) : Config :=
  {| method := method c; baseUrl := baseUrl c; url := url c; urlParams := urlParams c;
     useAuth := b; token := token c; jsonBody := jsonBody c |}.

Definition sample_config (m : Method) (body : jsstr) : Config :=
  {| method := m; baseUrl := js "http://localhost:3000"; url := js "/api/users";
     urlParams := js "id=1"; useAuth := false; token := []; jsonBody := body |}.

Definition sample_ui : UI := mkUI false [] [] None.

Definition text_response (st : Z) (t : jsstr) : Transport := fun _ _ => Received st (Some t).

(* ================================================================= *)
(** ** Decimal digit lists *)

(** Value of a little-endian digit list. *)
Definition lval (l : list Z) : Z := fold_right (fun d acc => d + 10 * acc) 0 l.

Fixpoint lnz (l : list Z) : Prop :=
  match l with
  | [] => False
  | [d] => d <> 0
  | _ :: r => lnz r
  end.

Definition digit (d : Z) : Prop := 0 <= d <= 9.


(* ================================================================= *)
(** ** Round trip: shapes and measures *)

(** Object keys in the order [obj_set] keeps them: array indices first, ascending. *)
Definition key_before (k1 k2 : jsstr) : Prop :=
  str_eqb k1 k2 = false /\
  (forall j, idx k2 = Some j -> exists i, idx k1 = Some i /\ i < j).

(** A finite double in canonical form: a zero, a normal or a subnormal number. *)
Definition num_ok (m e : Z) : Prop :=
  (m = 0 /\ e = 0) \/
  (0 < m < 2 ^ 53 /\ -1074 <= e <= 971 /\ (2 ^ 52 <= m \/ e = -1074)).

(** A string of UTF-16 code units (non-negative). *)
Definition units_ok (s : jsstr) : Prop := Forall (fun c => 0 <= c) s.

(** The values [JSON.parse] can return: canonical doubles, ordered and distinct keys. *)
Fixpoint wf (v : json) : Prop :=
  match v with
  | JNum (NFin _ m e) => num_ok m e
  | JStr s => units_ok s
  | JArr l => (fix go (l : list json) : Prop :=
                 match l with [] => True | x :: r => wf x /\ go r end) l
  | JObj l => StronglySorted key_before (map fst l) /\
              (fix go (l : list (jsstr * json)) : Prop :=
                 match l with [] => True | (k, x) :: r => (units_ok k /\ wf x) /\ go r end) l
  | _ => True
  end.

(** What a value becomes after [JSON.stringify] and [JSON.parse]: infinities
    turn into null, and a zero of either sign into [+0]. *)
Fixpoint reparsed (v : json) : json :=
  match v with
  | JNum (NInf _) => JNull
  | JNum (NFin _ m _) => if m =? 0 then JNum (NFin false 0 0) else v
  | JArr l => JArr (map reparsed l)
  | JObj l => JObj (map (fun kv => (fst kv, reparsed (snd kv))) l)
  | _ => v
  end.

(** Nesting measure, bounding the parser fuel needed. *)
Fixpoint size (v : json) : nat :=
  match v with
  | JArr l => S (list_sum (map (fun x => S (size x)) l))
  | JObj l => S (list_sum (map (fun kv => S (size (snd kv))) l))
  | _ => O
  end.

(** Text of one object member, as [ser] writes it. *)
Definition member_text (gap ind : jsstr) (kv : jsstr * json) : jsstr :=
  quote (fst kv) ++ [58] ++ (match gap with [] => [] | _ => [32] end) ++ ser gap ind (snd kv).

(** A run of JSON whitespace. *)
Definition ws (w : jsstr) : Prop := Forall (fun c => is_ws c = true) w.

(** What may follow a number literal without extending it. *)
Definition num_end (rest : jsstr) : Prop :=
  match rest with
  | [] => True
  | c :: _ => is_digit c = false /\ c <> 46 /\ c <> 101 /\ c <> 69
  end.

(** Induction on JSON values through the nested lists. *)
Section json_rect.
Variable P : json -> Prop.
Hypothesis Hnull : P JNull.
Hypothesis Hbool : forall b, P (JBool b).
Hypothesis Hnum : forall x, P (JNum x).
Hypothesis Hstr : forall s, P (JStr s).
Hypothesis Harr : forall l, Forall P l -> P (JArr l).
Hypothesis Hobj : forall l, Forall (fun kv => P (snd kv)) l -> P (JObj l).

Fixpoint json_ind' (v : json) : P v :=
  match v with
  | JNull => Hnull
  | JBool b => Hbool b
  | JNum x => Hnum x
  | JStr s => Hstr s
  | JArr l => Harr l ((fix go (l : list json) : Forall P l :=
                        match l with
                        | [] => Forall_nil _
                        | x :: r => Forall_cons _ (json_ind' x) (go r)
                        end) l)
  | JObj l => Hobj l ((fix go (l : list (jsstr * json)) : Forall (fun kv => P (snd kv)) l :=
                        match l with
                        | [] => Forall_nil _
                        | kv :: r => Forall_cons _ (json_ind' (snd kv)) (go r)
                        end) l)
  end.
End json_rect.

(** Number-literal pieces: no leading digit, digit runs, integer part, fraction, exponent. *)
Definition nd (t : jsstr) : Prop := match t with [] => True | c :: _ => is_digit c = false end.
Definition digits (s : jsstr) : Prop := Forall (fun c => is_digit c = true) s.

Definition int_part (I : jsstr) : Prop :=
  I = [48] \/ exists d ds, I = d :: ds /\ 49 <= d <= 57 /\ digits ds.

Definition frac_text (F : jsstr) : jsstr := match F with [] => [] | _ => 46 :: F end.

Definition exp_text (x : Z) : jsstr := 101 :: (if x <? 0 then 45 else 43) :: ztext (Z.abs x).

(** Parsing the text of [x] (followed by [t]) gives back [reparsed x]. *)
Definition rt_at (gap ind : jsstr) (x : json) : Prop :=
  forall n t, num_end t -> (size x < n)%nat -> pvalue n (ser gap ind x ++ t) = Some (reparsed x, t).

(** The same for an object member. *)
Definition rt_member (gap ind : jsstr) (kv : jsstr * json) : Prop :=
  units_ok (fst kv) /\ rt_at gap ind (snd kv).

Definition strip_member (kv : jsstr * json) : jsstr * json := (fst kv, reparsed (snd kv)).

(** A JS string: a sequence of 16-bit code units. *)
Definition js_string (s : jsstr) : bool :=
  forallb (fun c => (0 <=? c) && (c <? 65536)) s.

(** No infinity and no negative zero anywhere in the value. *)
Fixpoint reparse_stable (v : json) : bool :=
  match v with
  | JNum (NInf _) => false
  | JNum (NFin neg m _) => negb (neg && (m =? 0))
  | JArr l => forallb reparse_stable l
  | JObj l => forallb (fun kv => reparse_stable (snd kv)) l
  | _ => true
  end.

(* ================================================================= *)
(** ** Status texts (App.tsx lines 166-183; part_000 lines 157-174) *)

(** [statusTexts], the same [Record<number, string>] in both shells.  An
    integer code [c] is looked up under the key [ToString(c)], its decimal
    text, so the lookup is by the integer itself. *)
Definition statusTexts : list (Z * jsstr) :=
  [(200, js "OK"); (201, js "Created"); (204, js "No Content");
   (400, js "Bad Request"); (401, js "Unauthorized"); (403, js "Forbidden");
   (404, js "Not Found"); (500, js "Internal Server Error");
   (502, js "Bad Gateway"); (503, js "Service Unavailable")].

Fixpoint code_lookup (c : Z) (t : list (Z * jsstr)) : option jsstr :=
  match t with
  | [] => None
  | (k, v) :: r => if c =? k then Some v else code_lookup c r
  end.

(** [if (!code) return ''; return statusTexts[code] || '';]: a missing key
    reads as [undefined], which is falsy. *)
Definition getStatusText (code : option Z) : jsstr :=
  if code_falsy code then []
  else match code with
       | Some c => match code_lookup c statusTexts with
                   | Some t => if truthy t then t else []
                   | None => []
                   end
       | None => []
       end.

(* ================================================================= *)
(** ** syntaxHighlight (App.tsx lines 122-154) *)

(** The regular expression of [json.replace(...)], as a term of the
    fragment it uses: character sets, sequence, alternation (left first),
    greedy [*] and [?], and the [\b] assertion.  Groups only capture, which
    the replacer ignores, so they are left out; [x+] is [x x*] and [x{4}]
    is four [x] in sequence, as in ECMA-262's RepeatMatcher. *)
Inductive re :=
| RChar (p : Z -> bool)
| RSeq (a b : re)
| RAlt (a b : re)
| RStar (a : re)
| ROpt (a : re)
| RWordB.

(** [\w] characters, used by [\b]: [A-Za-z0-9_]. *)
Definition is_word_char (c : Z) : bool :=
  ((65 <=? c) && (c <=? 90)) || ((97 <=? c) && (c <=? 122)) ||
  ((48 <=? c) && (c <=? 57)) || (c =? 95).

(** [\s]: WhiteSpace and LineTerminator code units. *)
Definition is_space (c : Z) : bool :=
  (c =? 9) || (c =? 10) || (c =? 11) || (c =? 12) || (c =? 13) || (c =? 32) ||
  (c =? 160) || (c =? 5760) || ((8192 <=? c) && (c <=? 8202)) || (c =? 8232) ||
  (c =? 8233) || (c =? 8239) || (c =? 8287) || (c =? 12288) || (c =? 65279).

Definition is_alnum (c : Z) : bool :=
  ((97 <=? c) && (c <=? 122)) || ((65 <=? c) && (c <=? 90)) || ((48 <=? c) && (c <=? 57)).

(** RepeatMatcher for a greedy [*]: an iteration, then the rest of the
    loop (failing if the iteration matched the empty string), or else the
    continuation; [g] bounds the iterations. *)
Fixpoint star_loop (m : nat -> (nat -> option nat) -> option nat) (k : nat -> option nat)
  (g i : nat) : option nat :=
  match g with
  | O => None
  | S g' => match m i (fun j => if Nat.eqb j i then None else star_loop m k g' j) with
            | Some e => Some e
            | None => k i
            end
  end.

(** ECMA-262 matcher semantics, in continuation-passing style, on the
    positions of the input [s]: [k] is the continuation, a result is the
    end position of the whole match.  A [*] or [?] iteration that matches
    the empty string fails (RepeatMatcher's empty check).  [f] bounds the
    iterations of a [*]; [S (length s)] is enough, since each iteration
    consumes a character. *)
Fixpoint mt (s : jsstr) (f : nat) (r : re) (i : nat) (k : nat -> option nat) {struct r}
  : option nat :=
  match r with
  | RChar p => match nth_error s i with
               | Some c => if p c then k (S i) else None
               | None => None
               end
  | RSeq a b => mt s f a i (fun j => mt s f b j k)
  | RAlt a b => match mt s f a i k with
                | Some e => Some e
                | None => mt s f b i k
                end
  | RStar a => star_loop (mt s f a) k f i
  | ROpt a => match mt s f a i (fun j => if Nat.eqb j i then None else k j) with
              | Some e => Some e
              | None => k i
              end
  | RWordB => let a := match i with
                       | O => false
                       | S i' => match nth_error s i' with Some c => is_word_char c | None => false end
                       end in
              let b := match nth_error s i with Some c => is_word_char c | None => false end in
              if xorb a b then k i else None
  end.

Definition rc (c : Z) : re := RChar (Z.eqb c).

Fixpoint rword (c : Z) (l : list Z) : re :=
  match l with [] => rc c | d :: r => RSeq (rc c) (rword d r) end.

Definition rdigit : re := RChar is_digit.

(** The regular expression of line 139: a string literal (a quote; then,
    repeated, [\\u] and four alphanumerics, or a backslash and a non-[u],
    or any character but backslash and quote; a quote; optionally white
    space and a colon), or [true], [false] or [null] between word
    boundaries, or a number (an optional minus, digits, optionally a dot
    and digits, optionally [e] or [E], a sign, digits). *)
Definition hl_re : re :=
  RAlt
    (RSeq (rc 34)
      (RSeq (RStar (RAlt (RSeq (rc 92) (RSeq (rc 117)
                                 (RSeq (RChar is_alnum) (RSeq (RChar is_alnum)
                                   (RSeq (RChar is_alnum) (RChar is_alnum))))))
                         (RAlt (RSeq (rc 92) (RChar (fun c => negb (c =? 117))))
                               (RChar (fun c => negb (c =? 92) && negb (c =? 34))))))
        (RSeq (rc 34) (ROpt (RSeq (RStar (RChar is_space)) (rc 58))))))
    (RAlt
      (RSeq RWordB
        (RSeq (RAlt (rword 116 [114; 117; 101])
                (RAlt (rword 102 [97; 108; 115; 101]) (rword 110 [117; 108; 108])))
          RWordB))
      (RSeq (ROpt (rc 45))
        (RSeq (RSeq rdigit (RStar rdigit))
          (RSeq (ROpt (RSeq (rc 46) (RStar rdigit)))
            (ROpt (RSeq (RChar (fun c => (c =? 101) || (c =? 69)))
                    (RSeq (ROpt (RChar (fun c => (c =? 43) || (c =? 45))))
                      (RSeq rdigit (RStar rdigit))))))))).

(** The pattern matched at position [L], with the final continuation. *)
Definition match_at (s : jsstr) (L : nat) : option nat :=
  mt s (S (List.length s)) hl_re L (fun e => Some e).

(** RegExpBuiltinExec of a global regexp from [lastIndex = L]: try [L],
    [L + 1], ... up to the length of the input. *)
Fixpoint search (s : jsstr) (g L : nat) : option (nat * nat) :=
  match g with
  | O => None
  | S g' => if Nat.ltb (List.length s) L then None
            else match match_at s L with
                 | Some e => Some (L, e)
                 | None => search s g' (S L)
                 end
  end.

(** The results of RegExp.prototype[@@replace]'s exec loop: (position, end)
    of each match; after an empty match [lastIndex] advances by one. *)
Fixpoint collect (s : jsstr) (g L : nat) : list (nat * nat) :=
  match g with
  | O => []
  | S g' => match search s (S (S (List.length s))) L with
            | None => []
            | Some (p, e) => (p, e) :: collect s g' (if Nat.eqb p e then S e else e)
            end
  end.

Fixpoint is_prefix (p s : jsstr) : bool :=
  match p, s with
  | [], _ => true
  | a :: p', c :: s' => (a =? c) && is_prefix p' s'
  | _ :: _, [] => false
  end.

(** [/p/.test(m)] for a literal pattern [p]: [p] occurs somewhere in [m]. *)
Fixpoint contains (p m : jsstr) : bool :=
  match m with
  | [] => is_prefix p []
  | _ :: r => is_prefix p m || contains p r
  end.

(** The class chosen by the replacer function. *)
Definition hl_class (m : jsstr) : jsstr :=
  if is_prefix [34] m then
    (if is_prefix [58] (rev m) then js "text-red-600" else js "text-purple-600")
  else if contains (js "true") m || contains (js "false") m then js "text-blue-600"
  else if contains (js "null") m then js "text-gray-600"
  else js "text-green-600".

(** The replacement: the match inside a span element with the class. *)
Definition hl_span (m : jsstr) : jsstr :=
  js "<span class=" ++ [34] ++ hl_class m ++ [34] ++ js ">" ++ m ++ js "</span>".

Definition substr (s : jsstr) (a b : nat) : jsstr := firstn (b - a) (skipn a s).

(** The accumulation of RegExp.prototype[@@replace]: the text before each
    match, then its replacement; a match starting before the end of the
    previous one is skipped; then the rest of the input. *)
Definition assemble_step (s : jsstr) (st : jsstr * nat) (pe : nat * nat) : jsstr * nat :=
  let '(acc, next) := st in
  let '(p, e) := pe in
  if Nat.leb next p then (acc ++ substr s next p ++ hl_span (substr s p e), e)
  else st.

Definition assemble (s : jsstr) (ms : list (nat * nat)) : jsstr :=
  let '(acc, next) := fold_left (assemble_step s) ms ([], O) in
  acc ++ skipn next s.

Definition hl_replace (s : jsstr) : jsstr :=
  assemble s (collect s (S (S (List.length s))) O).

(** [syntaxHighlight(json)]; it is only called with the [response] string,
    so the [typeof json !== 'string'] branch is never taken.  The
    [JSON.parse(json)] check and the [JSON.parse] inside [JSON.stringify]
    parse the same text. *)
Definition syntaxHighlight (json : jsstr) : jsstr :=
  if negb (truthy json) then []
  else match JSON_parse json with
       | None => json
       | Some _ => match JSON_parse json with
                   | Some v => hl_replace (JSON_stringify v gap2)
                   | None => json
                   end
       end.

(** The output as text pieces: kept text, or a match wrapped in a span. *)
Inductive piece := Plain (t : jsstr) | Tok (m : jsstr).

Definition render (p : piece) : jsstr := match p with Plain t => t | Tok m => hl_span m end.
Definition raw (p : piece) : jsstr := match p with Plain t => t | Tok m => m end.

(* ================================================================= *)
(** ** Reading [savedUrls[environment]] (App.tsx lines 24-36; part_000 lines 39-59) *)

(** [[[Get]]] of an own data property of an ordinary object. *)
Fixpoint obj_get (k : jsstr) (o : list (jsstr * json)) : option json :=
  match o with
  | [] => None
  | (k', v) :: r => if str_eqb k k' then Some v else obj_get k r
  end.

(** A value read from a property: [undefined] or a JSON value. *)
Inductive jsval := Undef | JV (v : json).

(** [v[environment]] for an environment name ([development] or
    [production]); [None] is the TypeError of a read on [null].  These
    names are no array index, not [length], and no property of the
    prototypes of objects, arrays, strings, numbers or booleans, so every
    value but an object holding the key reads [undefined]. *)
Definition env_prop (v : json) (environment : jsstr) : option jsval :=
  match v with
  | JNull => None
  | JObj o => Some (match obj_get environment o with Some x => JV x | None => Undef end)
  | _ => Some Undef
  end.

(** ToBoolean. *)
Definition js_truthy (x : jsval) : bool :=
  match x with
  | Undef | JV JNull => false
  | JV (JBool b) => b
  | JV (JNum (NFin _ m _)) => negb (m =? 0)
  | JV (JNum (NInf _)) => true
  | JV (JStr s) => truthy s
  | JV _ => true
  end.

(** [x || '']. *)
Definition or_empty (x : jsval) : jsval := if js_truthy x then x else JV (JStr []).

(** The effect run when [environment] or [savedUrls] changes:
    [setBaseUrl(savedUrls[environment] || '')]; [None]: it throws. *)
Definition env_effect (savedUrls : json) (environment : jsstr) : option jsval :=
  match env_prop savedUrls environment with
  | Some x => Some (or_empty x)
  | None => None
  end.


(** The body of the mount-time load effect, on the slots [savedUrls] and
    [baseUrl]: [savedData = getItem('apiTesterUrls')]; if it is truthy,
    [parsed = JSON.parse(savedData)], [setSavedUrls(parsed)],
    [setBaseUrl(parsed[environment])].  The second component is the error
    it throws, if any. *)
Definition load_effect (st : Storage) (environment : jsstr) (slots : json * jsval)
  : (json * jsval) * option Thrown :=
  match getItem storage_key st with
  | Some d =>
      if truthy d then
        match JSON_parse d with
        | None => (slots, Some (JSErr (js "SyntaxError") parse_error_msg))
        | Some parsed =>
            match env_prop parsed environment with
            | Some x => ((parsed, x), None)
            | None => ((parsed, snd slots), Some (JSErr (js "TypeError") null_read_msg))
            end
        end
      else (slots, None)
  | None => (slots, None)
  end.

(** Browser: the error escapes the effect. *)
Definition load_effect_web (st : Storage) (environment : jsstr) (slots : json * jsval)
  : (json * jsval) * option Thrown :=
  load_effect st environment slots.

(** Mobile: the same body inside [try ... catch], which only logs. *)
Definition load_effect_mobile (st : Storage) (environment : jsstr) (slots : json * jsval)
  : (json * jsval) * option Thrown :=
  (fst (load_effect st environment slots), None).

(** Own keys are distinct, as in every object. *)
Fixpoint keys_distinct (o : list (jsstr * json)) : bool :=
  match o with
  | [] => true
  | (k, _) :: r => negb (obj_has k r) && keys_distinct r
  end.

(** The configuration with another [jsonBody]. *)
Definition with_body (c : Config) (b : jsstr) : Config :=
  {| method := method c; baseUrl := baseUrl c; url := url c; urlParams := urlParams c;
     useAuth := useAuth c; token := token c; jsonBody := b |}.

(* ================================================================= *)
(** ** copyToClipboard (App.tsx lines 106-110; part_000 lines 132-136) *)

(** The clipboard, the [copied] slot and the pending [setTimeout]
    callbacks, each by the time it is due (in milliseconds). *)
Record Clip := { clipboard : jsstr; copied : bool; timers : list Z }.

(** [writeText(response); setCopied(true); setTimeout(() => setCopied(false), 2000)]
    at time [now]; no earlier timeout is cleared. *)
Definition copyToClipboard (response : jsstr) (now : Z) (s : Clip) : Clip :=
  {| clipboard := response; copied := true; timers := timers s ++ [now + 2000] |}.

(** The event loop reaching time [t]: every callback due by then runs
    [setCopied(false)]. *)
Definition run_timers (t : Z) (s : Clip) : Clip :=
  {| clipboard := clipboard s;
     copied := if existsb (fun d => d <=? t) (timers s) then false else copied s;
     timers := filter (fun d => t <? d) (timers s) |}.

(* ================================================================= *)
(** ** Outcome lemmas *)

Lemma JSON_parse_empty : JSON_parse [] = None.
Proof. reflexivity. Qed.


Ltac run_m := unfold try_finally, try_catch, bind, json_parse, fetch, get_res,
  setStatusCode, setResponse, setError, setLoading, modify_ui, ret, throw,
  early_return, set_body, res_json, res_text, consume_text, mark_used, preventDefault;
  cbn -[JSON_parse JSON_stringify js].

Lemma handleSubmit_web_outcome (net : Transport) (c : Config) (u : UI) :
  run_submit handleSubmit_web net c u = submit_outcome net c.
Proof.
  unfold run_submit, handleSubmit_web.
  unfold submit_outcome, body_check, full_url, headers_of.
  destruct c as [m b p q a t j];
  cbn [method baseUrl url urlParams useAuth token jsonBody].
  destruct (a && truthy t); cbn [app];
  set (U := b ++ p ++ (if truthy q then 63 :: q else []));
  destruct (negb (method_eqb m GET) && truthy j) eqn:Hb;
  try destruct (JSON_parse j) as [v|] eqn:Hj; run_m; try rewrite Hj;
  cbn -[JSON_parse JSON_stringify js]; try reflexivity;
  match goal with |- context [net U ?o] => destruct (net U o) as [msg|st [tb|]] end;
  cbn -[JSON_parse JSON_stringify js]; try reflexivity;
  run_m; rewrite ?JSON_parse_empty; cbn -[JSON_parse JSON_stringify js]; try reflexivity;
  destruct (JSON_parse tb) eqn:Ht; cbn -[JSON_parse JSON_stringify js]; reflexivity.
Qed.

Lemma handleSubmit_mobile_outcome (net : Transport) (c : Config) (u : UI) :
  run_submit handleSubmit_mobile net c u = submit_outcome net c.
Proof.
  unfold run_submit, handleSubmit_mobile.
  unfold submit_outcome, body_check, full_url, headers_of.
  destruct c as [m b p q a t j];
  cbn [method baseUrl url urlParams useAuth token jsonBody].
  destruct (a && truthy t); cbn [app];
  set (U := b ++ p ++ (if truthy q then 63 :: q else []));
  destruct (negb (method_eqb m GET) && truthy j) eqn:Hb;
  try destruct (JSON_parse j) as [v|] eqn:Hj; run_m; try rewrite Hj;
  cbn -[JSON_parse JSON_stringify js]; try reflexivity;
  match goal with |- context [net U ?o] => destruct (net U o) as [msg|st [tb|]] end;
  cbn -[JSON_parse JSON_stringify js]; try reflexivity;
  run_m; rewrite ?JSON_parse_empty; cbn -[JSON_parse JSON_stringify js]; try reflexivity;
  destruct (JSON_parse tb) eqn:Ht; cbn -[JSON_parse JSON_stringify js]; reflexivity.
Qed.

Lemma submit_outcome_calls (net : Transport) (c : Config) :
  calls (submit_outcome net c) = [] /\ body_check c = None \/
  exists b, body_check c = Some b /\
    calls (submit_outcome net c) =
      [(full_url c, {| opt_method := method c; opt_headers := headers_of c; opt_body := b |})].
Proof.
  unfold submit_outcome.
  destruct (body_check c) as [b|]; [right; exists b; split; [reflexivity|] | left; auto].
  destruct (net _ _) as [msg|st [tb|]]; try reflexivity.
  destruct (JSON_parse tb); reflexivity.
Qed.

(* ================================================================= *)
(** ** C1: status classification *)

(** C1 (as stated): a status code below 200 is classified neutral.  It is
    not: 100 is shown in the server-error colour, in both shells. *)
Lemma C1_status_100_is_server_error :
  ~ (forall code : option Z,
       bucket_of_web_color (getStatusCodeColor_web code) = Some (spec_bucket code) /\
       bucket_of_mobile_color (getStatusCodeColor_mobile code) = Some (spec_bucket code)).
Proof.
  intros H. destruct (H (Some 100)) as [Hw _]. vm_compute in Hw. discriminate.
Qed.

(** C1 (amended): both shells map every status code, and the absent case,
    to exactly one bucket: absent or 0 to neutral, 200-299 to success,
    300-399 to redirect, 400-499 to client-error and every other integer
    (including 1-199 and negative codes) to server-error. *)
Theorem C1_status_classification (code : option Z) :
  bucket_of_web_color (getStatusCodeColor_web code) = Some (code_bucket code) /\
  bucket_of_mobile_color (getStatusCodeColor_mobile code) = Some (code_bucket code).
Proof.
  destruct code as [c|]; [|split; reflexivity].
  unfold getStatusCodeColor_web, getStatusCodeColor_mobile, code_bucket, code_falsy.
  destruct (c =? 0); [split; reflexivity|].
  destruct ((200 <=? c) && (c <? 300)); [split; reflexivity|].
  destruct ((300 <=? c) && (c <? 400)); [split; reflexivity|].
  destruct ((400 <=? c) && (c <? 500)); split; reflexivity.
Qed.

(* ================================================================= *)
(** ** C2: body attachment *)

(** C2: in both shells, a GET request never carries a body; a POST or PUT
    with an empty [jsonBody] carries none; a POST or PUT with a non-empty
    [jsonBody] that parses is sent, with exactly that text as its body. *)
Theorem C2_body_attachment (net : Transport) (c : Config) (u : UI) :
  forall W, W = run_submit handleSubmit_web net c u \/
            W = run_submit handleSubmit_mobile net c u ->
  (method c = GET -> Forall (fun call => opt_body (snd call) = None) (calls W)) /\
  (method c <> GET -> jsonBody c = [] ->
     Forall (fun call => opt_body (snd call) = None) (calls W)) /\
  (method c <> GET -> jsonBody c <> [] -> JSON_parse (jsonBody c) <> None ->
     exists o, calls W = [(full_url c, o)] /\ opt_body o = Some (jsonBody c)).
Proof.
  intros W HW.
  assert (HW' : W = submit_outcome net c)
    by (destruct HW; subst; auto using handleSubmit_web_outcome, handleSubmit_mobile_outcome).
  subst W.
  assert (Hm : forall m, m <> GET -> method_eqb m GET = false)
    by (intros [] Hne; [congruence | reflexivity | reflexivity]).
  destruct (submit_outcome_calls net c) as [[Hc Hb] | [b [Hb Hc]]];
    rewrite Hc; unfold body_check in Hb.
  - repeat split; intros; try constructor.
    exfalso. rewrite (Hm _ H) in Hb. destruct (jsonBody c); [congruence|].
    cbn in Hb. destruct (JSON_parse _); congruence.
  - repeat split.
    + intros Hg. rewrite Hg in Hb. cbn in Hb. injection Hb as <-. repeat constructor.
    + intros Hg Hj. rewrite Hj in Hb. rewrite andb_false_r in Hb.
      injection Hb as <-. repeat constructor.
    + intros Hg Hj Hp. rewrite (Hm _ Hg) in Hb.
      destruct (jsonBody c) as [|x r]; [congruence|]. cbn in Hb.
      destruct (JSON_parse (x :: r)); [|congruence].
      injection Hb as <-. eexists; split; reflexivity.
Qed.

(** C2, on a POST of [[1,2]] in the browser shell. *)
Lemma C2_witness :
  let net := text_response 201 (js "{}") in
  let c := sample_config POST (js "[1,2]") in
  let W := run_submit handleSubmit_web net c sample_ui in
  (W = run_submit handleSubmit_web net c sample_ui \/
   W = run_submit handleSubmit_mobile net c sample_ui) /\
  (method c = GET -> Forall (fun call => opt_body (snd call) = None) (calls W)) /\
  (method c <> GET -> jsonBody c = [] ->
     Forall (fun call => opt_body (snd call) = None) (calls W)) /\
  (method c <> GET -> jsonBody c <> [] -> JSON_parse (jsonBody c) <> None ->
     exists o, calls W = [(full_url c, o)] /\ opt_body o = Some (jsonBody c)).
Proof.
  cbv zeta. split; [left; reflexivity|].
  apply (C2_body_attachment (text_response 201 (js "{}")) (sample_config POST (js "[1,2]")) sample_ui).
  left; reflexivity.
Defined.

(* ================================================================= *)
(** ** C3: an invalid body aborts before the network *)

(** C3: in both shells, a POST or PUT whose non-empty [jsonBody] does not
    parse ends with the error message [Invalid JSON in request body], no
    [fetch] call, no status code and no response; the outcome is the same
    whatever the network would have done. *)
Theorem C3_invalid_body_no_fetch (net : Transport) (c : Config) (u : UI)
  (Hm : method c <> GET) (Hne : jsonBody c <> []) (Hp : JSON_parse (jsonBody c) = None) :
  forall W, W = run_submit handleSubmit_web net c u \/
            W = run_submit handleSubmit_mobile net c u ->
  calls W = [] /\
  error (ui W) = js "Invalid JSON in request body" /\
  statusCode (ui W) = None /\ response (ui W) = [] /\
  (forall net', W = run_submit handleSubmit_web net' c u /\
                W = run_submit handleSubmit_mobile net' c u).
Proof.
  intros W HW.
  assert (HW' : W = submit_outcome net c)
    by (destruct HW; subst; auto using handleSubmit_web_outcome, handleSubmit_mobile_outcome).
  assert (Hb : body_check c = None).
  { unfold body_check. destruct (method c); [congruence| |];
      destruct (jsonBody c); try congruence; cbn; rewrite Hp; reflexivity. }
  subst W. unfold submit_outcome at 1 2 3 4. rewrite Hb. cbn.
  split; [reflexivity|]. split; [reflexivity|]. split; [reflexivity|].
  split; [reflexivity|]. intros net'.
  rewrite handleSubmit_web_outcome, handleSubmit_mobile_outcome.
  unfold submit_outcome; rewrite Hb; split; reflexivity.
Qed.

(** C3, on a PUT of [{invalid] in the mobile shell. *)
Lemma C3_witness :
  let net := text_response 200 (js "{}") in
  let c := sample_config PUT (js "{invalid") in
  let W := run_submit handleSubmit_mobile net c sample_ui in
  method c <> GET /\ jsonBody c <> [] /\ JSON_parse (jsonBody c) = None /\
  (W = run_submit handleSubmit_web net c sample_ui \/
   W = run_submit handleSubmit_mobile net c sample_ui) /\
  calls W = [] /\
  error (ui W) = js "Invalid JSON in request body" /\
  statusCode (ui W) = None /\ response (ui W) = [] /\
  (forall net', W = run_submit handleSubmit_web net' c sample_ui /\
                W = run_submit handleSubmit_mobile net' c sample_ui).
Proof.
  cbv zeta.
  assert (Hm : method (sample_config PUT (js "{invalid")) <> GET) by discriminate.
  assert (Hne : jsonBody (sample_config PUT (js "{invalid")) <> []) by discriminate.
  assert (Hp : JSON_parse (jsonBody (sample_config PUT (js "{invalid"))) = None)
    by (vm_compute; reflexivity).
  split; [exact Hm|]. split; [exact Hne|]. split; [exact Hp|].
  split; [right; reflexivity|].
  apply (C3_invalid_body_no_fetch (text_response 200 (js "{}")) (sample_config PUT (js "{invalid"))
           sample_ui Hm Hne Hp).
  right; reflexivity.
Defined.

(* ================================================================= *)
(** ** C4: the URL *)

(** C4: every request either shell sends goes to [B+P] when the query [Q]
    is empty and to [B+P+"?"+Q] otherwise, with the three strings taken
    as they are. *)
Theorem C4_full_url (net : Transport) (c : Config) (u : UI) :
  Forall (fun call =>
            (urlParams c = [] -> fst call = baseUrl c ++ url c) /\
            (urlParams c <> [] -> fst call = baseUrl c ++ url c ++ js "?" ++ urlParams c))
         (calls (run_submit handleSubmit_web net c u) ++
          calls (run_submit handleSubmit_mobile net c u)).
Proof.
  rewrite handleSubmit_web_outcome, handleSubmit_mobile_outcome.
  destruct (submit_outcome_calls net c) as [[Hc _] | [b [_ Hc]]]; rewrite Hc.
  - constructor.
  - unfold full_url. cbn.
    assert (H : (urlParams c = [] -> baseUrl c ++ url c ++
                   (if truthy (urlParams c) then 63 :: urlParams c else []) =
                 baseUrl c ++ url c) /\
                (urlParams c <> [] -> baseUrl c ++ url c ++
                   (if truthy (urlParams c) then 63 :: urlParams c else []) =
                 baseUrl c ++ url c ++ js "?" ++ urlParams c)).
    { destruct (urlParams c); split; intros; try congruence.
      - rewrite app_nil_r. reflexivity.
      - reflexivity. }
    repeat constructor; apply H; assumption.
Qed.

(* ================================================================= *)
(** ** C5: the headers *)

(** C5: every request either shell sends has the JSON Content-Type header,
    and an Authorization header exactly when [useAuth] holds and the token
    is non-empty, with value [Bearer ] followed by the token; with
    [useAuth] on and an empty token the submission goes exactly as with
    [useAuth] off (no header, no error). *)
Theorem C5_headers (net : Transport) (c : Config) (u : UI) :
  Forall (fun call =>
            In (js "Content-Type", js "application/json") (opt_headers (snd call)) /\
            forall v, In (js "Authorization", v) (opt_headers (snd call)) <->
                      useAuth c = true /\ token c <> [] /\ v = js "Bearer " ++ token c)
         (calls (run_submit handleSubmit_web net c u) ++
          calls (run_submit handleSubmit_mobile net c u)) /\
  (useAuth c = true -> token c = [] ->
     run_submit handleSubmit_web net c u = run_submit handleSubmit_web net (with_auth c false) u /\
     run_submit handleSubmit_mobile net c u =
       run_submit handleSubmit_mobile net (with_auth c false) u).
Proof.
  split.
  - rewrite handleSubmit_web_outcome, handleSubmit_mobile_outcome.
    destruct (submit_outcome_calls net c) as [[Hc _] | [b [_ Hc]]]; rewrite Hc.
    + constructor.
    + assert (H : In (js "Content-Type", js "application/json") (headers_of c) /\
                  forall v, In (js "Authorization", v) (headers_of c) <->
                            useAuth c = true /\ token c <> [] /\ v = js "Bearer " ++ token c).
      { unfold headers_of. split; [left; reflexivity|]. intros v.
        assert (Hct : (js "Content-Type", js "application/json") <> (js "Authorization", v))
          by (intros E; injection E as E _; discriminate E).
        destruct (useAuth c), (token c) as [|x r]; cbn; split.
        all: try (intros [E|[E|[]]]; [congruence|]); try (intros [E|[]]; congruence).
        all: try (intros (? & ? & ?); congruence).
        - injection E as <-. repeat split; congruence.
        - intros (_ & _ & ->). right; left; reflexivity. }
      cbn [app]. apply Forall_cons; [exact H|]. apply Forall_cons; [exact H|]. constructor.
  - intros Ha Ht.
    rewrite !handleSubmit_web_outcome, ?handleSubmit_mobile_outcome.
    assert (Hh : headers_of c = headers_of (with_auth c false))
      by (unfold headers_of; cbn; rewrite Ht; destruct (useAuth c); reflexivity).
    unfold submit_outcome; rewrite Hh; split; reflexivity.
Qed.

(* ================================================================= *)
(** ** C6: the response interpreter *)

(** C6 (code defect): a response with a non-null body that is not JSON.
    [res.json()] has read the body stream, so [res.text()] in the catch
    block rejects; the TypeError reaches the outer catch.  The status is
    recorded, but the raw text is not shown: the result is the error
    [Request failed: ...] and an empty response, in both shells. *)
Theorem C6_non_json_body_not_shown (u : UI) :
  ui (run_submit handleSubmit_web (text_response 200 (js "hello")) (sample_config GET []) u) =
    mkUI false (js "Request failed: " ++ body_used_msg) [] (Some 200) /\
  ui (run_submit handleSubmit_mobile (text_response 200 (js "hello")) (sample_config GET []) u) =
    mkUI false (js "Request failed: " ++ body_used_msg) [] (Some 200).
Proof.
  rewrite handleSubmit_web_outcome, handleSubmit_mobile_outcome. split; vm_compute; reflexivity.
Qed.

(* ================================================================= *)
(** ** C7: the result invariant *)

(** C7 (as stated): the status code is absent only when the transport call
    failed.  It fails: an invalid POST body leaves the status absent while
    [fetch] was never called. *)
Lemma C7_status_absent_without_fetch :
  ~ (forall (net : Transport) (c : Config) (u : UI),
       statusCode (ui (run_submit handleSubmit_web net c u)) = None ->
       exists U o msg, calls (run_submit handleSubmit_web net c u) = [(U, o)] /\
                       net U o = NetworkError msg).
Proof.
  intros H.
  destruct (H (text_response 200 []) (sample_config POST (js "{invalid")) sample_ui)
    as (U & o & msg & Hc & _).
  - rewrite handleSubmit_web_outcome. vm_compute. reflexivity.
  - rewrite handleSubmit_web_outcome in Hc. vm_compute in Hc. discriminate.
Qed.

(** C7 (amended): after any submission, in both shells, at most one of the
    response text and the error message is non-empty; the status code is
    absent exactly when the body check aborted the submission before any
    [fetch] (error [Invalid JSON in request body]) or the [fetch] call
    itself failed; and when it failed the error message is
    [Request failed: ] followed by the failure's message, with no status. *)
Theorem C7_result_invariant (net : Transport) (c : Config) (u : UI) :
  forall W, W = run_submit handleSubmit_web net c u \/
            W = run_submit handleSubmit_mobile net c u ->
  (response (ui W) = [] \/ error (ui W) = []) /\
  (statusCode (ui W) = None <->
     (calls W = [] /\ error (ui W) = js "Invalid JSON in request body") \/
     (exists U o msg, calls W = [(U, o)] /\ net U o = NetworkError msg)) /\
  (forall U o msg, In (U, o) (calls W) -> net U o = NetworkError msg ->
     error (ui W) = js "Request failed: " ++ msg /\ statusCode (ui W) = None).
Proof.
  intros W HW.
  assert (HW' : W = submit_outcome net c)
    by (destruct HW; subst; auto using handleSubmit_web_outcome, handleSubmit_mobile_outcome).
  subst W. unfold submit_outcome.
  destruct (body_check c) as [b|].
  2:{ cbn -[js]. split; [left; reflexivity|]. split.
      - split; [intros _; left; split; reflexivity | reflexivity].
      - intros U o msg []. }
  set (o := {| opt_method := method c; opt_headers := headers_of c; opt_body := b |}).
  assert (Hin : forall U o', In (U, o') [(full_url c, o)] -> U = full_url c /\ o' = o)
    by (intros U o' [E|[]]; injection E as <- <-; auto).
  destruct (net (full_url c) o) as [msg|st [tb|]] eqn:Hn;
    [| destruct (JSON_parse tb) |]; cbn -[js JSON_stringify].
  - split; [left; reflexivity|]. split.
    + split; [intros _; right; exists (full_url c), o, msg; auto | reflexivity].
    + intros U o' msg' H Hn'. destruct (Hin _ _ H) as [-> ->]. split; congruence.
  - split; [right; reflexivity|]. split.
    + split; [discriminate|].
      intros [[E _]|(U & o' & msg & E & Hn')]; [discriminate|].
      injection E as <- <-. congruence.
    + intros U o' msg H Hn'. destruct (Hin _ _ H) as [-> ->]. congruence.
  - split; [left; reflexivity|]. split.
    + split; [discriminate|].
      intros [[E _]|(U & o' & msg & E & Hn')]; [discriminate|].
      injection E as <- <-. congruence.
    + intros U o' msg H Hn'. destruct (Hin _ _ H) as [-> ->]. congruence.
  - split; [right; reflexivity|]. split.
    + split; [discriminate|].
      intros [[E _]|(U & o' & msg & E & Hn')]; [discriminate|].
      injection E as <- <-. congruence.
    + intros U o' msg H Hn'. destruct (Hin _ _ H) as [-> ->]. congruence.
Qed.

(** C7 (amended), on a GET answered with a JSON body, in the mobile shell. *)
Lemma C7_witness :
  let net := text_response 200 (js "[1]") in
  let c := sample_config GET [] in
  let W := run_submit handleSubmit_mobile net c sample_ui in
  (W = run_submit handleSubmit_web net c sample_ui \/
   W = run_submit handleSubmit_mobile net c sample_ui) /\
  (response (ui W) = [] \/ error (ui W) = []) /\
  (statusCode (ui W) = None <->
     (calls W = [] /\ error (ui W) = js "Invalid JSON in request body") \/
     (exists U o msg, calls W = [(U, o)] /\ net U o = NetworkError msg)) /\
  (forall U o msg, In (U, o) (calls W) -> net U o = NetworkError msg ->
     error (ui W) = js "Request failed: " ++ msg /\ statusCode (ui W) = None).
Proof.
  cbv zeta. split; [right; reflexivity|].
  apply (C7_result_invariant (text_response 200 (js "[1]")) (sample_config GET []) sample_ui).
  right; reflexivity.
Defined.

(* ================================================================= *)
(** ** C8: the two shells *)

(** C8: the browser and the mobile [handleSubmit] behave identically on
    every configuration, every network behaviour and every starting world:
    same [fetch] calls (URL, headers, body), same final status code,
    response text and error message. *)
Theorem C8_shells_agree (net : Transport) (c : Config) (w : World) :
  handleSubmit_web net c w = handleSubmit_mobile net c w.
Proof. reflexivity. Qed.

(* ================================================================= *)
(** ** Round trip of JSON.stringify through JSON.parse: strings *)

Lemma pstr_plain (c : Z) (r : jsstr) :
  32 <= c -> c <> 34 -> c <> 92 -> pstr (c :: r) = cons_fst c (pstr r).
Proof.
  intros H1 H2 H3. cbn [pstr].
  rewrite (proj2 (Z.eqb_neq c 34) H2), (proj2 (Z.eqb_neq c 92) H3).
  replace (c <? 32) with false by (symmetry; apply Z.ltb_ge; lia). reflexivity.
Qed.

Lemma pstr_escape (e u : Z) (r : jsstr) :
  e <> 117 -> esc_char e = Some u -> pstr (92 :: e :: r) = cons_fst u (pstr r).
Proof.
  intros H1 H2. cbn [pstr]. rewrite (proj2 (Z.eqb_neq e 117) H1), H2. reflexivity.
Qed.

Lemma hexval_hexdig (d : Z) : 0 <= d < 16 -> hexval (hexdig d) = Some d.
Proof.
  intros Hd. unfold hexdig, hexval.
  destruct (Z.ltb_spec d 10).
  - replace ((48 <=? d + 48) && (d + 48 <=? 57)) with true
      by (symmetry; apply andb_true_intro; split; apply Z.leb_le; lia).
    f_equal; lia.
  - replace ((48 <=? d + 87) && (d + 87 <=? 57)) with false
      by (symmetry; apply andb_false_intro2; apply Z.leb_gt; lia).
    replace ((97 <=? d + 87) && (d + 87 <=? 102)) with true
      by (symmetry; apply andb_true_intro; split; apply Z.leb_le; lia).
    f_equal; lia.
Qed.

Lemma hex4_uesc (c : Z) : 0 <= c < 65536 ->
  hex4 (hexdig (c / 4096 mod 16)) (hexdig (c / 256 mod 16))
       (hexdig (c / 16 mod 16)) (hexdig (c mod 16)) = Some c.
Proof.
  intros Hc. unfold hex4.
  rewrite !hexval_hexdig by (apply Z.mod_pos_bound; lia).
  f_equal.
  assert (E1 : c = 16 * (c / 16) + c mod 16) by (apply Z.div_mod; lia).
  assert (E2 : c / 16 = 16 * (c / 256) + c / 16 mod 16).
  { replace (c / 256) with (c / 16 / 16) by (rewrite Z.div_div by lia; reflexivity).
    apply Z.div_mod; lia. }
  assert (E3 : c / 256 = 16 * (c / 4096) + c / 256 mod 16).
  { replace (c / 4096) with (c / 256 / 16) by (rewrite Z.div_div by lia; reflexivity).
    apply Z.div_mod; lia. }
  assert (E4 : c / 4096 mod 16 = c / 4096).
  { apply Z.mod_small. split; [apply Z.div_pos; lia|].
    apply Z.div_lt_upper_bound; lia. }
  rewrite E4. lia.
Qed.

Lemma pstr_uesc (c : Z) (r : jsstr) : 0 <= c < 65536 ->
  pstr (uesc c ++ r) = cons_fst c (pstr r).
Proof.
  intros Hc. unfold uesc. cbn [app pstr Z.eqb Pos.eqb].
  rewrite hex4_uesc by exact Hc. reflexivity.
Qed.

Lemma pstr_esc1 (c : Z) (r : jsstr) : 0 <= c ->
  pstr (esc1 c ++ r) = cons_fst c (pstr r).
Proof.
  intros Hc. unfold esc1.
  destruct (Z.eqb_spec c 8); [subst; reflexivity|].
  destruct (Z.eqb_spec c 9); [subst; reflexivity|].
  destruct (Z.eqb_spec c 10); [subst; reflexivity|].
  destruct (Z.eqb_spec c 12); [subst; reflexivity|].
  destruct (Z.eqb_spec c 13); [subst; reflexivity|].
  destruct (Z.eqb_spec c 34); [subst; reflexivity|].
  destruct (Z.eqb_spec c 92); [subst; reflexivity|].
  destruct (Z.ltb_spec c 32).
  - apply pstr_uesc; lia.
  - apply pstr_plain; assumption.
Qed.

Lemma pstr_esc_all (s rest : jsstr) : Forall (fun c => 0 <= c) s ->
  pstr (esc_all s ++ 34 :: rest) = Some (s, rest).
Proof.
  remember (List.length s) as n eqn:Hn.
  revert s Hn. induction n as [n IH] using (well_founded_induction lt_wf).
  intros s Hn Hs. destruct s as [|c r]; [reflexivity|].
  inversion Hs as [|? ? Hc Hr]; subst.
  cbn [esc_all].
  destruct (is_lead c) eqn:Hl.
  - unfold is_lead in Hl. apply andb_true_iff in Hl as [Hl1 Hl2].
    apply Z.leb_le in Hl1. apply Z.leb_le in Hl2.
    destruct r as [|d r'].
    + rewrite pstr_uesc by lia. reflexivity.
    + destruct (is_trail d) eqn:Ht.
      * inversion Hr as [|? ? Hd Hr']; subst.
        unfold is_trail in Ht. apply andb_true_iff in Ht as [Ht1 Ht2].
        apply Z.leb_le in Ht1. apply Z.leb_le in Ht2.
        cbn [app]. rewrite pstr_plain by lia. rewrite pstr_plain by lia.
        rewrite (IH (List.length r')) by (cbn; auto). reflexivity.
      * rewrite <- app_assoc, pstr_uesc by lia.
        rewrite (IH (List.length (d :: r'))) by (cbn; auto). reflexivity.
  - destruct (is_trail c) eqn:Ht.
    + unfold is_trail in Ht. apply andb_true_iff in Ht as [Ht1 Ht2].
      apply Z.leb_le in Ht1. apply Z.leb_le in Ht2.
      rewrite <- app_assoc, pstr_uesc by lia.
      rewrite (IH (List.length r)) by (cbn; auto). reflexivity.
    + rewrite <- app_assoc, pstr_esc1 by lia.
      rewrite (IH (List.length r)) by (cbn; auto). reflexivity.
Qed.

Lemma pstr_quote (s rest : jsstr) : Forall (fun c => 0 <= c) s ->
  exists r', quote s ++ rest = 34 :: r' /\ pstr r' = Some (s, rest).
Proof.
  intros Hs. exists (esc_all s ++ 34 :: rest). split.
  - unfold quote. cbn. rewrite <- app_assoc. reflexivity.
  - apply pstr_esc_all; exact Hs.
Qed.

(* ================================================================= *)
(** ** Round trip: decimal digits *)

Lemma lnz_cons (d : Z) (l : list Z) : l <> [] -> lnz (d :: l) <-> lnz l.
Proof. destruct l; [congruence|reflexivity]. Qed.

Lemma lnz_nonnil (l : list Z) : lnz l -> l <> [].
Proof. destruct l; cbn; tauto || discriminate. Qed.

Lemma lval_cons (d : Z) (r : list Z) : lval (d :: r) = d + 10 * lval r.
Proof. reflexivity. Qed.

Lemma dsucc_val (l : list Z) : lval (dsucc l) = lval l + 1.
Proof.
  induction l as [|d r IH]; [reflexivity|]. cbn [dsucc].
  destruct (Z.eqb_spec d 9); rewrite !lval_cons; [rewrite IH|]; lia.
Qed.

Lemma ddouble_val (l : list Z) : lval (ddouble l) = 2 * lval l.
Proof.
  induction l as [|d r IH]; [reflexivity|]. cbn [ddouble].
  destruct (Z.ltb_spec (2 * d) 10); rewrite !lval_cons; [|rewrite dsucc_val]; rewrite IH; lia.
Qed.

Lemma dsucc_digits (l : list Z) : Forall digit l -> Forall digit (dsucc l).
Proof.
  unfold digit. induction 1 as [|d r Hd Hr IH]; cbn [dsucc].
  - repeat constructor; lia.
  - destruct (Z.eqb_spec d 9); constructor; auto; lia.
Qed.

Lemma ddouble_digits (l : list Z) : Forall digit l -> Forall digit (ddouble l).
Proof.
  unfold digit. induction 1 as [|d r Hd Hr IH]; cbn [ddouble]; [constructor|].
  destruct (Z.ltb_spec (2 * d) 10); constructor; auto using dsucc_digits; lia.
Qed.

Lemma dsucc_nonnil (l : list Z) : dsucc l <> [].
Proof. destruct l; cbn [dsucc]; [|destruct (_ =? 9)]; discriminate. Qed.

Lemma ddouble_nonnil (l : list Z) : l <> [] -> ddouble l <> [].
Proof. destruct l; cbn [ddouble]; [congruence|]. destruct (_ <? 10); discriminate. Qed.

Lemma dsucc_lnz (l : list Z) : Forall digit l -> (l = [] \/ lnz l) -> lnz (dsucc l).
Proof.
  unfold digit. induction 1 as [|d r Hd Hr IH]; cbn [dsucc lnz]; [intros; lia|].
  intros Hl. destruct Hl as [Hl|Hl]; [discriminate|].
  destruct (Z.eqb_spec d 9).
  - apply lnz_cons; [apply dsucc_nonnil|]. apply IH.
    destruct r; [left; reflexivity|right; exact Hl].
  - destruct r; cbn in *; [lia|exact Hl].
Qed.

Lemma ddouble_lnz (l : list Z) : Forall digit l -> lnz l -> lnz (ddouble l).
Proof.
  unfold digit. induction 1 as [|d r Hd Hr IH]; cbn [ddouble lnz]; [tauto|].
  intros Hl. destruct r as [|x r'].
  - cbn [ddouble lnz] in *. destruct (Z.ltb_spec (2 * d) 10); cbn [lnz dsucc]; lia.
  - assert (H : lnz (ddouble (x :: r'))) by (apply IH; exact Hl).
    destruct (Z.ltb_spec (2 * d) 10).
    + apply lnz_cons; [apply ddouble_nonnil; discriminate|exact H].
    + apply lnz_cons; [apply dsucc_nonnil|].
      apply dsucc_lnz; [apply ddouble_digits; exact Hr|right; exact H].
Qed.

Lemma pdec_props (p : positive) :
  Forall digit (pdec p) /\ lnz (pdec p) /\ lval (pdec p) = Zpos p.
Proof.
  induction p as [q IH|q IH|]; cbn [pdec].
  - destruct IH as (H1 & H2 & H3). repeat split.
    + apply dsucc_digits, ddouble_digits, H1.
    + apply dsucc_lnz; [apply ddouble_digits, H1|right; apply ddouble_lnz; assumption].
    + rewrite dsucc_val, ddouble_val, H3. lia.
  - destruct IH as (H1 & H2 & H3). repeat split.
    + apply ddouble_digits, H1.
    + apply ddouble_lnz; assumption.
    + rewrite ddouble_val, H3. lia.
  - repeat split; cbn; unfold digit; auto; try lia. repeat constructor; lia.
Qed.

(** Horner evaluation of digit text, from any accumulator. *)
Lemma digits_fold_acc (ds : jsstr) (a : Z) :
  fold_left (fun acc c => acc * 10 + (c - 48)) ds a =
  a * 10 ^ Z.of_nat (List.length ds) + digits_val ds.
Proof.
  induction ds as [|c r IH] in a |- *.
  - cbn. lia.
  - assert (E : digits_val (c :: r) =
                (c - 48) * 10 ^ Z.of_nat (List.length r) + digits_val r)
      by (unfold digits_val at 1; cbn [fold_left]; rewrite IH; ring).
    cbn [fold_left List.length]. rewrite IH, E.
    rewrite Nat2Z.inj_succ, Z.pow_succ_r by lia. ring.
Qed.

Lemma digits_val_app (x y : jsstr) :
  digits_val (x ++ y) = digits_val x * 10 ^ Z.of_nat (List.length y) + digits_val y.
Proof.
  unfold digits_val at 1. rewrite fold_left_app. apply digits_fold_acc.
Qed.

Lemma digits_val_rev (l : list Z) :
  digits_val (map (fun d => d + 48) (rev l)) = lval l.
Proof.
  induction l as [|d r IH]; [reflexivity|].
  cbn [rev]. rewrite map_app, digits_val_app, IH, lval_cons.
  unfold digits_val. cbn [map List.length fold_left]. rewrite Z.pow_1_r. ring.
Qed.

Lemma digits_val_zeros (n : nat) (y : jsstr) :
  digits_val (repeat 48 n ++ y) = digits_val y.
Proof.
  rewrite digits_val_app. replace (digits_val (repeat 48 n)) with 0; [lia|].
  induction n as [|n IH]; [reflexivity|].
  cbn [repeat]. change (48 :: repeat 48 n) with ([48] ++ repeat 48 n).
  rewrite digits_val_app, <- IH. reflexivity.
Qed.

(** The text of a positive integer: its digit characters, the first one
    non-zero, with the integer's value. *)
Lemma ztext_props (a : Z) : 0 < a ->
  exists d r, ztext a = d :: r /\ 49 <= d <= 57 /\ Forall (fun c => is_digit c = true) r /\
              digits_val (ztext a) = a.
Proof.
  intros Ha. destruct a as [|p|p]; try lia.
  destruct (pdec_props p) as (H1 & H2 & H3).
  unfold ztext, zdigits.
  assert (Hv : digits_val (map (fun d => d + 48) (rev (pdec p))) = Zpos p)
    by (rewrite digits_val_rev; exact H3).
  assert (Hd : Forall digit (rev (pdec p))) by (apply Forall_rev; exact H1).
  assert (Hl : forall l, Forall digit l -> lnz l ->
                 exists d r, rev l = d :: r /\ 1 <= d <= 9 /\ Forall digit r).
  { induction l as [|x l IHl]; intros Hf Hz; [contradiction|].
    inversion Hf as [|? ? Hx Hf']; subst. cbn [rev].
    destruct l as [|y l'].
    - cbn in *. exists x, []. unfold digit in Hx. repeat split; auto; lia.
    - destruct (IHl Hf' Hz) as (d & r & E & Hd1 & Hr). rewrite E.
      exists d, (r ++ [x]). repeat split; auto; try lia.
      apply Forall_app; split; auto. }
  destruct (Hl _ H1 H2) as (d & r & E & Hd1 & Hr).
  rewrite E in *. cbn [map]. exists (d + 48), (map (fun d => d + 48) r).
  repeat split; try lia.
  - apply Forall_map. eapply Forall_impl; [|exact Hr].
    intros x Hx. unfold digit in Hx. unfold is_digit.
    apply andb_true_intro; split; apply Z.leb_le; lia.
  - exact Hv.
Qed.

Lemma ztext_zero : ztext 0 = [48].
Proof. reflexivity. Qed.


(* ================================================================= *)
(** ** Doubles: rounding and the shortest decimal *)

Lemma pow2_le_iff (p q t c : Z) : 0 <= c -> 0 <= t + c ->
  pow2_le p q t = true <-> q * 2 ^ (t + c) <= p * 2 ^ c.
Proof.
  intros Hc Htc. unfold pow2_le. destruct (Z.leb_spec 0 t) as [Ht|Ht].
  - rewrite Z.leb_le, Z.pow_add_r by lia.
    assert (P2 : 0 < 2 ^ c) by (apply Z.pow_pos_nonneg; lia).
    rewrite Z.mul_assoc. split; intros H; [nia|].
    apply (Z.mul_le_mono_pos_r _ _ (2 ^ c)); assumption.
  - rewrite Z.leb_le.
    replace (2 ^ c) with (2 ^ (- t) * 2 ^ (t + c)) by (rewrite <- Z.pow_add_r by lia; f_equal; lia).
    assert (P2 : 0 < 2 ^ (t + c)) by (apply Z.pow_pos_nonneg; lia).
    rewrite Z.mul_assoc. split; intros H; [nia|].
    apply (Z.mul_le_mono_pos_r _ _ (2 ^ (t + c))); assumption.
Qed.

Lemma pow2_le_anti (p q t t' : Z) : 0 < p -> 0 < q -> t <= t' ->
  pow2_le p q t' = true -> pow2_le p q t = true.
Proof.
  intros Hp Hq Htt H.
  set (c := Z.max 0 (- t)).
  rewrite (pow2_le_iff p q t' c) in H by lia. rewrite (pow2_le_iff p q t c) by lia.
  etransitivity; [|exact H]. apply Z.mul_le_mono_nonneg_l; [lia|].
  apply Z.pow_le_mono_r; lia.
Qed.

Lemma flog2_spec (p q : Z) : 0 < p -> 0 < q ->
  pow2_le p q (flog2 p q) = true /\ pow2_le p q (flog2 p q + 1) = false.
Proof.
  intros Hp Hq.
  destruct (Z.log2_spec p Hp) as [Pl Ph]. destruct (Z.log2_spec q Hq) as [Ql Qh].
  assert (Lp := Z.log2_nonneg p). assert (Lq := Z.log2_nonneg q).
  set (lp := Z.log2 p) in *. set (lq := Z.log2 q) in *.
  assert (A : pow2_le p q (lp - lq - 1) = true).
  { rewrite (pow2_le_iff p q _ (lq + 1)) by lia.
    replace (lp - lq - 1 + (lq + 1)) with lp by lia.
    assert (0 < 2 ^ lp) by (apply Z.pow_pos_nonneg; lia). nia. }
  assert (B : pow2_le p q (lp - lq + 1) = false).
  { apply not_true_iff_false. rewrite (pow2_le_iff p q _ lq) by lia.
    replace (lp - lq + 1 + lq) with (Z.succ lp) by lia.
    assert (0 < 2 ^ lq) by (apply Z.pow_pos_nonneg; lia). nia. }
  unfold flog2. cbv zeta. fold lp lq. destruct (pow2_le p q (lp - lq)) eqn:E.
  - split; [exact E|exact B].
  - split; [exact A|]. replace (lp - lq - 1 + 1) with (lp - lq) by lia. exact E.
Qed.

Lemma flog2_unique (p q t : Z) : 0 < p -> 0 < q ->
  pow2_le p q t = true -> pow2_le p q (t + 1) = false -> flog2 p q = t.
Proof.
  intros Hp Hq H1 H2. destruct (flog2_spec p q Hp Hq) as [F1 F2].
  destruct (Z.lt_trichotomy (flog2 p q) t) as [L|[L|L]]; [|exact L|].
  - rewrite (pow2_le_anti p q (flog2 p q + 1) t) in F2 by (lia || exact H1). discriminate.
  - rewrite (pow2_le_anti p q (t + 1) (flog2 p q)) in H2 by (lia || exact F1). discriminate.
Qed.

Lemma pow2_le_scale (p q c t : Z) : 0 < p -> 0 < q -> 0 < c ->
  pow2_le (p * c) (q * c) t = pow2_le p q t.
Proof.
  intros Hp Hq Hc. apply eq_true_iff_eq.
  set (c' := Z.max 0 (- t)).
  rewrite (pow2_le_iff (p * c) (q * c) t c'), (pow2_le_iff p q t c') by lia.
  assert (P1 : 0 < 2 ^ (t + c')) by (apply Z.pow_pos_nonneg; lia).
  assert (P2 : 0 < 2 ^ c') by (apply Z.pow_pos_nonneg; lia).
  split; intros H; nia.
Qed.

Lemma flog2_scale (p q c : Z) : 0 < p -> 0 < q -> 0 < c -> flog2 (p * c) (q * c) = flog2 p q.
Proof.
  intros Hp Hq Hc. destruct (flog2_spec p q Hp Hq) as [F1 F2].
  apply flog2_unique; [nia|nia|rewrite pow2_le_scale; assumption..].
Qed.

Lemma round_q_scale (neg : bool) (p q c : Z) : 0 <= p -> 0 < q -> 0 < c ->
  round_q neg (p * c) (q * c) = round_q neg p q.
Proof.
  intros Hp Hq Hc. unfold round_q.
  destruct (Z.leb_spec p 0) as [Hp0|Hp0].
  - replace (p * c <=? 0) with true by (symmetry; apply Z.leb_le; nia). reflexivity.
  - replace (p * c <=? 0) with false by (symmetry; apply Z.leb_gt; nia).
    rewrite flog2_scale by lia.
    set (E := Z.max (flog2 p q - 52) (-1074)).
    assert (Hab : exists a b, 0 < b /\
      (if E <? 0 then p * c * 2 ^ (- E) else p * c) = a * c /\
      (if E <? 0 then q * c else q * c * 2 ^ E) = b * c /\
      (if E <? 0 then p * 2 ^ (- E) else p) = a /\
      (if E <? 0 then q else q * 2 ^ E) = b).
    { destruct (E <? 0) eqn:HE.
      - exists (p * 2 ^ (- E)), q. repeat split; try lia; ring.
      - apply Z.ltb_ge in HE. exists p, (q * 2 ^ E).
        assert (0 < 2 ^ E) by (apply Z.pow_pos_nonneg; lia). repeat split; try nia; ring. }
    destruct Hab as (a & b & Hb & -> & -> & -> & ->).
    rewrite Z.div_mul_cancel_r, Z.mul_mod_distr_r by lia.
    replace (b * c <? 2 * (a mod b * c)) with (b <? 2 * (a mod b))
      by (apply eq_true_iff_eq; rewrite !Z.ltb_lt; nia).
    replace (2 * (a mod b * c) =? b * c) with (2 * (a mod b) =? b)
      by (apply eq_true_iff_eq; rewrite !Z.eqb_eq; nia).
    reflexivity.
Qed.

Lemma dec_round_scale (neg : bool) (N x j : Z) : 0 <= N -> 0 <= j ->
  dec_round neg (N * 10 ^ j) (x - j) = dec_round neg N x.
Proof.
  intros HN Hj. unfold dec_round.
  destruct (Z.leb_spec 0 (x - j)); destruct (Z.leb_spec 0 x); try lia.
  - f_equal. rewrite <- Z.mul_assoc, <- Z.pow_add_r by lia. f_equal. f_equal. lia.
  - rewrite <- (round_q_scale neg (N * 10 ^ x) 1 (10 ^ (- (x - j)))) by
      (first [lia | apply Z.pow_pos_nonneg; lia
              | apply Z.mul_nonneg_nonneg; [lia|apply Z.pow_nonneg; lia]]).
    f_equal; [|ring]. rewrite <- Z.mul_assoc, <- Z.pow_add_r by lia. f_equal. f_equal. lia.
  - rewrite <- (round_q_scale neg N (10 ^ (- x)) (10 ^ j)) by
      (first [lia | apply Z.pow_pos_nonneg; lia]).
    f_equal. rewrite <- Z.pow_add_r by lia. f_equal. lia.
Qed.

Lemma round_q_sign (neg : bool) (p q : Z) : round_q neg p q = set_sign neg (round_q false p q).
Proof.
  unfold round_q.
  destruct (p <=? 0); [reflexivity|].
  repeat match goal with |- context [if ?b then _ else _] => destruct b end; reflexivity.
Qed.

Lemma dec_round_sign (neg : bool) (N x : Z) : dec_round neg N x = set_sign neg (dec_round false N x).
Proof. unfold dec_round. destruct (0 <=? x); apply round_q_sign. Qed.

Lemma round_q_exact (m e : Z) : 0 < m < 2 ^ 53 -> -1074 <= e <= 971 -> (2 ^ 52 <= m \/ e = -1074) ->
  round_q false (fst (dbl_frac m e)) (snd (dbl_frac m e)) = NFin false m e.
Proof.
  intros Hm He Hn.
  destruct (Z.log2_spec m ltac:(lia)) as [Ml Mh].
  assert (Hl : Z.log2 m < 53) by (apply Z.log2_lt_pow2; lia).
  assert (Hl2 : 52 <= Z.log2 m \/ e = -1074).
  { destruct Hn as [Hn|Hn]; [left|right; exact Hn].
    rewrite <- (Z.log2_pow2 52) by lia. apply Z.log2_le_mono, Hn. }
  assert (Lm := Z.log2_nonneg m).
  assert (Hpq : 0 < fst (dbl_frac m e) /\ 0 < snd (dbl_frac m e)).
  { unfold dbl_frac. destruct (Z.leb_spec 0 e); cbn [fst snd].
    - split; [apply Z.mul_pos_pos; [lia|apply Z.pow_pos_nonneg; lia]|lia].
    - split; [lia|apply Z.pow_pos_nonneg; lia]. }
  assert (Hf : flog2 (fst (dbl_frac m e)) (snd (dbl_frac m e)) = Z.log2 m + e).
  { apply flog2_unique; try lia.
    - set (c := Z.max 0 (- e)).
      rewrite (pow2_le_iff _ _ _ c) by lia. unfold dbl_frac.
      destruct (Z.leb_spec 0 e); cbn [fst snd].
      + replace c with 0 by lia. rewrite Z.add_0_r, Z.pow_0_r, Z.pow_add_r by lia.
        assert (0 < 2 ^ e) by (apply Z.pow_pos_nonneg; lia). nia.
      + replace c with (- e) by lia. replace (Z.log2 m + e + - e) with (Z.log2 m) by lia.
        rewrite <- Z.pow_add_r by lia. replace (- e + Z.log2 m) with (Z.log2 m + - e) by lia.
        rewrite Z.pow_add_r by lia. assert (0 < 2 ^ (- e)) by (apply Z.pow_pos_nonneg; lia). nia.
    - apply not_true_iff_false. set (c := Z.max 0 (- e)).
      rewrite (pow2_le_iff _ _ _ c) by lia. unfold dbl_frac.
      destruct (Z.leb_spec 0 e); cbn [fst snd].
      + replace c with 0 by lia. rewrite Z.add_0_r, Z.pow_0_r.
        replace (Z.log2 m + e + 1) with (Z.succ (Z.log2 m) + e) by lia.
        rewrite Z.pow_add_r by lia. assert (0 < 2 ^ e) by (apply Z.pow_pos_nonneg; lia). nia.
      + replace c with (- e) by lia. replace (Z.log2 m + e + 1 + - e) with (Z.succ (Z.log2 m)) by lia.
        assert (0 < 2 ^ (- e)) by (apply Z.pow_pos_nonneg; lia). nia. }
  unfold round_q. rewrite (proj2 (Z.leb_gt _ 0)) by lia. rewrite Hf.
  replace (Z.max (Z.log2 m + e - 52) (-1074)) with e by lia.
  assert (Hab : (if e <? 0 then fst (dbl_frac m e) * 2 ^ (- e) else fst (dbl_frac m e)) =
                m * (if e <? 0 then snd (dbl_frac m e) else snd (dbl_frac m e) * 2 ^ e)).
  { unfold dbl_frac. destruct (Z.ltb_spec e 0); destruct (Z.leb_spec 0 e); try lia; cbn [fst snd]; ring. }
  rewrite Hab. set (b := if e <? 0 then _ else _).
  assert (Hb : 0 < b).
  { unfold b. destruct (Z.ltb_spec e 0); [lia|]. apply Z.mul_pos_pos; [lia|apply Z.pow_pos_nonneg; lia]. }
  rewrite Z.div_mul, Z_mod_mult by lia.
  replace (b <? 2 * 0) with false by (symmetry; apply Z.ltb_ge; lia).
  replace (2 * 0 =? b) with false by (symmetry; apply Z.eqb_neq; lia).
  cbn [orb andb].
  rewrite (proj2 (Z.eqb_neq m 0)) by lia. rewrite (proj2 (Z.eqb_neq m (2 ^ 53))) by lia.
  rewrite (proj2 (Z.ltb_ge 971 e)) by lia. reflexivity.
Qed.

Lemma exact_dec_round (m e : Z) : 0 < m < 2 ^ 53 -> -1074 <= e <= 971 -> (2 ^ 52 <= m \/ e = -1074) ->
  dec_round false (fst (exact_dec m e)) (snd (exact_dec m e)) = NFin false m e.
Proof.
  intros H1 H2 H3. rewrite <- (round_q_exact m e H1 H2 H3).
  unfold exact_dec, dec_round, dbl_frac.
  destruct (Z.leb_spec 0 e); cbn [fst snd].
  - rewrite Z.leb_refl. cbn. rewrite Z.mul_1_r. reflexivity.
  - replace (0 <=? e) with false by (symmetry; apply Z.leb_gt; lia).
    replace (10 ^ (- e)) with (2 ^ (- e) * 5 ^ (- e)) by (rewrite <- Z.pow_mul_l; reflexivity).
    apply round_q_scale; [lia|apply Z.pow_pos_nonneg; lia|apply Z.pow_pos_nonneg; lia].
Qed.

Lemma num_eqb_eq (x y : num) : num_eqb x y = true -> x = y.
Proof.
  destruct x as [n1 m1 e1|n1], y as [n2 m2 e2|n2]; cbn; try discriminate.
  - intros H. apply andb_true_iff in H as [H H3]. apply andb_true_iff in H as [H1 H2].
    apply Bool.eqb_prop in H1. apply Z.eqb_eq in H2. apply Z.eqb_eq in H3. subst. reflexivity.
  - intros H. apply Bool.eqb_prop in H. subst. reflexivity.
Qed.

Lemma pick_ok (m e k s x : Z) : pick m e k = Some (s, x) -> dec_round false s x = NFin false m e.
Proof.
  unfold pick. destruct (dbl_frac m e) as [p q].
  set (x0 := flog10 p q + 1 - k).
  destruct (if 0 <=? x0 then _ else _) as [A B].
  destruct (A mod B =? 0).
  - destruct (num_eqb (dec_round false (A / B) x0) (NFin false m e)) eqn:E; [|discriminate].
    intros H. injection H as <- <-. apply num_eqb_eq, E.
  - destruct (num_eqb (dec_round false (A / B) x0) (NFin false m e)) eqn:E1;
    destruct (num_eqb (dec_round false (A / B + 1) x0) (NFin false m e)) eqn:E2;
    try discriminate; [destruct (_ || _)|..]; intros H; injection H as <- <-;
    apply num_eqb_eq; assumption.
Qed.

Lemma pick_from_ok (f : nat) (m e k s x : Z) :
  pick_from f m e k = Some (s, x) -> dec_round false s x = NFin false m e.
Proof.
  induction f as [|f IH] in k |- *; cbn; [discriminate|].
  destruct (pick m e k) as [[s' x']|] eqn:E.
  - intros H. injection H as <- <-. eapply pick_ok, E.
  - apply IH.
Qed.

Lemma round_q_zero (neg : bool) (p q : Z) : p <= 0 -> round_q neg p q = NFin neg 0 0.
Proof. intros H. unfold round_q. rewrite (proj2 (Z.leb_le p 0) H). reflexivity. Qed.

Lemma dec_round_pos (N x m e : Z) : 0 < m -> dec_round false N x = NFin false m e -> 0 < N.
Proof.
  intros Hm H. destruct (Z.ltb_spec 0 N) as [|HN]; [assumption|exfalso].
  unfold dec_round in H. destruct (0 <=? x).
  - rewrite round_q_zero in H; [injection H; lia|].
    destruct (Z.leb_spec 0 x); [|apply Z.mul_nonpos_nonneg; [lia|apply Z.pow_nonneg; lia]].
    apply Z.mul_nonpos_nonneg; [lia|apply Z.pow_nonneg; lia].
  - rewrite round_q_zero in H by lia. injection H; lia.
Qed.

Lemma strip_zeros_val (f : nat) (m e : Z) :
  exists j, 0 <= j /\ m = fst (strip_zeros f m e) * 10 ^ j /\ snd (strip_zeros f m e) = e + j.
Proof.
  induction f as [|f IH] in m, e |- *; cbn [strip_zeros].
  - exists 0. cbn. split; [lia|]. split; [ring|ring].
  - destruct (Z.eqb_spec (m mod 10) 0) as [H0|H0].
    + destruct (IH (m / 10) (e + 1)) as (j & Hj & Hm & He).
      exists (j + 1). split; [lia|]. split.
      * rewrite (Z.div_mod m 10) at 1 by lia. rewrite H0, Hm at 1.
        rewrite Z.pow_add_r by lia. ring.
      * rewrite He. ring.
    + exists 0. cbn. split; [lia|]. split; [ring|ring].
Qed.

Lemma normalize_val (s x : Z) : 0 < s ->
  exists j, 0 <= j /\ s = fst (normalize s x) * 10 ^ j /\ snd (normalize s x) = x + j.
Proof.
  intros Hs. unfold normalize. rewrite (proj2 (Z.eqb_neq s 0)) by lia. apply strip_zeros_val.
Qed.

Lemma shortest_ok (m e : Z) : 0 < m < 2 ^ 53 -> -1074 <= e <= 971 -> (2 ^ 52 <= m \/ e = -1074) ->
  0 < fst (shortest m e) /\ dec_round false (fst (shortest m e)) (snd (shortest m e)) = NFin false m e.
Proof.
  intros H1 H2 H3.
  assert (Hv : exists s x, (match pick_from 17 m e 1 with Some r => r | None => exact_dec m e end) = (s, x) /\
                           dec_round false s x = NFin false m e).
  { destruct (pick_from 17 m e 1) as [[s x]|] eqn:E.
    - exists s, x. split; [reflexivity|]. eapply pick_from_ok, E.
    - exists (fst (exact_dec m e)), (snd (exact_dec m e)). split; [destruct (exact_dec m e); reflexivity|].
      apply exact_dec_round; assumption. }
  destruct Hv as (s & x & Hsx & Hd).
  assert (Hs : 0 < s) by (eapply dec_round_pos; [|exact Hd]; lia).
  unfold shortest. rewrite Hsx.
  destruct (normalize_val s x Hs) as (j & Hj & Es & Ex).
  assert (Ha : 0 < fst (normalize s x)).
  { destruct (Z.lt_trichotomy (fst (normalize s x)) 0) as [L|[L|L]]; [|rewrite L in Es|]; nia. }
  cbv beta iota. destruct (normalize s x) as [a b]. cbn [fst snd] in *.
  split; [exact Ha|]. rewrite <- Hd. subst s. replace x with (b - j) by lia.
  symmetry. apply dec_round_scale; lia.
Qed.

Lemma round_q_ok (neg : bool) (p q : Z) : 0 < q ->
  match round_q neg p q with NFin _ m e => num_ok m e | NInf _ => True end.
Proof.
  intros Hq. unfold round_q. destruct (Z.leb_spec p 0) as [Hp|Hp]; [left; lia|].
  destruct (flog2_spec p q Hp Hq) as [F1 F2].
  set (f := flog2 p q) in *. set (E := Z.max (f - 52) (-1074)).
  (* the scaled numerator and denominator *)
  assert (Hab : exists a b, 0 < b /\
            (if E <? 0 then p * 2 ^ (- E) else p) = a /\ (if E <? 0 then q else q * 2 ^ E) = b /\
            0 <= a /\ a < 2 ^ 53 * b /\ (E = f - 52 -> 2 ^ 52 * b <= a)).
  { assert (G : pow2_le p q (E + 53) = false).
    { destruct (pow2_le p q (E + 53)) eqn:G; [|reflexivity].
      rewrite (pow2_le_anti p q (f + 1) (E + 53)) in F2 by (lia || exact G). discriminate. }
    destruct (Z.ltb_spec E 0) as [HE|HE].
    - exists (p * 2 ^ (- E)), q. split; [lia|]. split; [reflexivity|]. split; [reflexivity|].
      split; [apply Z.mul_nonneg_nonneg; [lia|apply Z.pow_nonneg; lia]|].
      split.
      + apply not_true_iff_false in G. rewrite (pow2_le_iff p q _ (- E)) in G by lia.
        replace (E + 53 + - E) with 53 in G by lia. nia.
      + intros Hf. rewrite (pow2_le_iff p q _ (- E)) in F1 by lia.
        replace (f + - E) with 52 in F1 by lia. lia.
    - assert (P : 0 < 2 ^ E) by (apply Z.pow_pos_nonneg; lia).
      exists p, (q * 2 ^ E). split; [nia|]. split; [reflexivity|]. split; [reflexivity|].
      split; [lia|].
      split.
      + apply not_true_iff_false in G. rewrite (pow2_le_iff p q _ 0) in G by lia.
        rewrite Z.add_0_r, Z.pow_0_r, Z.pow_add_r in G by lia. lia.
      + intros Hf. rewrite (pow2_le_iff p q _ 0) in F1 by lia.
        rewrite Z.add_0_r, Z.pow_0_r in F1. replace f with (E + 52) in F1 by lia.
        rewrite Z.pow_add_r in F1 by lia. lia. }
  destruct Hab as (a & b & Hb & -> & -> & Ha & Hhi & Hlo).
  assert (HN : 0 <= a / b < 2 ^ 53).
  { split; [apply Z.div_pos; lia|]. apply Z.div_lt_upper_bound; [lia|]. rewrite Z.mul_comm; exact Hhi. }
  assert (HN2 : E = f - 52 -> 2 ^ 52 <= a / b).
  { intros Hf. apply Z.div_le_lower_bound; [lia|]. specialize (Hlo Hf). lia. }
  assert (HE : -1074 <= E) by lia.
  set (N := a / b) in *.
  set (M := if _ || _ then N + 1 else N).
  assert (HM : M = N \/ M = N + 1) by (unfold M; destruct (_ || _); [right|left]; reflexivity).
  destruct (Z.eqb_spec M 0) as [H0|H0]; [left; lia|].
  destruct (Z.eqb_spec M (2 ^ 53)) as [H53|H53].
  - destruct (Z.ltb_spec 971 (E + 1)); [exact I|]. right. lia.
  - destruct (Z.ltb_spec 971 E); [exact I|]. right.
    split; [lia|]. split; [lia|].
    destruct (Z.eq_dec E (-1074)) as [->|HE']; [right; reflexivity|left].
    assert (E = f - 52) by lia. specialize (HN2 H1). lia.
Qed.

(* ================================================================= *)
(** ** Round trip: JSON.parse after JSON.stringify *)

Lemma wf_arr (l : list json) : wf (JArr l) <-> Forall wf l.
Proof.
  cbn [wf]. induction l as [|x r IH].
  - split; auto.
  - rewrite Forall_cons_iff, <- IH. reflexivity.
Qed.

Lemma wf_obj (l : list (jsstr * json)) :
  wf (JObj l) <-> StronglySorted key_before (map fst l) /\
                  Forall (fun kv => units_ok (fst kv) /\ wf (snd kv)) l.
Proof.
  cbn [wf]. apply and_iff_compat_l. induction l as [|[k x] r IH].
  - split; auto.
  - rewrite Forall_cons_iff, <- IH. reflexivity.
Qed.

Lemma ser_arr (gap ind : jsstr) (l : list json) :
  ser gap ind (JArr l) = wrap 91 93 gap ind (ind ++ gap) (map (ser gap (ind ++ gap)) l).
Proof.
  reflexivity.
Qed.

Lemma ser_obj (gap ind : jsstr) (l : list (jsstr * json)) :
  ser gap ind (JObj l) = wrap 123 125 gap ind (ind ++ gap) (map (member_text gap (ind ++ gap)) l).
Proof.
  cbn [ser]. f_equal. induction l as [|[k x] r IH]; [reflexivity|]. cbn. f_equal. exact IH.
Qed.


Lemma span_digits_app (ds t : jsstr) : digits ds -> nd t -> span_digits (ds ++ t) = (ds, t).
Proof.
  intros Hd Ht. induction Hd as [|c r Hc Hr IH]; cbn.
  - destruct t as [|c t]; cbn in *; [reflexivity|]. rewrite Ht. reflexivity.
  - rewrite Hc, IH. reflexivity.
Qed.

Lemma pint_pos (d : Z) (ds t : jsstr) : 49 <= d <= 57 -> digits ds -> nd t ->
  pint (d :: ds ++ t) = Some (d :: ds, t).
Proof.
  intros Hd Hds Ht. unfold pint.
  rewrite (proj2 (Z.eqb_neq d 48)) by lia.
  replace ((49 <=? d) && (d <=? 57)) with true
    by (symmetry; apply andb_true_intro; split; apply Z.leb_le; lia).
  rewrite span_digits_app by assumption. reflexivity.
Qed.

Lemma pfrac_none (t : jsstr) : match t with [] => True | c :: _ => c <> 46 end ->
  pfrac t = Some ([], t).
Proof.
  destruct t as [|c t]; [reflexivity|]. intros H. cbn.
  rewrite (proj2 (Z.eqb_neq c 46)) by exact H. reflexivity.
Qed.

Lemma pfrac_some (F t : jsstr) : F <> [] -> digits F -> nd t ->
  pfrac (46 :: F ++ t) = Some (F, t).
Proof.
  intros HF Hd Ht. cbn. rewrite span_digits_app by assumption.
  destruct F; [congruence|reflexivity].
Qed.

Lemma pexp_none (t : jsstr) : match t with [] => True | c :: _ => c <> 101 /\ c <> 69 end ->
  pexp t = Some (0, t).
Proof.
  destruct t as [|c t]; [reflexivity|]. intros [H1 H2]. cbn.
  rewrite (proj2 (Z.eqb_neq c 101)), (proj2 (Z.eqb_neq c 69)) by assumption.
  reflexivity.
Qed.

Lemma ztext_digits (a : Z) : 0 <= a -> digits (ztext a) /\ digits_val (ztext a) = a.
Proof.
  intros Ha. destruct (Z.eq_dec a 0) as [->|Hnz].
  - split; [repeat constructor|reflexivity].
  - destruct (ztext_props a) as (d & r & E & Hd & Hr & Hv); [lia|].
    split; [|exact Hv]. rewrite E. constructor; [|exact Hr].
    unfold is_digit. apply andb_true_intro; split; apply Z.leb_le; lia.
Qed.

Lemma pexp_some (x : Z) (t : jsstr) : nd t ->
  pexp (101 :: (if x <? 0 then 45 else 43) :: ztext (Z.abs x) ++ t) = Some (x, t).
Proof.
  intros Ht. destruct (ztext_digits (Z.abs x)) as [Hd Hv]; [lia|].
  assert (Hne : ztext (Z.abs x) <> []).
  { destruct (Z.eq_dec x 0) as [->|Hx]; [discriminate|].
    destruct (ztext_props (Z.abs x)) as (d & r & E & _); [lia|]. rewrite E. discriminate. }
  remember (ztext (Z.abs x)) as T eqn:ET.
  unfold pexp. cbn -[span_digits].
  destruct (Z.ltb_spec x 0); cbn -[span_digits Z.mul];
  rewrite span_digits_app by assumption;
  (destruct T as [|z zs]; [congruence|]); rewrite Hv; f_equal; f_equal; lia.
Qed.


Lemma pnumber_form (neg : bool) (I F E : jsstr) (x : Z) (t : jsstr) :
  int_part I -> digits F ->
  (E = [] /\ x = 0 \/ E = exp_text x) ->
  num_end t ->
  pnumber ((if neg then [45] else []) ++ I ++ frac_text F ++ E ++ t)
  = Some (dec_round neg (digits_val (I ++ F)) (x - Z.of_nat (List.length F)), t).
Proof.
  intros HI HF HE Ht.
  assert (Hnd : nd (frac_text F ++ E ++ t)).
  { destruct F; cbn; [|reflexivity].
    destruct HE as [[-> ->] | ->]; [|reflexivity].
    destruct t; cbn in *; tauto. }
  assert (Hpi : pint (I ++ frac_text F ++ E ++ t) = Some (I, frac_text F ++ E ++ t)).
  { destruct HI as [-> | (d & ds & -> & Hd & Hds)]; [reflexivity|].
    cbn [app]. rewrite pint_pos by assumption. reflexivity. }
  assert (Hne : I <> []) by (destruct HI as [-> | (d & ds & -> & _)]; discriminate).
  assert (Hh : exists c r, I ++ frac_text F ++ E ++ t = c :: r /\ c <> 45).
  { destruct HI as [-> | (d & ds & -> & Hd & _)]; cbn; eexists _, _; split; try reflexivity; lia. }
  assert (Hs : pnumber ((if neg then [45] else []) ++ I ++ frac_text F ++ E ++ t) =
    match pint (I ++ frac_text F ++ E ++ t) with
      | None => None
      | Some (ip, s2) => match pfrac s2 with
          | None => None
          | Some (fd, s3) => match pexp s3 with
              | None => None
              | Some (x, s4) => Some (dec_round neg (digits_val (ip ++ fd)) (x - Z.of_nat (List.length fd)), s4)
              end end end).
  { destruct neg.
    - reflexivity.
    - destruct Hh as (c & r & Hc & Hc45). unfold pnumber.
      change ((if false then [45] else []) ++ I ++ frac_text F ++ E ++ t)
        with (I ++ frac_text F ++ E ++ t).
      rewrite Hc. cbn [app]. cbv beta iota. rewrite (proj2 (Z.eqb_neq c 45)) by exact Hc45.
      reflexivity. }
  rewrite Hs, Hpi.
  assert (Hpf : pfrac (frac_text F ++ E ++ t) = Some (F, E ++ t)).
  { destruct F as [|f fs].
    - apply pfrac_none. destruct HE as [[-> ->] | ->]; [|cbn; lia].
      destruct t; cbn in *; tauto.
    - apply pfrac_some; [discriminate|exact HF|].
      destruct HE as [[-> ->] | ->]; [|reflexivity]. destruct t; cbn in *; tauto. }
  rewrite Hpf.
  assert (Hpe : pexp (E ++ t) = Some (x, t)).
  { destruct HE as [[-> ->] | ->].
    - apply pexp_none. destruct t; cbn in *; tauto.
    - apply pexp_some. destruct t; cbn in *; tauto. }
  rewrite Hpe. reflexivity.
Qed.

Lemma frac_text_ne (F : jsstr) : F <> [] -> frac_text F = 46 :: F.
Proof. destruct F; [congruence|reflexivity]. Qed.

Lemma Forall_firstn' {A} (P : A -> Prop) (n : nat) (l : list A) :
  Forall P l -> Forall P (firstn n l).
Proof.
  intros H. induction H as [|x l Hx Hl IH] in n |- *; destruct n; cbn; auto.
Qed.

Lemma Forall_skipn' {A} (P : A -> Prop) (n : nat) (l : list A) :
  Forall P l -> Forall P (skipn n l).
Proof.
  intros H. induction H as [|x l Hx Hl IH] in n |- *; destruct n; cbn; auto.
Qed.

Lemma digits_repeat (n : nat) : digits (repeat 48 n).
Proof. induction n; constructor; auto. Qed.

Lemma digits_val_repeat (n : nat) : digits_val (repeat 48 n) = 0.
Proof. rewrite <- (app_nil_r (repeat 48 n)), digits_val_zeros. reflexivity. Qed.

Lemma pos_num_text_form (a e : Z) : 0 < a ->
  exists I F E x j, pos_num_text a e = I ++ frac_text F ++ E /\ int_part I /\ digits F /\
    (E = [] /\ x = 0 \/ E = exp_text x) /\ 0 <= j /\
    digits_val (I ++ F) = a * 10 ^ j /\ x - Z.of_nat (List.length F) = e - j.
Proof.
  intros Ha.
  destruct (ztext_props a Ha) as (d & r & ED & Hd & Hr & Hv).
  assert (Hdd : is_digit d = true)
    by (unfold is_digit; apply andb_true_intro; split; apply Z.leb_le; lia).
  assert (HD : digits (ztext a)) by (rewrite ED; constructor; assumption).
  unfold pos_num_text.
  remember (ztext a) as D eqn:ED0.
  remember (Z.of_nat (List.length D)) as k eqn:Ek.
  assert (Hk : k = Z.of_nat (S (List.length r))) by (rewrite Ek, ED; reflexivity).
  remember (e + k) as n eqn:En.
  destruct ((k <=? n) && (n <=? 21)) eqn:C1.
  - apply andb_true_iff in C1. destruct C1 as [C1 _]. apply Z.leb_le in C1.
    exists (D ++ repeat 48 (Z.to_nat (n - k))), [], [], 0, e. repeat split.
    + cbn [frac_text app]. rewrite !app_nil_r. reflexivity.
    + right. exists d, (r ++ repeat 48 (Z.to_nat (n - k))). rewrite ED. repeat split; try lia.
      apply Forall_app. split; [exact Hr|apply digits_repeat].
    + constructor.
    + left. split; reflexivity.
    + lia.
    + rewrite app_nil_r, digits_val_app, digits_val_repeat, repeat_length, Hv.
      replace (Z.of_nat (Z.to_nat (n - k))) with e by lia. ring.
    + cbn [List.length Z.of_nat]. lia.
  - destruct ((0 <? n) && (n <=? 21)) eqn:C2.
    + apply andb_true_iff in C2. destruct C2 as [C2a C2b].
      apply Z.ltb_lt in C2a. apply Z.leb_le in C2b.
      assert (Hkn : n < k).
      { destruct (Z.lt_ge_cases n k) as [H|H]; [exact H|].
        apply andb_false_iff in C1. destruct C1 as [C1|C1]; apply Z.leb_gt in C1; lia. }
      remember (Z.to_nat n) as N eqn:EN0.
      assert (HsN : skipn N D <> []).
      { intros He. apply (f_equal (@List.length Z)) in He.
        rewrite length_skipn in He. cbn in He. lia. }
      exists (firstn N D), (skipn N D), [], 0, 0. repeat split.
      * rewrite frac_text_ne by exact HsN. rewrite app_nil_r. reflexivity.
      * right. destruct N as [|N'] eqn:EN; [lia|].
        rewrite ED. cbn [firstn]. exists d, (firstn N' r). repeat split; try lia.
        apply Forall_firstn', Hr.
      * apply Forall_skipn', HD.
      * left. split; reflexivity.
      * lia.
      * rewrite firstn_skipn, Hv. ring.
      * rewrite length_skipn. lia.
    + destruct ((-6 <? n) && (n <=? 0)) eqn:C3.
      * apply andb_true_iff in C3. destruct C3 as [C3a C3b].
        apply Z.ltb_lt in C3a. apply Z.leb_le in C3b.
        assert (HF : repeat 48 (Z.to_nat (- n)) ++ D <> [])
          by (rewrite ED; intros He; apply app_eq_nil in He; destruct He; discriminate).
        exists [48], (repeat 48 (Z.to_nat (- n)) ++ D), [], 0, 0. repeat split.
        -- rewrite frac_text_ne by exact HF. rewrite app_nil_r. reflexivity.
        -- left. reflexivity.
        -- apply Forall_app. split; [apply digits_repeat|exact HD].
        -- left. split; reflexivity.
        -- lia.
        -- change ([48] ++ repeat 48 (Z.to_nat (- n)) ++ D) with (repeat 48 (S (Z.to_nat (- n))) ++ D).
           rewrite digits_val_zeros, Hv. ring.
        -- rewrite length_app, repeat_length, Nat2Z.inj_add, <- Ek. lia.
      * exists [d], r, (exp_text (n - 1)), (n - 1), 0.
        destruct r as [|r0 rs]; rewrite ED; repeat split.
        -- right. exists d, []. repeat split; try lia. constructor.
        -- constructor.
        -- right. reflexivity.
        -- lia.
        -- change ([d] ++ []) with [d]. rewrite <- ED, Hv. ring.
        -- cbn in Hk. cbn [List.length Z.of_nat]. lia.
        -- right. exists d, []. repeat split; try lia. constructor.
        -- exact Hr.
        -- right. reflexivity.
        -- lia.
        -- change ([d] ++ r0 :: rs) with (d :: r0 :: rs). rewrite <- ED, Hv. ring.
        -- rewrite En, Hk. cbn [List.length]. lia.
Qed.

(** The text of a canonical double parses back to it; a zero of either sign
    comes back as [+0]. *)
Lemma num_text_fin (neg : bool) (m e : Z) (t : jsstr) : num_ok m e -> num_end t ->
  pnumber (num_text (NFin neg m e) ++ t) =
  Some (if m =? 0 then NFin false 0 0 else NFin neg m e, t).
Proof.
  intros [[-> ->] | (Hm & He & Hn)] Ht.
  - exact (pnumber_form false [48] [] [] 0 t (or_introl eq_refl) (Forall_nil _)
             (or_introl (conj eq_refl eq_refl)) Ht).
  - unfold num_text. rewrite (proj2 (Z.eqb_neq m 0)) by lia.
    destruct (shortest_ok m e) as [Hs Hd]; [lia|lia|exact Hn|].
    destruct (shortest m e) as [s q]. cbn [fst snd] in Hs, Hd. cbv beta iota.
    destruct (pos_num_text_form s q Hs) as (I & F & E & x & j & ET & HI & HF & HE & Hj & Hv & Hx).
    rewrite ET, <- !app_assoc, (pnumber_form neg I F E x) by assumption.
    rewrite Hv, Hx, dec_round_scale, dec_round_sign, Hd by lia. reflexivity.
Qed.

Lemma pos_num_text_head (a e : Z) :
  exists c r, pos_num_text a e = c :: r /\ 48 <= c <= 57.
Proof.
  assert (ED : exists d r, ztext a = d :: r /\ 48 <= d <= 57).
  { destruct (Z.ltb_spec 0 a) as [Ha|Ha].
    - destruct (ztext_props a Ha) as (d & r & ED & Hd & _). exists d, r. split; [exact ED|lia].
    - exists 48, []. split; [|lia]. unfold ztext, zdigits. destruct a; [reflexivity|lia|reflexivity]. }
  destruct ED as (d & r & ED & Hd).
  unfold pos_num_text. rewrite ED.
  remember (Z.of_nat (List.length (d :: r))) as k eqn:Ek.
  remember (e + k) as n eqn:En.
  destruct ((k <=? n) && (n <=? 21)) eqn:C1; [eexists _, _; split; [reflexivity|lia]|].
  destruct ((0 <? n) && (n <=? 21)) eqn:C2.
  - apply andb_true_iff in C2. destruct C2 as [C2 _]. apply Z.ltb_lt in C2.
    destruct (Z.to_nat n) eqn:EN; [lia|].
    eexists _, _. split; [reflexivity|lia].
  - destruct ((-6 <? n) && (n <=? 0)) eqn:C3; [eexists _, _; split; [reflexivity|lia]|].
    destruct r; eexists _, _; (split; [reflexivity|lia]).
Qed.

Lemma num_text_head (neg : bool) (m e : Z) :
  exists c r, num_text (NFin neg m e) = c :: r /\ (c = 45 \/ 48 <= c <= 57).
Proof.
  unfold num_text. destruct (Z.eqb_spec m 0) as [->|Hm].
  - exists 48, []. split; [reflexivity|lia].
  - destruct neg.
    + eexists _, _. split; [reflexivity|lia].
    + destruct (shortest m e) as [s q].
      destruct (pos_num_text_head s q) as (c & r & E & Hc).
      exists c, r. cbv beta iota. rewrite E. split; [reflexivity|lia].
Qed.

Lemma is_ws_ge (c : Z) : 33 <= c -> is_ws c = false.
Proof.
  intros H. unfold is_ws.
  rewrite (proj2 (Z.eqb_neq c 9)), (proj2 (Z.eqb_neq c 10)),
          (proj2 (Z.eqb_neq c 13)), (proj2 (Z.eqb_neq c 32)) by lia.
  reflexivity.
Qed.

Lemma is_ws_le (c : Z) : is_ws c = true -> 9 <= c <= 32.
Proof.
  unfold is_ws. intros H.
  repeat (apply orb_true_iff in H; destruct H as [H|H]); apply Z.eqb_eq in H; lia.
Qed.

Lemma ser_head (gap ind : jsstr) (v : json) :
  exists c r, ser gap ind v = c :: r /\ 34 <= c <= 123 /\ c <> 44 /\ c <> 93.
Proof.
  destruct v as [|b|[neg m e|b]|s|l|l].
  - eexists _, _. split; [reflexivity|cbn; lia].
  - destruct b; eexists _, _; (split; [reflexivity|cbn; lia]).
  - destruct (num_text_head neg m e) as (c & r & E & Hc).
    exists c, r. split; [exact E|lia].
  - eexists _, _. split; [reflexivity|cbn; lia].
  - eexists _, _. split; [reflexivity|cbn; lia].
  - rewrite ser_arr. unfold wrap. destruct (map _ l); [|destruct gap];
      (eexists _, _; split; [reflexivity|cbn; lia]).
  - rewrite ser_obj. unfold wrap. destruct (map _ l); [|destruct gap];
      (eexists _, _; split; [reflexivity|cbn; lia]).
Qed.

Lemma skip_ws_ws (w s : jsstr) : ws w -> skip_ws (w ++ s) = skip_ws s.
Proof.
  induction 1 as [|c w Hc Hw IH]; [reflexivity|]. cbn [app skip_ws]. rewrite Hc. exact IH.
Qed.

Lemma skip_ws_ser (gap ind : jsstr) (v : json) (t : jsstr) :
  skip_ws (ser gap ind v ++ t) = ser gap ind v ++ t.
Proof.
  destruct (ser_head gap ind v) as (c & r & E & Hc & _). rewrite E.
  cbn [app skip_ws]. rewrite is_ws_ge by lia. reflexivity.
Qed.

Lemma num_end_ws (w : jsstr) (c : Z) (r : jsstr) :
  ws w -> c = 44 \/ c = 93 \/ c = 125 -> num_end (w ++ c :: r).
Proof.
  intros Hw Hc. destruct Hw as [|x w Hx _]; cbn [app num_end].
  - destruct Hc as [->|[->| ->]]; cbn; (split; [reflexivity|lia]).
  - apply is_ws_le in Hx. unfold is_digit.
    rewrite (proj2 (Z.leb_gt 48 x)) by lia. split; [reflexivity|lia].
Qed.

Lemma ws_app (a b : jsstr) : ws a -> ws b -> ws (a ++ b).
Proof. intros. apply Forall_app. split; assumption. Qed.

Lemma join_cons2 (sep p q : jsstr) (r : list jsstr) :
  join sep (p :: q :: r) = p ++ sep ++ join sep (q :: r).
Proof. unfold join. cbn [map List.concat]. rewrite <- !app_assoc. reflexivity. Qed.

Lemma join_one (sep p : jsstr) : join sep [p] = p.
Proof. unfold join. cbn. apply app_nil_r. Qed.

Lemma str_eqb_sym (a b : jsstr) : str_eqb a b = str_eqb b a.
Proof.
  induction a as [|x a IH] in b |- *; destruct b as [|y b]; cbn; try reflexivity.
  rewrite Z.eqb_sym, IH. reflexivity.
Qed.

Lemma ssorted_before {A} (R : A -> A -> Prop) (a c : list A) (b : A) :
  StronglySorted R (a ++ b :: c) -> Forall (fun x => R x b) a.
Proof.
  induction a as [|x a IH]; intros H; [constructor|].
  apply StronglySorted_inv in H. destruct H as [H1 H2].
  constructor; [|apply IH, H1].
  rewrite Forall_forall in H2. apply H2, in_or_app. right. left. reflexivity.
Qed.

Lemma obj_insert_idx_last (i : Z) (k : jsstr) (v : json) (acc : list (jsstr * json)) :
  Forall (fun kv => exists j, idx (fst kv) = Some j /\ j < i) acc ->
  obj_insert_idx i k v acc = acc ++ [(k, v)].
Proof.
  induction 1 as [|[k' v'] acc (j & Hj & Hlt) _ IH]; [reflexivity|].
  cbn [obj_insert_idx fst] in *. rewrite Hj.
  rewrite (proj2 (Z.ltb_ge i j)) by lia. rewrite IH. reflexivity.
Qed.

Lemma obj_set_last (k : jsstr) (v : json) (acc : list (jsstr * json)) :
  Forall (fun k' => key_before k' k) (map fst acc) ->
  obj_set k v acc = acc ++ [(k, v)].
Proof.
  intros H. apply Forall_map in H.
  assert (Hh : obj_has k acc = false).
  { unfold obj_has. induction H as [|[k' v'] acc [Hne _] _ IH]; [reflexivity|].
    cbn [existsb fst] in *. rewrite str_eqb_sym, Hne. exact IH. }
  unfold obj_set. rewrite Hh. destruct (idx k) as [i|] eqn:Ei; [|reflexivity].
  apply obj_insert_idx_last. eapply Forall_impl; [|exact H].
  intros [k' v'] [_ Hb]. apply Hb, Ei.
Qed.


Lemma pelems_ser (gap ind' : jsstr) (l : list json) (acc : list json) (w w' : jsstr)
  (f : nat) (rest : jsstr) :
  l <> [] -> ws w -> ws w' -> Forall (rt_at gap ind') l ->
  (list_sum (map (fun x => S (size x)) l) < f)%nat ->
  pelems f acc (join (44 :: w) (map (ser gap ind') l) ++ w' ++ 93 :: rest)
  = Some (JArr (acc ++ map reparsed l), rest).
Proof.
  intros Hne Hw Hw' Hl. induction Hl as [|x r Hx Hr IH] in acc, f, Hne |- *; [congruence|].
  intros Hf. destruct f as [|f]; [cbn in Hf; lia|]. cbn [pelems].
  destruct r as [|y r'].
  - cbn [map]. rewrite join_one.
    rewrite Hx by (try apply num_end_ws; auto; cbn in Hf; lia).
    rewrite skip_ws_ws by exact Hw'. cbn [skip_ws is_ws orb Z.eqb Pos.eqb].
    reflexivity.
  - cbn [map]. rewrite join_cons2, <- !app_assoc.
    rewrite Hx by ((cbn [num_end app]; split; [reflexivity|lia]) || (cbn in Hf; lia)).
    cbn [app skip_ws is_ws orb Z.eqb Pos.eqb].
    rewrite skip_ws_ws by exact Hw.
    change (ser gap ind' y :: map (ser gap ind') r') with (map (ser gap ind') (y :: r')).
    destruct (ser_head gap ind' y) as (c & s & E & _).
    replace (skip_ws (join (44 :: w) (map (ser gap ind') (y :: r')) ++ w' ++ 93 :: rest))
      with (join (44 :: w) (map (ser gap ind') (y :: r')) ++ w' ++ 93 :: rest).
    + rewrite IH by (try discriminate; cbn in Hf |- *; lia).
      rewrite <- app_assoc. reflexivity.
    + destruct r' as [|z r'']; cbn [map]; [rewrite join_one|rewrite join_cons2, <- !app_assoc];
        rewrite skip_ws_ser; reflexivity.
Qed.

Lemma ws_sp (gap : jsstr) : ws (match gap with [] => [] | _ => [32] end).
Proof. destruct gap; repeat constructor. Qed.

Lemma pmembers_step (gap ind' k : jsstr) (x : json) (acc : list (jsstr * json))
  (f : nat) (T : jsstr) :
  units_ok k -> rt_at gap ind' x -> num_end T -> (size x < f)%nat ->
  pmembers (S f) acc (member_text gap ind' (k, x) ++ T) =
  match skip_ws T with
  | c :: T' => if c =? 44 then pmembers f (obj_set k (reparsed x) acc) (skip_ws T')
               else if c =? 125 then Some (JObj (obj_set k (reparsed x) acc), T')
               else None
  | [] => None
  end.
Proof.
  intros Hk Hx HT Hf. unfold member_text. cbn [fst snd].
  remember (match gap with [] => [] | _ => [32] end) as sp eqn:Esp.
  assert (Hsp : ws sp) by (subst sp; apply ws_sp).
  replace ((quote k ++ [58] ++ sp ++ ser gap ind' x) ++ T)
    with (34 :: esc_all k ++ 34 :: 58 :: (sp ++ ser gap ind' x ++ T))
    by (unfold quote; cbn [app]; rewrite <- !app_assoc; cbn [app]; rewrite <- ?app_assoc; reflexivity).
  cbn [pmembers Z.eqb Pos.eqb].
  rewrite pstr_esc_all by exact Hk.
  cbn [skip_ws is_ws orb Z.eqb Pos.eqb].
  rewrite skip_ws_ws, skip_ws_ser, Hx by assumption.
  reflexivity.
Qed.


Lemma pmembers_ser (gap ind' : jsstr) (l acc : list (jsstr * json)) (w w' : jsstr)
  (f : nat) (rest : jsstr) :
  l <> [] -> ws w -> ws w' -> Forall (rt_member gap ind') l ->
  StronglySorted key_before (map fst acc ++ map fst l) ->
  (list_sum (map (fun kv => S (size (snd kv))) l) < f)%nat ->
  pmembers f acc (join (44 :: w) (map (member_text gap ind') l) ++ w' ++ 125 :: rest)
  = Some (JObj (acc ++ map strip_member l), rest).
Proof.
  intros Hne Hw Hw' Hl. induction Hl as [|[k x] r [Hk Hx] Hr IH] in acc, f, Hne |- *;
    [congruence|].
  intros Hs Hf. destruct f as [|f]; [cbn in Hf; lia|].
  cbn [map fst] in Hs.
  assert (Hset : obj_set k (reparsed x) acc = acc ++ [(k, reparsed x)]).
  { apply obj_set_last. eapply ssorted_before, Hs. }
  destruct r as [|[k2 y] r'].
  - cbn [map]. rewrite join_one, pmembers_step by (try apply num_end_ws; auto; cbn in Hf; lia).
    rewrite skip_ws_ws by exact Hw'. cbn [skip_ws is_ws orb Z.eqb Pos.eqb].
    rewrite Hset. reflexivity.
  - cbn [map]. rewrite join_cons2, <- !app_assoc.
    rewrite pmembers_step by ((cbn [num_end app]; split; [reflexivity|lia]) || (cbn in Hf; lia)
                              || assumption).
    cbn [app skip_ws is_ws orb Z.eqb Pos.eqb].
    rewrite skip_ws_ws by exact Hw.
    change (member_text gap ind' (k2, y) :: map (member_text gap ind') r')
      with (map (member_text gap ind') ((k2, y) :: r')).
    replace (skip_ws (join (44 :: w) (map (member_text gap ind') ((k2, y) :: r')) ++ w' ++ 125 :: rest))
      with (join (44 :: w) (map (member_text gap ind') ((k2, y) :: r')) ++ w' ++ 125 :: rest).
    + rewrite Hset, IH.
      * rewrite <- app_assoc. reflexivity.
      * discriminate.
      * rewrite map_app, <- app_assoc. exact Hs.
      * cbn in Hf |- *. lia.
    + destruct r' as [|z r'']; cbn [map]; [rewrite join_one|rewrite join_cons2, <- !app_assoc];
        unfold member_text; cbn [fst snd]; unfold quote; reflexivity.
Qed.

Lemma pvalue_arr_open (n : nat) (w X : jsstr) : ws w ->
  (exists c r, X = c :: r /\ 34 <= c /\ c <> 93) ->
  pvalue (S n) (91 :: w ++ X) = pelems n [] X.
Proof.
  intros Hw (c & r & -> & Hc & Hc93).
  change (pvalue (S n) (91 :: w ++ c :: r)) with
    (match skip_ws (w ++ c :: r) with
     | d :: r2 => if d =? 93 then Some (JArr [], r2) else pelems n [] (d :: r2)
     | [] => None
     end).
  rewrite skip_ws_ws by exact Hw. cbn [skip_ws]. rewrite is_ws_ge by lia.
  rewrite (proj2 (Z.eqb_neq c 93)) by exact Hc93. reflexivity.
Qed.

Lemma pvalue_obj_open (n : nat) (w X : jsstr) : ws w ->
  (exists c r, X = c :: r /\ 34 <= c /\ c <> 125) ->
  pvalue (S n) (123 :: w ++ X) = pmembers n [] X.
Proof.
  intros Hw (c & r & -> & Hc & Hc125).
  change (pvalue (S n) (123 :: w ++ c :: r)) with
    (match skip_ws (w ++ c :: r) with
     | d :: r2 => if d =? 125 then Some (JObj [], r2) else pmembers n [] (d :: r2)
     | [] => None
     end).
  rewrite skip_ws_ws by exact Hw. cbn [skip_ws]. rewrite is_ws_ge by lia.
  rewrite (proj2 (Z.eqb_neq c 125)) by exact Hc125. reflexivity.
Qed.

Lemma pvalue_num (n : nat) (c : Z) (s : jsstr) : c = 45 \/ 48 <= c <= 57 ->
  pvalue (S n) (c :: s) =
  match pnumber (c :: s) with Some (x, t) => Some (JNum x, t) | None => None end.
Proof.
  intros Hc. cbn [pvalue].
  rewrite (proj2 (Z.eqb_neq c 123)), (proj2 (Z.eqb_neq c 91)), (proj2 (Z.eqb_neq c 34)),
          (proj2 (Z.eqb_neq c 110)), (proj2 (Z.eqb_neq c 116)), (proj2 (Z.eqb_neq c 102)) by lia.
  replace ((c =? 45) || is_digit c) with true; [reflexivity|].
  symmetry. apply orb_true_iff. destruct Hc as [->|Hc]; [left; reflexivity|right].
  unfold is_digit. apply andb_true_intro. split; apply Z.leb_le; lia.
Qed.

Lemma join_cons (sep p : jsstr) (ps : list jsstr) :
  join sep (p :: ps) = p ++ List.concat (map (fun q => sep ++ q) ps).
Proof. reflexivity. Qed.

Lemma ser_parse (v : json) : wf v -> forall gap ind, ws gap -> ws ind -> rt_at gap ind v.
Proof.
  induction v as [| b | x | s | l IH | l IH] using json_ind';
    intros Hwf gap ind Hg Hi n t Ht Hn.
  - destruct n; [lia|]. reflexivity.
  - destruct n; [lia|]. destruct b; reflexivity.
  - destruct n; [lia|]. destruct x as [neg m e|b]; [|reflexivity].
    destruct (num_text_head neg m e) as (c & r & E & Hc).
    cbn [ser reparsed]. rewrite E. cbn [app]. rewrite pvalue_num by exact Hc.
    change (c :: r ++ t) with ((c :: r) ++ t). rewrite <- E, num_text_fin by assumption.
    destruct (m =? 0); reflexivity.
  - destruct n; [lia|]. cbn [ser reparsed].
    destruct (pstr_quote s t) as (r' & E & Hp); [exact Hwf|].
    rewrite E. cbn [pvalue]. rewrite Hp. reflexivity.
  - apply wf_arr in Hwf. destruct n as [|n]; [cbn in Hn; lia|].
    assert (Hind : ws (ind ++ gap)) by (apply ws_app; assumption).
    assert (Hl : Forall (rt_at gap (ind ++ gap)) l).
    { rewrite Forall_forall in IH, Hwf |- *. intros x Hx. apply IH; auto. }
    rewrite ser_arr. destruct l as [|x r]; [reflexivity|].
    cbn [map wrap reparsed].
    destruct (ser_head gap (ind ++ gap) x) as (c & s & Es & Hc & _ & Hc93).
    destruct gap as [|g gs].
    + rewrite app_nil_r in *. cbn [app]. rewrite <- app_assoc. cbn [app].
      change (91 :: join [44] (ser [] ind x :: map (ser [] ind) r) ++ 93 :: t)
        with (91 :: [] ++ (join (44 :: []) (map (ser [] ind) (x :: r)) ++ [] ++ 93 :: t)).
      rewrite pvalue_arr_open.
      * rewrite pelems_ser; [reflexivity|discriminate|constructor|constructor|exact Hl|].
        cbn in Hn |- *; lia.
      * constructor.
      * cbn [map]. rewrite join_cons, <- app_assoc, Es. cbn [app].
        eexists _, _. split; [reflexivity|lia].
    + set (ind' := ind ++ g :: gs) in *.
      repeat (cbn [app]; rewrite <- !app_assoc); cbn [app].
      assert (Hw : ws (10 :: ind')) by (constructor; [reflexivity|exact Hind]).
      transitivity (pelems n [] (join (44 :: 10 :: ind') (map (ser (g :: gs) ind') (x :: r))
                                 ++ (10 :: ind) ++ 93 :: t)).
      { apply (pvalue_arr_open n (10 :: ind')); [exact Hw|].
        cbn [map]. rewrite join_cons, <- app_assoc, Es. cbn [app].
        eexists _, _. split; [reflexivity|lia]. }
      rewrite pelems_ser; [reflexivity|discriminate|exact Hw|constructor; [reflexivity|exact Hi]|exact Hl|].
      cbn in Hn |- *; lia.
  - apply wf_obj in Hwf. destruct Hwf as [Hso Hwf]. destruct n as [|n]; [cbn in Hn; lia|].
    assert (Hind : ws (ind ++ gap)) by (apply ws_app; assumption).
    assert (Hl : Forall (rt_member gap (ind ++ gap)) l).
    { rewrite Forall_forall in IH, Hwf |- *. intros x Hx. split; [apply Hwf, Hx|].
      apply IH; auto. apply Hwf, Hx. }
    rewrite ser_obj. destruct l as [|x r]; [reflexivity|].
    cbn [map wrap reparsed].
    assert (Hh : exists c s, join (44 :: (match gap with [] => [] | _ => 10 :: ind ++ gap end))
                               (map (member_text gap (ind ++ gap)) (x :: r)) ++
                             (match gap with [] => [] | _ => 10 :: ind end) ++ 125 :: t = c :: s
                             /\ 34 <= c /\ c <> 125).
    { cbn [map]. rewrite join_cons. unfold member_text, quote. cbn [app].
      eexists _, _. split; [reflexivity|lia]. }
    destruct gap as [|g gs].
    + rewrite app_nil_r in *. cbn [app] in Hh |- *.
      rewrite <- app_assoc. cbn [app].
      change (123 :: join [44] (member_text [] ind x :: map (member_text [] ind) r) ++ 125 :: t)
        with (123 :: [] ++ (join (44 :: []) (map (member_text [] ind) (x :: r)) ++ [] ++ 125 :: t)).
      rewrite pvalue_obj_open by (try constructor; exact Hh).
      rewrite pmembers_ser; [reflexivity|discriminate|constructor|constructor|exact Hl|exact Hso|].
      cbn in Hn |- *; lia.
    + set (ind' := ind ++ g :: gs) in *.
      repeat (cbn [app]; rewrite <- !app_assoc); cbn [app].
      assert (Hw : ws (10 :: ind')) by (constructor; [reflexivity|exact Hind]).
      transitivity (pmembers n [] (join (44 :: 10 :: ind') (map (member_text (g :: gs) ind') (x :: r))
                                   ++ (10 :: ind) ++ 125 :: t)).
      { apply (pvalue_obj_open n (10 :: ind')); [exact Hw|exact Hh]. }
      rewrite pmembers_ser; [reflexivity|discriminate|exact Hw|constructor; [reflexivity|exact Hi]|exact Hl|exact Hso|].
      cbn in Hn |- *; lia.
Qed.

Lemma list_sum_cons (a : nat) (l : list nat) : list_sum (a :: l) = (a + list_sum l)%nat.
Proof. reflexivity. Qed.

Lemma list_sum_le {A} (f g : A -> nat) (l : list A) :
  Forall (fun x => (f x <= g x)%nat) l -> (list_sum (map f l) <= list_sum (map g l))%nat.
Proof.
  induction 1 as [|x l Hx Hl IH]; [reflexivity|]. cbn [map].
  change (list_sum (f x :: map f l)) with (f x + list_sum (map f l))%nat.
  change (list_sum (g x :: map g l)) with (g x + list_sum (map g l))%nat. lia.
Qed.

Lemma join_length (w : jsstr) (parts : list jsstr) :
  (list_sum (map (fun p => S (List.length p)) parts) <=
   List.length (join (44%Z :: w) parts) + S (List.length w))%nat.
Proof.
  induction parts as [|p ps IH]; [cbn; lia|].
  destruct ps as [|q r].
  - rewrite join_one. cbn [map]. rewrite list_sum_cons. cbn [list_sum fold_right]. lia.
  - rewrite join_cons2, !length_app. cbn [map List.length] in *.
    repeat rewrite list_sum_cons in *. lia.
Qed.

Lemma wrap_length (op cl : Z) (gap ind ind' : jsstr) (parts : list jsstr) :
  parts <> [] ->
  (list_sum (map (fun p => S (List.length p)) parts) < List.length (wrap op cl gap ind ind' parts))%nat.
Proof.
  intros Hne. unfold wrap. destruct parts as [|p ps]; [congruence|].
  pose proof (join_length [] (p :: ps)) as H0.
  pose proof (join_length (10 :: ind') (p :: ps)) as H1.
  destruct gap; cbn [List.length] in *; rewrite ?length_app; cbn [List.length] in *;
    rewrite ?length_app in *; cbn [List.length] in *; lia.
Qed.

Lemma size_le_length (v : json) (gap ind : jsstr) :
  (size v <= List.length (ser gap ind v))%nat.
Proof.
  induction v as [| b | x | s | l IH | l IH] using json_ind' in ind |- *; cbn [size]; try lia.
  - rewrite ser_arr. destruct l as [|x r]; [cbn; lia|].
    eapply Nat.le_trans; [|apply wrap_length; destruct r; discriminate].
    apply le_n_S. rewrite map_map. apply list_sum_le.
    rewrite Forall_forall in IH |- *. intros y Hy. specialize (IH y Hy (ind ++ gap)). lia.
  - rewrite ser_obj. destruct l as [|x r]; [cbn; lia|].
    eapply Nat.le_trans; [|apply wrap_length; destruct r; discriminate].
    apply le_n_S. rewrite map_map. apply list_sum_le.
    rewrite Forall_forall in IH |- *. intros y Hy. specialize (IH y Hy (ind ++ gap)).
    unfold member_text. rewrite !length_app. lia.
Qed.

Lemma JSON_parse_ser (v : json) (gap : jsstr) : wf v -> ws gap ->
  JSON_parse (JSON_stringify v gap) = Some (reparsed v).
Proof.
  intros Hv Hg. unfold JSON_parse, JSON_stringify.
  rewrite <- (app_nil_r (ser gap [] v)), skip_ws_ser.
  rewrite (ser_parse v Hv gap [] Hg (Forall_nil _)); [reflexivity|exact I|].
  rewrite app_nil_r. pose proof (size_le_length v gap []). lia.
Qed.

(** Values produced by the parser are well formed. *)
Lemma str_eqb_eq (a b : jsstr) : str_eqb a b = true <-> a = b.
Proof.
  induction a as [|x a IH] in b |- *; destruct b as [|y b]; cbn;
    try (split; congruence).
  rewrite andb_true_iff, Z.eqb_eq, IH. split; [intros [-> ->]; reflexivity|].
  intros H. inversion H. auto.
Qed.

Lemma idx_inj (a b : jsstr) (i : Z) : idx a = Some i -> idx b = Some i -> a = b.
Proof.
  unfold idx. intros Ha Hb.
  destruct (_ && _ && str_eqb (ztext (digits_val a)) a) eqn:Ea; [|discriminate].
  destruct (_ && _ && str_eqb (ztext (digits_val b)) b) eqn:Eb; [|discriminate].
  injection Ha as Ha. injection Hb as Hb.
  apply andb_true_iff in Ea as [_ Ea]. apply andb_true_iff in Eb as [_ Eb].
  apply str_eqb_eq in Ea. apply str_eqb_eq in Eb. rewrite Ha in Ea. rewrite Hb in Eb.
  congruence.
Qed.

Lemma obj_has_false (k : jsstr) (acc : list (jsstr * json)) :
  obj_has k acc = false -> Forall (fun k' => str_eqb k k' = false) (map fst acc).
Proof.
  unfold obj_has. induction acc as [|[k' v'] r IH]; cbn; [constructor|].
  intros H. apply orb_false_iff in H as [H1 H2]. constructor; auto.
Qed.

Lemma keys_update (k : jsstr) (v : json) (acc : list (jsstr * json)) :
  map fst (obj_update k v acc) = map fst acc.
Proof.
  induction acc as [|[k' v'] r IH]; [reflexivity|]. cbn.
  destruct (str_eqb k k'); cbn; [reflexivity|]. rewrite IH. reflexivity.
Qed.

Lemma update_Forall (P : jsstr * json -> Prop) (k : jsstr) (v : json) (acc : list (jsstr * json)) :
  (forall k' x, P (k', x) -> P (k', v)) -> Forall P acc -> Forall P (obj_update k v acc).
Proof.
  intros Hp. induction 1 as [|[k' v'] r Hx Hr IH]; cbn; [constructor|].
  destruct (str_eqb k k'); constructor; eauto.
Qed.

Lemma insert_Forall (P : jsstr * json -> Prop) (i : Z) (k : jsstr) (v : json)
  (acc : list (jsstr * json)) :
  P (k, v) -> Forall P acc -> Forall P (obj_insert_idx i k v acc).
Proof.
  intros Hp. induction 1 as [|[k' v'] r Hx Hr IH]; cbn; [constructor; auto|].
  destruct (idx k'); [destruct (i <? z)|]; repeat constructor; auto.
Qed.

Lemma keys_insert (i : Z) (k : jsstr) (v : json) (acc : list (jsstr * json)) (y : jsstr) :
  In y (map fst (obj_insert_idx i k v acc)) -> y = k \/ In y (map fst acc).
Proof.
  induction acc as [|[k' v'] r IH]; cbn; [intuition|].
  destruct (idx k'); [destruct (i <? z)|]; cbn; intuition.
Qed.

Lemma insert_sorted (i : Z) (k : jsstr) (v : json) (acc : list (jsstr * json)) :
  idx k = Some i -> obj_has k acc = false ->
  StronglySorted key_before (map fst acc) ->
  StronglySorted key_before (map fst (obj_insert_idx i k v acc)).
Proof.
  intros Hi. induction acc as [|[k' v'] r IH]; intros Hh Hs.
  - repeat constructor.
  - cbn [map fst] in Hs. apply StronglySorted_inv in Hs as [Hsr Hk'].
    unfold obj_has in Hh. cbn [existsb fst] in Hh. apply orb_false_iff in Hh as [Hkk' Hh].
    assert (Hfr := obj_has_false k r Hh).
    assert (Hnew : forall j, idx k' = Some j -> i < j ->
              Forall (key_before k) (k' :: map fst r)).
    { intros j Hj Hij. constructor.
      - split; [exact Hkk'|]. intros j0 Hj0. rewrite Hj in Hj0. injection Hj0 as <-.
        exists i. split; assumption.
      - rewrite Forall_forall in Hk', Hfr |- *. intros y Hy. split; [apply Hfr, Hy|].
        intros j'' Hj''. destruct (Hk' y Hy) as [_ H2]. destruct (H2 j'' Hj'') as (i' & Hi' & Hlt).
        rewrite Hj in Hi'. injection Hi' as <-. exists i. split; [exact Hi|lia]. }
    cbn [obj_insert_idx]. destruct (idx k') as [j|] eqn:Ej.
    + destruct (Z.ltb_spec i j).
      * cbn [map fst]. constructor; [constructor; assumption|apply Hnew with j; auto].
      * cbn [map fst]. constructor; [apply IH; assumption|].
        apply Forall_forall. intros y Hy. apply keys_insert in Hy. destruct Hy as [->|Hy].
        -- split; [rewrite str_eqb_sym; exact Hkk'|].
           intros j0 Hj0. rewrite Hi in Hj0. injection Hj0 as <-. exists j. split; [exact Ej|].
           destruct (Z.eq_dec j i) as [->|]; [|lia].
           exfalso. rewrite (idx_inj k k' i Hi Ej), (proj2 (str_eqb_eq k' k') eq_refl) in Hkk'.
           discriminate.
        -- rewrite Forall_forall in Hk'. apply Hk', Hy.
    + cbn [map fst]. constructor; [constructor; assumption|].
      constructor.
      * split; [exact Hkk'|]. intros j0 Hj0. congruence.
      * rewrite Forall_forall in Hk', Hfr |- *. intros y Hy. split; [apply Hfr, Hy|].
        intros j'' Hj''. destruct (Hk' y Hy) as [_ H2]. destruct (H2 j'' Hj'') as (i' & Hi' & _).
        congruence.
Qed.

Lemma ssorted_snoc {A} (R : A -> A -> Prop) (l : list A) (x : A) :
  StronglySorted R l -> Forall (fun y => R y x) l -> StronglySorted R (l ++ [x]).
Proof.
  induction 1 as [|a l Hl IH Ha]; intros Hx; cbn; [repeat constructor|].
  inversion Hx as [|? ? Hax Hx']; subst. constructor; [apply IH, Hx'|].
  apply Forall_app. split; [exact Ha|constructor; [exact Hax|constructor]].
Qed.

Lemma obj_set_wf (k : jsstr) (v : json) (acc : list (jsstr * json)) :
  wf (JObj acc) -> units_ok k -> wf v -> wf (JObj (obj_set k v acc)).
Proof.
  rewrite !wf_obj. intros [Hs Hf] Hk Hv. unfold obj_set.
  destruct (obj_has k acc) eqn:Eh.
  - rewrite keys_update. split; [exact Hs|].
    apply update_Forall; [|exact Hf]. intros k' x [H1 _]. split; assumption.
  - destruct (idx k) as [i|] eqn:Ei.
    + split; [apply insert_sorted; assumption|].
      apply insert_Forall; [split; assumption|exact Hf].
    + rewrite map_app. split.
      * apply ssorted_snoc; [exact Hs|]. cbn.
        apply obj_has_false in Eh. rewrite Forall_forall in Eh |- *. intros y Hy.
        split; [rewrite str_eqb_sym; apply Eh, Hy|]. intros j Hj. congruence.
      * apply Forall_app. split; [exact Hf|repeat constructor; assumption].
Qed.

Lemma cons_fst_some (c : Z) (o : option (jsstr * jsstr)) (x t : jsstr) :
  cons_fst c o = Some (x, t) -> exists x', o = Some (x', t) /\ x = c :: x'.
Proof.
  destruct o as [[x' t']|]; cbn; [|discriminate]. intros H. inversion H. eauto.
Qed.

Lemma hexval_nonneg (c d : Z) : hexval c = Some d -> 0 <= d.
Proof.
  unfold hexval. intros H.
  destruct ((48 <=? c) && (c <=? 57)) eqn:E1;
    [apply andb_true_iff in E1 as [E1 _]; apply Z.leb_le in E1; injection H; lia|].
  destruct ((97 <=? c) && (c <=? 102)) eqn:E2;
    [apply andb_true_iff in E2 as [E2 _]; apply Z.leb_le in E2; injection H; lia|].
  destruct ((65 <=? c) && (c <=? 70)) eqn:E3;
    [apply andb_true_iff in E3 as [E3 _]; apply Z.leb_le in E3; injection H; lia|].
  discriminate.
Qed.

Lemma hex4_nonneg (a b c d u : Z) : hex4 a b c d = Some u -> 0 <= u.
Proof.
  unfold hex4. intros H.
  destruct (hexval a) eqn:Ea; [|discriminate]. destruct (hexval b) eqn:Eb; [|discriminate].
  destruct (hexval c) eqn:Ec; [|discriminate]. destruct (hexval d) eqn:Ed; [|discriminate].
  apply hexval_nonneg in Ea, Eb, Ec, Ed. injection H as <-. lia.
Qed.

Lemma esc_char_nonneg (e u : Z) : esc_char e = Some u -> 0 <= u.
Proof.
  unfold esc_char. intros H.
  repeat match type of H with
  | (if ?b then _ else _) = _ => destruct b
  end; try discriminate; injection H as <-; lia.
Qed.

Lemma pstr_units (s x t : jsstr) : pstr s = Some (x, t) -> units_ok x.
Proof.
  remember (List.length s) as n eqn:Hn.
  revert s x Hn. induction n as [n IH] using (well_founded_induction lt_wf).
  intros s x Hn H. destruct s as [|c r]; [discriminate|].
  cbn [pstr] in H.
  destruct (c =? 34); [injection H as <- _; constructor|].
  destruct (c =? 92).
  - destruct r as [|e r']; [discriminate|].
    destruct (e =? 117).
    + destruct r' as [|h1 [|h2 [|h3 [|h4 r'']]]]; try discriminate.
      destruct (hex4 h1 h2 h3 h4) as [u|] eqn:Eh; [|discriminate].
      apply cons_fst_some in H as (x' & Hx' & ->). constructor; [eapply hex4_nonneg, Eh|].
      eapply (IH (List.length r'')); [cbn in Hn; lia|reflexivity|exact Hx'].
    + destruct (esc_char e) as [u|] eqn:Ee; [|discriminate].
      apply cons_fst_some in H as (x' & Hx' & ->). constructor; [eapply esc_char_nonneg, Ee|].
      eapply (IH (List.length r')); [cbn in Hn; lia|reflexivity|exact Hx'].
  - destruct (Z.ltb_spec c 32); [discriminate|].
    apply cons_fst_some in H as (x' & Hx' & ->). constructor; [lia|].
    eapply (IH (List.length r)); [cbn in Hn; lia|reflexivity|exact Hx'].
Qed.

Lemma dec_round_wf (neg : bool) (N x : Z) : wf (JNum (dec_round neg N x)).
Proof.
  assert (H : forall p q, 0 < q -> wf (JNum (round_q neg p q))).
  { intros p q Hq. pose proof (round_q_ok neg p q Hq) as R.
    destruct (round_q neg p q); exact R. }
  unfold dec_round. destruct (Z.leb_spec 0 x); apply H; [lia|apply Z.pow_pos_nonneg; lia].
Qed.

Lemma pnumber_wf (s : jsstr) (x : num) (t : jsstr) : pnumber s = Some (x, t) -> wf (JNum x).
Proof.
  unfold pnumber. intros H.
  destruct (match s with
            | [] => (false, s)
            | c :: r => if c =? 45 then (true, r) else (false, s)
            end) as [neg s1].
  destruct (pint s1) as [[ip s2]|] eqn:Ei; [|discriminate].
  destruct (pfrac s2) as [[fd s3]|] eqn:Ef; [|discriminate].
  destruct (pexp s3) as [[xe s4]|] eqn:Ex; [|discriminate].
  injection H as <- _. apply dec_round_wf.
Qed.

Lemma parse_wf (n : nat) :
  (forall s v t, pvalue n s = Some (v, t) -> wf v) /\
  (forall acc s v t, Forall wf acc -> pelems n acc s = Some (v, t) -> wf v) /\
  (forall acc s v t, wf (JObj acc) -> pmembers n acc s = Some (v, t) -> wf v).
Proof.
  induction n as [|n (IHv & IHe & IHm)];
    [repeat split; intros; discriminate|].
  repeat split.
  - intros s v t H. destruct s as [|c r]; [discriminate|]. cbn [pvalue] in H.
    destruct (c =? 123).
    { destruct (skip_ws r) as [|d r2]; [discriminate|].
      destruct (d =? 125); [injection H as <- _; cbn; split; constructor|].
      eapply IHm; [|exact H]. cbn. split; constructor. }
    destruct (c =? 91).
    { destruct (skip_ws r) as [|d r2]; [discriminate|].
      destruct (d =? 93); [injection H as <- _; exact I|].
      eapply IHe; [constructor|exact H]. }
    destruct (c =? 34).
    { destruct (pstr r) as [[str t']|] eqn:Ep; [|discriminate].
      injection H as <- _. eapply pstr_units, Ep. }
    destruct (c =? 110).
    { destruct (lit _ r); [injection H as <- _; exact I|discriminate]. }
    destruct (c =? 116).
    { destruct (lit _ r); [injection H as <- _; exact I|discriminate]. }
    destruct (c =? 102).
    { destruct (lit _ r); [injection H as <- _; exact I|discriminate]. }
    destruct ((c =? 45) || is_digit c); [|discriminate].
    destruct (pnumber (c :: r)) as [[x t']|] eqn:Ep; [|discriminate].
    injection H as <- _. eapply pnumber_wf, Ep.
  - intros acc s v t Hacc H. cbn [pelems] in H.
    destruct (pvalue n s) as [[v0 t0]|] eqn:Ev; [|discriminate].
    assert (Hv0 : wf v0) by (eapply IHv, Ev).
    destruct (skip_ws t0) as [|d t']; [discriminate|].
    assert (Hacc' : Forall wf (acc ++ [v0]))
      by (apply Forall_app; split; [exact Hacc|repeat constructor; exact Hv0]).
    destruct (d =? 44); [eapply IHe; [exact Hacc'|exact H]|].
    destruct (d =? 93); [|discriminate].
    injection H as <- _. apply wf_arr, Hacc'.
  - intros acc s v t Hacc H. cbn [pmembers] in H.
    destruct s as [|d s]; [discriminate|].
    destruct (d =? 34); [|discriminate].
    destruct (pstr s) as [[k t1]|] eqn:Ek; [|discriminate].
    destruct (skip_ws t1) as [|e t2]; [discriminate|].
    destruct (e =? 58); [|discriminate].
    destruct (pvalue n (skip_ws t2)) as [[v0 t3]|] eqn:Ev; [|discriminate].
    assert (Hacc' : wf (JObj (obj_set k v0 acc)))
      by (apply obj_set_wf; [exact Hacc|eapply pstr_units, Ek|eapply IHv, Ev]).
    destruct (skip_ws t3) as [|f t4]; [discriminate|].
    destruct (f =? 44); [eapply IHm; [exact Hacc'|exact H]|].
    destruct (f =? 125); [|discriminate].
    injection H as <- _. exact Hacc'.
Qed.

Lemma JSON_parse_wf (s : jsstr) (v : json) : JSON_parse s = Some v -> wf v.
Proof.
  unfold JSON_parse. intros H.
  destruct (pvalue (S (List.length s)) (skip_ws s)) as [[v0 t]|] eqn:Ev; [|discriminate].
  destruct (skip_ws t); [|discriminate]. injection H as <-.
  eapply (proj1 (parse_wf _)), Ev.
Qed.

Lemma ws_gap2 : ws gap2.
Proof. repeat constructor. Qed.

(* ================================================================= *)
(** ** C9: the environment store *)

Lemma js_string_units (s : jsstr) : js_string s = true -> units_ok s.
Proof.
  unfold js_string, units_ok. rewrite forallb_forall. intros H.
  apply Forall_forall. intros c Hc. specialize (H c Hc).
  apply andb_true_iff in H as [H _]. lia.
Qed.

Lemma env_map_wf (d p : jsstr) : js_string d = true -> js_string p = true -> wf (env_map d p).
Proof.
  intros Hd Hp. cbn [wf env_map map fst]. split.
  - assert (K : key_before (js "development") (js "production")).
    { split; [reflexivity|]. intros j Hj. vm_compute in Hj. discriminate. }
    apply SSorted_cons; [apply SSorted_cons; [apply SSorted_nil | constructor] |].
    constructor; [exact K | constructor].
  - repeat split; try apply js_string_units; auto; vm_compute; repeat constructor; discriminate.
Qed.

Lemma getItem_setItem (k v : jsstr) (st : Storage) : getItem k (setItem k v st) = Some v.
Proof. unfold setItem. cbn. assert (str_eqb k k = true) as -> by (apply str_eqb_eq; reflexivity). reflexivity. Qed.

Lemma reparsed_stable (v : json) : wf v -> reparse_stable v = true -> reparsed v = v.
Proof.
  induction v as [| | [neg m e|neg] | | l IH | l IH] using json_ind'; intros Hw Hv;
    cbn [reparsed reparse_stable] in Hv |- *; try reflexivity; try discriminate.
  - destruct (Z.eqb_spec m 0) as [->|]; [|reflexivity].
    cbn [wf] in Hw. destruct Hw as [[_ ->]|Hw]; [|lia].
    destruct neg; [discriminate|reflexivity].
  - apply wf_arr in Hw. f_equal. induction IH as [|x r Hx _ IHr]; [reflexivity|].
    apply Forall_cons_iff in Hw as [Hw1 Hw2].
    apply andb_true_iff in Hv as [H1 H2]. cbn. rewrite Hx by assumption. f_equal. auto.
  - apply wf_obj in Hw as [_ Hw]. f_equal. induction IH as [|[k x] r Hx _ IHr]; [reflexivity|].
    apply Forall_cons_iff in Hw as [[_ Hw1] Hw2].
    apply andb_true_iff in Hv as [H1 H2]. cbn. cbn in Hx, H1, Hw1. rewrite Hx by assumption.
    f_equal. auto.
Qed.

Lemma saveBaseUrl_env (d p b : jsstr) (production : bool) (st : Storage) :
  saveBaseUrl [(js "development", JStr d); (js "production", JStr p)] production b st =
  (env_map (if production then d else b) (if production then b else p),
   save_urls (env_map (if production then d else b) (if production then b else p)) st).
Proof. destruct production; reflexivity. Qed.

Lemma save_load (d p : jsstr) (st : Storage) :
  js_string d = true -> js_string p = true ->
  load_urls_web (save_urls (env_map d p) st) = LoadedMap (env_map d p) /\
  load_urls_mobile (save_urls (env_map d p) st) = LoadedMap (env_map d p).
Proof.
  intros Hd Hp.
  assert (E : JSON_parse (JSON_stringify (env_map d p) []) = Some (env_map d p)).
  { rewrite JSON_parse_ser; [reflexivity | apply env_map_wf; auto | constructor]. }
  unfold load_urls_web, load_urls_mobile, save_urls. rewrite getItem_setItem.
  assert (T : truthy (JSON_stringify (env_map d p) []) = true) by reflexivity.
  rewrite T, E. split; reflexivity.
Qed.

(** C9: saving a two-environment map of strings and loading it again, in
    either shell, gives back the saved map; in particular, after
    [saveBaseUrl] the store loads back as the new in-memory map. *)
Theorem C9_save_load_roundtrip (d p b : jsstr) (production : bool) (st : Storage) :
  js_string d = true -> js_string p = true -> js_string b = true ->
  (load_urls_web (save_urls (env_map d p) st) = LoadedMap (env_map d p) /\
   load_urls_mobile (save_urls (env_map d p) st) = LoadedMap (env_map d p)) /\
  (let (m, st') := saveBaseUrl [(js "development", JStr d); (js "production", JStr p)]
                     production b st in
   load_urls_web st' = LoadedMap m /\ load_urls_mobile st' = LoadedMap m).
Proof.
  intros Hd Hp Hb. split; [apply save_load; auto|].
  rewrite saveBaseUrl_env. apply save_load; destruct production; auto.
Qed.

(** C9, at concrete URLs. *)
Lemma C9_witness :
  js_string (js "http://localhost:3000") = true /\ js_string (js "https://api.example.com") = true /\
  js_string (js "https://staging.example.com") = true /\
  ((load_urls_web (save_urls (env_map (js "http://localhost:3000") (js "https://api.example.com")) []) =
      LoadedMap (env_map (js "http://localhost:3000") (js "https://api.example.com")) /\
    load_urls_mobile (save_urls (env_map (js "http://localhost:3000") (js "https://api.example.com")) []) =
      LoadedMap (env_map (js "http://localhost:3000") (js "https://api.example.com"))) /\
   (let (m, st') := saveBaseUrl [(js "development", JStr (js "http://localhost:3000"));
                                 (js "production", JStr (js "https://api.example.com"))]
                      true (js "https://staging.example.com") [] in
    load_urls_web st' = LoadedMap m /\ load_urls_mobile st' = LoadedMap m)).
Proof.
  split; [reflexivity|]. split; [reflexivity|]. split; [reflexivity|].
  apply C9_save_load_roundtrip; reflexivity.
Defined.
(* ================================================================= *)
(** ** C10: formatJsonBody *)

(** C10 (as stated): the re-serialised body parses to the same value as the
    original.  It does not when a number overflows: [1e400] parses to
    Infinity, [JSON.stringify] writes it as [null], and the new body parses
    to null. *)
Lemma C10_overflow_becomes_null :
  JSON_parse (js "1e400") = Some (JNum (NInf false)) /\
  formatJsonBody (js "1e400") [] = (js "null", []) /\
  JSON_parse (fst (formatJsonBody (js "1e400") [])) = Some JNull /\
  JSON_parse (fst (formatJsonBody (js "1e400") [])) <> JSON_parse (js "1e400").
Proof. vm_compute. repeat split. discriminate. Qed.

(** Numbers go through [formatJsonBody] as doubles: a literal is rounded to
    the nearest double and written back as the shortest decimal that
    denotes it, so [1e-400] becomes [0], [0.10000000000000001] becomes
    [0.1], a 30-digit integer keeps 17 significant digits, and [-0] loses
    its sign. *)
Lemma formatJsonBody_doubles :
  fst (formatJsonBody
         (js "[1e-400, 0.10000000000000001, 123456789012345678901234567890, -0, 5e-324]") []) =
  js "[
  0,
  0.1,
  1.2345678901234568e+29,
  0,
  5e-324
]".
Proof. vm_compute. reflexivity. Qed.

(** C10 (amended): on a body that does not parse, [formatJsonBody] leaves the
    body unchanged and only sets the error; on a body that parses to [v], it
    replaces the body with the 2-space re-serialisation of [v] and leaves the
    error slot alone, and that text parses to [v] with every infinite number
    replaced by null and every zero by [+0] (so to [v] itself when [v] has
    neither an infinity nor a negative zero). *)
Theorem C10_format_json_body (s e : jsstr) :
  (JSON_parse s = None -> formatJsonBody s e = (s, js "Invalid JSON in request body")) /\
  (forall v, JSON_parse s = Some v ->
     formatJsonBody s e = (JSON_stringify v gap2, e) /\
     JSON_parse (JSON_stringify v gap2) = Some (reparsed v) /\
     (reparse_stable v = true -> JSON_parse (fst (formatJsonBody s e)) = Some v)).
Proof.
  unfold formatJsonBody. split.
  - intros H. rewrite H. reflexivity.
  - intros v H. rewrite H.
    assert (R : JSON_parse (JSON_stringify v gap2) = Some (reparsed v)).
    { apply JSON_parse_ser; [eapply JSON_parse_wf; exact H | exact ws_gap2]. }
    split; [reflexivity|]. split; [exact R|].
    intros F. cbn [fst]. rewrite R, reparsed_stable by (exact F || eapply JSON_parse_wf; exact H).
    reflexivity.
Qed.

(* ================================================================= *)
(** ** syntaxHighlight (App.tsx lines 122-154) *)

Lemma star_loop_bound (s : jsstr) (m : nat -> (nat -> option nat) -> option nat)
  (Hm : forall i k e, (i <= List.length s)%nat -> m i k = Some e ->
        exists j, (i <= j <= List.length s)%nat /\ k j = Some e) :
  forall g i k e, (i <= List.length s)%nat -> star_loop m k g i = Some e ->
  exists j, (i <= j <= List.length s)%nat /\ k j = Some e.
Proof.
  induction g as [|g IH]; intros i k e Hi H; cbn in H; [discriminate|].
  destruct (m i _) eqn:Ea.
  - injection H as ->. destruct (Hm _ _ _ Hi Ea) as (j1 & Hj1 & H1).
    destruct (Nat.eqb j1 i); [discriminate|].
    destruct (IH j1 k e ltac:(lia) H1) as (j & Hj & Hk). exists j. split; [lia | exact Hk].
  - exists i. split; [lia | exact H].
Qed.

Lemma mt_bound (s : jsstr) (f : nat) (r : re) :
  forall i k e, (i <= List.length s)%nat -> mt s f r i k = Some e ->
  exists j, (i <= j <= List.length s)%nat /\ k j = Some e.
Proof.
  induction r as [p|a IHa b IHb|a IHa b IHb|a IHa|a IHa|]; intros i k e Hi H; cbn in H.
  - destruct (nth_error s i) as [c|] eqn:Hc; [|discriminate].
    destruct (p c); [|discriminate].
    assert (i < List.length s)%nat by (apply nth_error_Some; congruence).
    exists (S i). split; [lia | exact H].
  - destruct (IHa _ _ _ Hi H) as (j1 & Hj1 & H1).
    destruct (IHb j1 k e ltac:(lia) H1) as (j2 & Hj2 & H2).
    exists j2. split; [lia | exact H2].
  - destruct (mt s f a i k) eqn:Ea.
    + injection H as <-. exact (IHa _ _ _ Hi Ea).
    + exact (IHb _ _ _ Hi H).
  - exact (star_loop_bound s (mt s f a) IHa f i k e Hi H).
  - destruct (mt s f a i _) eqn:Ea.
    + injection H as <-. destruct (IHa _ _ _ Hi Ea) as (j & Hj & H1).
      destruct (Nat.eqb j i); [discriminate|]. exists j. split; [lia | exact H1].
    + exists i. split; [lia | exact H].
  - destruct (xorb _ _); [|discriminate]. exists i. split; [lia | exact H].
Qed.

Lemma match_at_bound (s : jsstr) (L e : nat) :
  (L <= List.length s)%nat -> match_at s L = Some e -> (L <= e <= List.length s)%nat.
Proof.
  intros HL H. destruct (mt_bound s _ hl_re L _ e HL H) as (j & Hj & Hk).
  cbn in Hk. injection Hk as <-. exact Hj.
Qed.

Lemma search_bound (s : jsstr) (g L p e : nat) :
  search s g L = Some (p, e) -> (p <= e <= List.length s)%nat.
Proof.
  induction g as [|g IH] in L |- *; cbn [search]; [discriminate|].
  destruct (Nat.ltb_spec (List.length s) L); [discriminate|].
  destruct (match_at s L) eqn:E; intros Hs.
  - injection Hs as <- <-. exact (match_at_bound s L _ ltac:(lia) E).
  - exact (IH _ Hs).
Qed.

Lemma collect_bound (s : jsstr) (g L : nat) :
  Forall (fun pe => (fst pe <= snd pe <= List.length s)%nat) (collect s g L).
Proof.
  induction g as [|g IH] in L |- *; cbn [collect]; [constructor|].
  destruct (search s _ L) as [[p e]|] eqn:E; [|constructor].
  constructor; [exact (search_bound s _ L p e E) | apply IH].
Qed.

Lemma firstn_extend (s : jsstr) (a b : nat) :
  (a <= b)%nat -> firstn a s ++ firstn (b - a) (skipn a s) = firstn b s.
Proof.
  intros Hab. destruct (Nat.le_gt_cases a (List.length s)) as [Ha|Ha].
  - rewrite <- (firstn_skipn a s) at 3. rewrite firstn_app.
    rewrite firstn_length_le by exact Ha.
    rewrite firstn_firstn, Nat.min_r by exact Hab. reflexivity.
  - rewrite skipn_all2 by lia. rewrite firstn_nil, app_nil_r.
    rewrite !firstn_all2 by lia. reflexivity.
Qed.

Lemma concat_map_app {A} (f : A -> jsstr) (l1 l2 : list A) :
  List.concat (map f (l1 ++ l2)) = List.concat (map f l1) ++ List.concat (map f l2).
Proof. rewrite map_app, concat_app. reflexivity. Qed.

Lemma assemble_fold (s : jsstr) (ms : list (nat * nat)) :
  Forall (fun pe => (fst pe <= snd pe <= List.length s)%nat) ms ->
  forall ps next, (next <= List.length s)%nat ->
  List.concat (map raw ps) = firstn next s ->
  exists ps' next',
    fold_left (assemble_step s) ms (List.concat (map render ps), next) =
      (List.concat (map render ps'), next') /\
    List.concat (map raw ps') = firstn next' s /\ (next' <= List.length s)%nat.
Proof.
  induction 1 as [|[p e] ms Hpe Hms IH]; intros ps next Hn Hr.
  - exists ps, next. auto.
  - cbn in Hpe. cbn [fold_left]. unfold assemble_step at 2.
    destruct (Nat.leb_spec next p).
    + replace (List.concat (map render ps) ++ substr s next p ++ hl_span (substr s p e))
        with (List.concat (map render (ps ++ [Plain (substr s next p); Tok (substr s p e)])))
        by (rewrite (concat_map_app render); cbn [map List.concat render]; rewrite app_nil_r; reflexivity).
      apply IH; [lia|].
      rewrite (concat_map_app raw), Hr. cbn [map List.concat raw]. rewrite app_nil_r. unfold substr.
      rewrite app_assoc, firstn_extend by lia. apply firstn_extend. lia.
    + apply IH; assumption.
Qed.

Lemma assemble_pieces (s : jsstr) (ms : list (nat * nat)) :
  Forall (fun pe => (fst pe <= snd pe <= List.length s)%nat) ms ->
  exists ps, assemble s ms = List.concat (map render ps) /\ List.concat (map raw ps) = s.
Proof.
  intros H. destruct (assemble_fold s ms H [] O ltac:(lia) eq_refl) as (ps & n & E & Hr & Hn).
  unfold assemble. cbn in E. rewrite E.
  exists (ps ++ [Plain (skipn n s)]). rewrite (concat_map_app render), (concat_map_app raw). cbn [map List.concat render raw]. rewrite !app_nil_r.
  split; [reflexivity|]. rewrite Hr. apply firstn_skipn.
Qed.

Lemma hl_replace_pieces (s : jsstr) :
  exists ps, hl_replace s = List.concat (map render ps) /\ List.concat (map raw ps) = s.
Proof. apply assemble_pieces, collect_bound. Qed.

Lemma ser_strip (gap : jsstr) (v : json) : forall ind, ser gap ind (reparsed v) = ser gap ind v.
Proof.
  induction v as [| | [neg m e|neg] | | l IH | l IH] using json_ind'; intros ind; try reflexivity.
  - cbn [reparsed]. destruct (Z.eqb_spec m 0) as [->|]; reflexivity.
  - cbn [reparsed]. rewrite !ser_arr, map_map. f_equal.
    apply map_ext_in. intros x Hx. rewrite Forall_forall in IH. apply IH, Hx.
  - cbn [reparsed]. rewrite !ser_obj, map_map. f_equal.
    apply map_ext_in. intros [k x] Hx. rewrite Forall_forall in IH.
    unfold member_text. cbn [fst snd]. rewrite (IH (k, x) Hx). reflexivity.
Qed.

Lemma reformat_same (v : json) (gap : jsstr) : wf v -> ws gap ->
  exists v', JSON_parse (JSON_stringify v gap) = Some v' /\
             JSON_stringify v' gap = JSON_stringify v gap.
Proof.
  intros Hv Hg. exists (reparsed v). split; [apply JSON_parse_ser; assumption|].
  unfold JSON_stringify. apply ser_strip.
Qed.

Lemma stringify_truthy (v : json) (gap : jsstr) : truthy (JSON_stringify v gap) = true.
Proof.
  unfold JSON_stringify. destruct (ser_head gap [] v) as (c & r & -> & _). reflexivity.
Qed.

Lemma syntaxHighlight_pretty (v : json) : wf v ->
  syntaxHighlight (JSON_stringify v gap2) = hl_replace (JSON_stringify v gap2).
Proof.
  intros Hv. destruct (reformat_same v gap2 Hv ws_gap2) as (v' & E & S).
  unfold syntaxHighlight. rewrite stringify_truthy. cbn [negb]. rewrite E, S. reflexivity.
Qed.

(** On the response text any submission leaves, [syntaxHighlight] changes no
    character: its output is the response text cut into pieces, some of them
    wrapped in a span element, and removing the wrappers gives the text back. *)
Theorem syntaxHighlight_only_wraps (net : Transport) (c : Config) (u : UI) :
  let r := response (ui (run_submit handleSubmit_web net c u)) in
  exists ps, syntaxHighlight r = List.concat (map render ps) /\ List.concat (map raw ps) = r.
Proof.
  cbv zeta. rewrite handleSubmit_web_outcome. unfold submit_outcome.
  assert (Plain1 : forall r, JSON_parse r = None ->
            exists ps, syntaxHighlight r = List.concat (map render ps) /\
                       List.concat (map raw ps) = r).
  { intros r Hr. exists [Plain r]. cbn. rewrite app_nil_r. split; [|reflexivity].
    unfold syntaxHighlight. rewrite Hr. destruct r; reflexivity. }
  destruct (body_check c) as [b|]; [|apply Plain1; reflexivity].
  destruct (net _ _) as [msg|st [t|]]; [apply Plain1; reflexivity| |apply Plain1; vm_compute; reflexivity].
  destruct (JSON_parse t) as [v|] eqn:Ev; [|apply Plain1; reflexivity].
  cbn [ui response mkUI]. rewrite syntaxHighlight_pretty by exact (JSON_parse_wf _ _ Ev).
  apply hl_replace_pieces.
Qed.

(* ================================================================= *)
(** ** handleSubmit (App.tsx lines 47-104; part_000 lines 74-130) *)

Ltac shell_outcome HW :=
  match type of HW with
  | ?W = _ \/ ?W = _ =>
      assert (W = submit_outcome _ _)
        by (destruct HW; subst; auto using handleSubmit_web_outcome, handleSubmit_mobile_outcome)
  end.

(** Whatever happens, [loading] is false when [handleSubmit] has finished, in
    both shells. *)
Theorem submit_loading_off (net : Transport) (c : Config) (u : UI) :
  loading (ui (run_submit handleSubmit_web net c u)) = false /\
  loading (ui (run_submit handleSubmit_mobile net c u)) = false.
Proof.
  rewrite handleSubmit_web_outcome, ?handleSubmit_mobile_outcome. unfold submit_outcome.
  destruct (body_check c) as [b|]; [|split; reflexivity].
  destruct (net _ _) as [msg|st [t|]]; [split; reflexivity| |split; reflexivity].
  destruct (JSON_parse t); split; reflexivity.
Qed.

(** The result of a submission does not depend on the UI state it starts
    from: the error, response and status code of an earlier submission never
    leak into the next one. *)
Theorem submit_ignores_previous_ui (net : Transport) (c : Config) (u1 u2 : UI) :
  run_submit handleSubmit_web net c u1 = run_submit handleSubmit_web net c u2 /\
  run_submit handleSubmit_mobile net c u1 = run_submit handleSubmit_mobile net c u2.
Proof.
  split.
  - rewrite !handleSubmit_web_outcome. reflexivity.
  - rewrite !handleSubmit_mobile_outcome. reflexivity.
Qed.

(** A submission makes at most one [fetch] call, to the full URL and with the
    selected method. *)
Theorem submit_one_fetch (net : Transport) (c : Config) (u : UI) :
  forall W, W = run_submit handleSubmit_web net c u \/
            W = run_submit handleSubmit_mobile net c u ->
  calls W = [] \/
  exists o, calls W = [(full_url c, o)] /\ opt_method o = method c.
Proof.
  intros W HW. shell_outcome HW. subst W.
  destruct (submit_outcome_calls net c) as [[Hc _] | [b [_ Hc]]]; rewrite Hc;
    [left; reflexivity | right; eexists; split; reflexivity].
Qed.

(** A submission that ends without an error message made exactly one [fetch]
    call and shows its status code; the response text is either
    [No response body] (no body) or the body parsed and pretty-printed with
    two spaces, which parses back to the parsed body with infinities as null
    and zeros as [+0]. *)
Theorem submit_success_display (net : Transport) (c : Config) (u : UI) :
  forall W, W = run_submit handleSubmit_web net c u \/
            W = run_submit handleSubmit_mobile net c u ->
  error (ui W) = [] ->
  exists U o st, calls W = [(U, o)] /\ statusCode (ui W) = Some st /\
    ((net U o = Received st None /\ response (ui W) = js "No response body") \/
     (exists t v, net U o = Received st (Some t) /\ JSON_parse t = Some v /\
                  response (ui W) = JSON_stringify v gap2 /\
                  JSON_parse (response (ui W)) = Some (reparsed v))).
Proof.
  intros W HW He. shell_outcome HW. subst W. revert He. unfold submit_outcome.
  destruct (body_check c) as [b|]; [|cbn; discriminate].
  destruct (net _ _) as [msg|st [t|]] eqn:En; [cbn; discriminate| |].
  - destruct (JSON_parse t) as [v|] eqn:Ev; [|cbn; discriminate]. intros _.
    do 3 eexists. split; [reflexivity|]. split; [reflexivity|]. right.
    exists t, v. split; [exact En|]. split; [exact Ev|]. split; [reflexivity|].
    cbn [ui response mkUI]. apply JSON_parse_ser; [exact (JSON_parse_wf _ _ Ev) | exact ws_gap2].
  - intros _. do 3 eexists. split; [reflexivity|]. split; [reflexivity|]. left.
    split; [exact En | reflexivity].
Qed.

(* ================================================================= *)
(** ** getStatusText (App.tsx lines 166-183; part_000 lines 157-174) *)

(** [getStatusText] gives a non-empty text exactly for the ten codes of its
    table; those codes are all success, client-error or server-error codes,
    never 0, absent or a redirect. *)
Theorem getStatusText_codes (code : option Z) :
  (getStatusText code <> [] <->
   exists c, code = Some c /\ In c [200; 201; 204; 400; 401; 403; 404; 500; 502; 503]) /\
  (getStatusText code <> [] ->
   code_bucket code = Success \/ code_bucket code = ClientError \/ code_bucket code = ServerError).
Proof.
  destruct code as [c|].
  2:{ cbn. split; [split; [congruence | intros (x & Hx & _); discriminate] | congruence]. }
  unfold getStatusText, code_falsy, statusTexts, code_bucket. cbn [code_lookup].
  destruct (Z.eqb_spec c 0) as [->|H0].
  { cbn. split; [split; [congruence|] | congruence].
    intros (x & Hx & Hin). injection Hx as <-. cbn in Hin. lia. }
  repeat match goal with
         | |- context [if c =? ?k then _ else _] => destruct (Z.eqb_spec c k) as [->|?]
         end;
    cbn; (split; [split|]);
    try (intros; eexists; split; [reflexivity | cbn; tauto]);
    try (intros; (left; reflexivity) || (right; left; reflexivity) || (right; right; reflexivity));
    try congruence;
    intros (x & Hx & Hin); injection Hx as <-; cbn in Hin; lia.
Qed.

(* ================================================================= *)
(** ** formatJsonBody (App.tsx lines 112-119; part_000 lines 138-145) *)

(** Formatting twice gives the same body and error as formatting once. *)
Theorem formatJsonBody_idempotent (s e : jsstr) :
  formatJsonBody (fst (formatJsonBody s e)) (snd (formatJsonBody s e)) = formatJsonBody s e.
Proof.
  unfold formatJsonBody. destruct (JSON_parse s) as [v|] eqn:E; cbn [fst snd].
  - rewrite JSON_parse_ser by (eapply JSON_parse_wf, E || exact ws_gap2).
    unfold JSON_stringify. rewrite ser_strip. reflexivity.
  - rewrite E. reflexivity.
Qed.

(** Formatting the body never changes whether [handleSubmit] accepts it: the
    body check fails after formatting exactly when it failed before. *)
Theorem formatJsonBody_keeps_body_check (c : Config) (e : jsstr) :
  body_check (with_body c (fst (formatJsonBody (jsonBody c) e))) = None <->
  body_check c = None.
Proof.
  unfold formatJsonBody. destruct (JSON_parse (jsonBody c)) as [v|] eqn:E; cbn [fst].
  - unfold body_check, with_body. cbn [method jsonBody].
    rewrite stringify_truthy.
    rewrite JSON_parse_ser by (eapply JSON_parse_wf, E || exact ws_gap2).
    rewrite E. destruct (negb (method_eqb (method c) GET)); cbn;
      [|split; discriminate].
    destruct (truthy (jsonBody c)); split; discriminate.
  - destruct c; reflexivity.
Qed.

(* ================================================================= *)
(** ** The environment store (App.tsx lines 24-45; part_000 lines 39-72) *)

(** The browser load throws exactly when the stored text is non-empty and
    either is not JSON (a SyntaxError) or is JSON [null] (the TypeError of
    [parsed[environment]]).  The mobile load never throws: where the browser
    one throws a SyntaxError it keeps the default map, where it throws the
    TypeError it has already loaded [null], and otherwise it does what the
    browser one does. *)
Theorem load_mobile_catches (st : Storage) :
  ((exists e, load_urls_web st = LoadThrew e) <->
   exists d, getItem storage_key st = Some d /\ d <> [] /\
             (JSON_parse d = None \/ JSON_parse d = Some JNull)) /\
  (forall e, load_urls_mobile st <> LoadThrew e) /\
  (load_urls_web st = LoadThrew (JSErr (js "SyntaxError") parse_error_msg) ->
   load_urls_mobile st = KeepDefault) /\
  (load_urls_web st = LoadThrew (JSErr (js "TypeError") null_read_msg) ->
   load_urls_mobile st = LoadedMap JNull) /\
  (forall r, load_urls_web st = r -> (forall e, r <> LoadThrew e) -> load_urls_mobile st = r).
Proof.
  unfold load_urls_web, load_urls_mobile.
  destruct (getItem storage_key st) as [d|].
  2:{ repeat split; try discriminate.
      - intros [e He]; discriminate.
      - intros (d & Hd & _). discriminate.
      - intros r <- _. reflexivity. }
  destruct d as [|c d]; cbn [truthy].
  { repeat split; try discriminate.
    - intros [e He]; discriminate.
    - intros (d & Hd & Hn & _). injection Hd as <-. congruence.
    - intros r <- _. reflexivity. }
  destruct (JSON_parse (c :: d)) as [v|] eqn:E.
  - destruct v as [| b | x | s | l | l].
    2-6: split; [split|]; [| |split; [|split; [|split]]];
      [ intros [e' He]; discriminate
      | intros (d' & Hd & _ & [Hn|Hn]); injection Hd as <-; congruence
      | intros e; discriminate
      | intros H; discriminate
      | intros H; discriminate
      | intros r <- _; reflexivity ].
    + split; [split|]; [| |split; [|split; [|split]]].
      * intros _. exists (c :: d). split; [reflexivity|]. split; [discriminate|right; exact E].
      * intros _. eexists; reflexivity.
      * intros e. discriminate.
      * intros H. vm_compute in H. discriminate H.
      * intros _. reflexivity.
      * intros r <- Hr. exfalso. eapply Hr. reflexivity.
  - split; [split|]; [| |split; [|split; [|split]]].
    + intros _. exists (c :: d). split; [reflexivity|]. split; [discriminate|left; exact E].
    + intros _. eexists; reflexivity.
    + intros e. discriminate.
    + intros _. reflexivity.
    + intros H. vm_compute in H. discriminate H.
    + intros r <- Hr. exfalso. eapply Hr. reflexivity.
Qed.

Lemma obj_get_absent (k : jsstr) (acc : list (jsstr * json)) :
  obj_has k acc = false -> obj_get k acc = None.
Proof.
  unfold obj_has. induction acc as [|[k0 v0] r IH]; cbn; [reflexivity|].
  intros H. apply orb_false_iff in H as [-> H]. auto.
Qed.

Lemma obj_get_update (k' k : jsstr) (v : json) (acc : list (jsstr * json)) :
  obj_get k' (obj_update k v acc) =
  if str_eqb k' k then (if obj_has k acc then Some v else None) else obj_get k' acc.
Proof.
  unfold obj_has. induction acc as [|[k0 v0] r IH]; cbn.
  - destruct (str_eqb k' k); reflexivity.
  - destruct (str_eqb k k0) eqn:E0; cbn.
    + apply str_eqb_eq in E0. subst k0. destruct (str_eqb k' k); reflexivity.
    + rewrite IH. destruct (str_eqb k' k) eqn:E1; [|reflexivity].
      apply str_eqb_eq in E1. subst k'. rewrite E0. reflexivity.
Qed.

Lemma obj_get_insert (k' : jsstr) (i : Z) (k : jsstr) (v : json) (acc : list (jsstr * json)) :
  obj_has k acc = false ->
  obj_get k' (obj_insert_idx i k v acc) = if str_eqb k' k then Some v else obj_get k' acc.
Proof.
  unfold obj_has. induction acc as [|[k0 v0] r IH]; cbn; intros Hh.
  - destruct (str_eqb k' k); reflexivity.
  - apply orb_false_iff in Hh as [H0 Hh].
    destruct (idx k0) as [j|]; [destruct (i <? j)|]; cbn; try reflexivity.
    rewrite IH by exact Hh. destruct (str_eqb k' k) eqn:E1; [|reflexivity].
    apply str_eqb_eq in E1. subst k'. rewrite H0. reflexivity.
Qed.

Lemma obj_get_snoc (k' k : jsstr) (v : json) (acc : list (jsstr * json)) :
  obj_get k' (acc ++ [(k, v)]) =
  match obj_get k' acc with Some x => Some x | None => if str_eqb k' k then Some v else None end.
Proof.
  induction acc as [|[k0 v0] r IH]; cbn; [reflexivity|].
  destruct (str_eqb k' k0); [reflexivity|exact IH].
Qed.

(** Reading a key after [obj_set]. *)
Lemma obj_get_set (k' k : jsstr) (v : json) (acc : list (jsstr * json)) :
  obj_get k' (obj_set k v acc) = if str_eqb k' k then Some v else obj_get k' acc.
Proof.
  unfold obj_set. destruct (obj_has k acc) eqn:Eh.
  - rewrite obj_get_update, Eh. reflexivity.
  - destruct (idx k) as [i|].
    + apply obj_get_insert, Eh.
    + rewrite obj_get_snoc. destruct (str_eqb k' k) eqn:E1.
      * apply str_eqb_eq in E1. subst k'. rewrite obj_get_absent by exact Eh. reflexivity.
      * destruct (obj_get k' acc); reflexivity.
Qed.

Lemma obj_get_copy (o acc : list (jsstr * json)) (k : jsstr) :
  keys_distinct o = true ->
  obj_get k (fold_left (fun acc kv => obj_set (fst kv) (snd kv) acc) o acc) =
  match obj_get k o with Some x => Some x | None => obj_get k acc end.
Proof.
  induction o as [|[k0 v0] r IH] in acc |- *; cbn; [reflexivity|].
  intros H. apply andb_true_iff in H as [H1 H2]. apply negb_true_iff in H1.
  rewrite IH by exact H2. rewrite obj_get_set.
  destruct (str_eqb k k0) eqn:E.
  - apply str_eqb_eq in E. subst k0. rewrite obj_get_absent by exact H1. reflexivity.
  - reflexivity.
Qed.

Lemma wf_keys_distinct (o : list (jsstr * json)) : wf (JObj o) -> keys_distinct o = true.
Proof.
  rewrite wf_obj. intros [Hs _]. induction o as [|[k v] r IH]; [reflexivity|].
  cbn [map fst] in Hs. apply StronglySorted_inv in Hs as [Hs Hk]. cbn.
  rewrite IH by exact Hs. rewrite andb_true_r. apply negb_true_iff.
  unfold obj_has. apply not_true_iff_false. intros He. apply existsb_exists in He as ([k' v'] & Hin & Heq).
  rewrite Forall_forall in Hk. destruct (Hk k') as [Hne _].
  - apply (in_map fst) in Hin. exact Hin.
  - cbn in Heq. congruence.
Qed.

Lemma copy_wf (o acc : list (jsstr * json)) :
  wf (JObj acc) -> Forall (fun kv => units_ok (fst kv) /\ wf (snd kv)) o ->
  wf (JObj (fold_left (fun acc kv => obj_set (fst kv) (snd kv) acc) o acc)).
Proof.
  intros Ha Ho. induction Ho as [|[k v] r [Hk Hv] _ IH] in acc, Ha |- *; [exact Ha|].
  cbn. apply IH, obj_set_wf; assumption.
Qed.

Lemma env_name_units (production : bool) : units_ok (env_name production).
Proof. destruct production; vm_compute; repeat constructor; discriminate. Qed.

Lemma saveBaseUrl_wf (o : list (jsstr * json)) (production : bool) (b : jsstr) (st : Storage) :
  wf (JObj o) -> js_string b = true -> wf (fst (saveBaseUrl o production b st)).
Proof.
  intros Ho Hb. cbn [saveBaseUrl fst]. unfold spread_set. apply obj_set_wf.
  - apply copy_wf; [split; constructor|]. apply wf_obj in Ho. exact (proj2 Ho).
  - apply env_name_units.
  - apply js_string_units, Hb.
Qed.

(** After [saveBaseUrl] on any well-formed saved map, loading the store again,
    in either shell, gives the new in-memory map, with infinite numbers turned
    into null and zeros into [+0]. *)
Theorem saveBaseUrl_reload (o : list (jsstr * json)) (production : bool) (b : jsstr) (st : Storage) :
  wf (JObj o) -> js_string b = true ->
  let (m, st') := saveBaseUrl o production b st in
  load_urls_web st' = LoadedMap (reparsed m) /\ load_urls_mobile st' = LoadedMap (reparsed m).
Proof.
  intros Ho Hb. pose proof (saveBaseUrl_wf o production b st Ho Hb) as Hm.
  destruct (saveBaseUrl o production b st) as [m st'] eqn:E.
  cbn [fst] in Hm. unfold saveBaseUrl in E. injection E as Em Est. subst m st'.
  unfold load_urls_web, load_urls_mobile, save_urls. rewrite getItem_setItem, stringify_truthy.
  rewrite JSON_parse_ser by (exact Hm || constructor). split; reflexivity.
Qed.

(** After [saveBaseUrl], the environment effect sets [baseUrl] to the saved URL
    for the current environment, and to what it was before for the other one. *)
Theorem saveBaseUrl_env_effect (o : list (jsstr * json)) (production : bool) (b : jsstr)
  (st : Storage) :
  keys_distinct o = true ->
  env_effect (fst (saveBaseUrl o production b st)) (env_name production) = Some (JV (JStr b)) /\
  env_effect (fst (saveBaseUrl o production b st)) (env_name (negb production)) =
  env_effect (JObj o) (env_name (negb production)).
Proof.
  intros Hd. cbn [saveBaseUrl fst]. unfold spread_set, env_effect, env_prop.
  rewrite !obj_get_set, !obj_get_copy by exact Hd.
  assert (Hs : str_eqb (env_name production) (env_name production) = true)
    by (apply str_eqb_eq; reflexivity).
  assert (Hn : str_eqb (env_name (negb production)) (env_name production) = false)
    by (destruct production; reflexivity).
  rewrite Hs, Hn. split.
  - unfold or_empty, js_truthy. destruct b; reflexivity.
  - destruct (obj_get (env_name (negb production)) o); reflexivity.
Qed.

Lemma obj_get_strip (k : jsstr) (l : list (jsstr * json)) :
  obj_get k (map (fun kv => (fst kv, reparsed (snd kv))) l) = option_map reparsed (obj_get k l).
Proof.
  induction l as [|[k0 v0] r IH]; cbn; [reflexivity|].
  destruct (str_eqb k k0); [reflexivity|exact IH].
Qed.

(** Every mount starts in the development environment, and the load effect
    runs only then.  After [saveBaseUrl], the load effect of the next mount
    restores the saved map and sets [baseUrl] to its development entry: the
    URL just saved when the save was made in development, and the entry the
    map had before when it was made in production (undefined if there was
    none).  It throws no error, in either shell. *)
Theorem saveBaseUrl_mount_restores (o : list (jsstr * json)) (production : bool) (b : jsstr)
  (st : Storage) (slots : json * jsval) :
  wf (JObj o) -> js_string b = true ->
  let (m, st') := saveBaseUrl o production b st in
  let url := if production
             then match obj_get (env_name false) o with Some x => JV (reparsed x) | None => Undef end
             else JV (JStr b) in
  load_effect_web st' (env_name false) slots = ((reparsed m, url), None) /\
  load_effect_mobile st' (env_name false) slots = ((reparsed m, url), None).
Proof.
  intros Ho Hb. pose proof (saveBaseUrl_wf o production b st Ho Hb) as Hm.
  pose proof (wf_keys_distinct o Ho) as Hd.
  destruct (saveBaseUrl o production b st) as [m st'] eqn:E.
  cbn [fst] in Hm. unfold saveBaseUrl in E. injection E as Em Est. subst m st'.
  unfold load_effect_web, load_effect_mobile, load_effect, save_urls.
  rewrite getItem_setItem, stringify_truthy.
  rewrite JSON_parse_ser by (exact Hm || constructor).
  unfold spread_set. cbn [reparsed env_prop]. rewrite obj_get_strip, obj_get_set, obj_get_copy by exact Hd.
  destruct production.
  - assert (Hn : str_eqb (env_name false) (env_name true) = false) by reflexivity.
    rewrite Hn. destruct (obj_get (env_name false) o); split; reflexivity.
  - assert (Hs : str_eqb (env_name false) (env_name false) = true) by reflexivity.
    rewrite Hs. split; reflexivity.
Qed.

(** If the store holds JSON [null], the browser load effect sets the saved map
    to null and throws a TypeError; the mobile one swallows it but also leaves
    the map null, so the environment effect that follows throws. *)
Theorem load_effect_stored_null (st : Storage) (environment d : jsstr) (slots : json * jsval) :
  getItem storage_key st = Some d -> JSON_parse d = Some JNull ->
  load_effect_web st environment slots =
    ((JNull, snd slots), Some (JSErr (js "TypeError") null_read_msg)) /\
  load_effect_mobile st environment slots = ((JNull, snd slots), None) /\
  env_effect JNull environment = None.
Proof.
  intros Hg Hp. unfold load_effect_web, load_effect_mobile, load_effect.
  rewrite Hg. destruct d as [|c d]; [rewrite JSON_parse_empty in Hp; discriminate|].
  cbn [truthy]. rewrite Hp. cbn. repeat split.
Qed.

(* ================================================================= *)
(** ** copyToClipboard (App.tsx lines 106-110; part_000 lines 132-136) *)

(** After one copy, the clipboard holds the response and [copied] stays true
    for 2000 ms.  After two copies, [copied] turns false 2000 ms after the
    first one, although the timeout of the second is still pending: no
    timeout is cleared. *)
Theorem copy_indicator (r r1 r2 : jsstr) (t t1 t2 : Z) (s : Clip) :
  (timers s = [] -> forall t', t <= t' < t + 2000 ->
     clipboard (run_timers t' (copyToClipboard r t s)) = r /\
     copied (run_timers t' (copyToClipboard r t s)) = true) /\
  (t1 < t2 ->
     let s' := run_timers (t1 + 2000) (copyToClipboard r2 t2 (copyToClipboard r1 t1 s)) in
     clipboard s' = r2 /\ copied s' = false /\ In (t2 + 2000) (timers s')).
Proof.
  split.
  - intros Hs t' Ht. cbn. rewrite Hs. cbn. split; [reflexivity|].
    destruct (Z.leb_spec (t + 2000) t'); [lia|reflexivity].
  - intros Ht. cbn. split; [reflexivity|]. split.
    + rewrite !existsb_app. cbn. rewrite Z.leb_refl, !orb_true_r. reflexivity.
    + rewrite !filter_app. cbn. apply in_or_app. right.
      destruct (Z.ltb_spec (t1 + 2000) (t1 + 2000)); [lia|].
      destruct (Z.ltb_spec (t1 + 2000) (t2 + 2000)); [|lia]. left. reflexivity.
Qed.

(* ================================================================= *)
(** ** Instances of the properties above *)

Lemma submit_one_fetch_witness :
  let net := text_response 200 (js "[1]") in
  let c := sample_config POST (js "[1]") in
  let W := run_submit handleSubmit_mobile net c sample_ui in
  (W = run_submit handleSubmit_web net c sample_ui \/
   W = run_submit handleSubmit_mobile net c sample_ui) /\
  (calls W = [] \/ exists o, calls W = [(full_url c, o)] /\ opt_method o = method c).
Proof.
  cbv zeta. split; [right; reflexivity|].
  apply (submit_one_fetch (text_response 200 (js "[1]")) (sample_config POST (js "[1]")) sample_ui).
  right; reflexivity.
Defined.

Lemma submit_success_display_witness :
  let net := text_response 200 (js "[1]") in
  let c := sample_config GET [] in
  let W := run_submit handleSubmit_web net c sample_ui in
  (W = run_submit handleSubmit_web net c sample_ui \/
   W = run_submit handleSubmit_mobile net c sample_ui) /\
  error (ui W) = [] /\
  exists U o st, calls W = [(U, o)] /\ statusCode (ui W) = Some st /\
    ((net U o = Received st None /\ response (ui W) = js "No response body") \/
     (exists t v, net U o = Received st (Some t) /\ JSON_parse t = Some v /\
        response (ui W) = JSON_stringify v gap2 /\
        JSON_parse (response (ui W)) = Some (reparsed v))).
Proof.
  cbv zeta. split; [left; reflexivity|]. split; [vm_compute; reflexivity|].
  apply (submit_success_display (text_response 200 (js "[1]")) (sample_config GET []) sample_ui).
  - left; reflexivity.
  - vm_compute; reflexivity.
Defined.

Lemma saveBaseUrl_reload_witness :
  wf (JObj [(js "development", JStr (js "http://localhost:3000")); (js "production", JStr [])]) /\
  js_string (js "https://api.example.com") = true /\
  let (m, st') := saveBaseUrl [(js "development", JStr (js "http://localhost:3000"));
                               (js "production", JStr [])]
                    true (js "https://api.example.com") [] in
  load_urls_web st' = LoadedMap (reparsed m) /\ load_urls_mobile st' = LoadedMap (reparsed m).
Proof.
  split; [exact (env_map_wf (js "http://localhost:3000") [] eq_refl eq_refl)|].
  split; [reflexivity|].
  apply saveBaseUrl_reload; [exact (env_map_wf (js "http://localhost:3000") [] eq_refl eq_refl)|].
  reflexivity.
Defined.

Lemma saveBaseUrl_env_effect_witness :
  keys_distinct [(js "development", JStr (js "http://localhost:3000")); (js "production", JStr [])] = true /\
  env_effect (fst (saveBaseUrl [(js "development", JStr (js "http://localhost:3000"));
                                (js "production", JStr [])]
                     true (js "https://api.example.com") []))
    (env_name true) = Some (JV (JStr (js "https://api.example.com"))) /\
  env_effect (fst (saveBaseUrl [(js "development", JStr (js "http://localhost:3000"));
                                (js "production", JStr [])]
                     true (js "https://api.example.com") []))
    (env_name (negb true)) =
  env_effect (JObj [(js "development", JStr (js "http://localhost:3000")); (js "production", JStr [])])
    (env_name (negb true)).
Proof.
  split; [reflexivity|]. apply saveBaseUrl_env_effect. reflexivity.
Defined.

Lemma saveBaseUrl_mount_restores_witness :
  wf (JObj [(js "development", JStr (js "http://localhost:3000")); (js "production", JStr [])]) /\
  js_string (js "https://api.example.com") = true /\
  let (m, st') := saveBaseUrl [(js "development", JStr (js "http://localhost:3000"));
                               (js "production", JStr [])]
                    true (js "https://api.example.com") [] in
  let url := if true
             then match obj_get (env_name false)
                          [(js "development", JStr (js "http://localhost:3000"));
                           (js "production", JStr [])] with
                  | Some x => JV (reparsed x) | None => Undef end
             else JV (JStr (js "https://api.example.com")) in
  load_effect_web st' (env_name false) (env_map [] [], JV (JStr [])) = ((reparsed m, url), None) /\
  load_effect_mobile st' (env_name false) (env_map [] [], JV (JStr [])) = ((reparsed m, url), None).
Proof.
  split; [exact (env_map_wf (js "http://localhost:3000") [] eq_refl eq_refl)|].
  split; [reflexivity|].
  apply saveBaseUrl_mount_restores; [exact (env_map_wf (js "http://localhost:3000") [] eq_refl eq_refl)|].
  reflexivity.
Defined.

Lemma load_effect_stored_null_witness :
  getItem storage_key [(storage_key, js "null")] = Some (js "null") /\
  JSON_parse (js "null") = Some JNull /\
  load_effect_web [(storage_key, js "null")] (js "development") (env_map [] [], JV (JStr [])) =
    ((JNull, snd (env_map [] [], JV (JStr []))), Some (JSErr (js "TypeError") null_read_msg)) /\
  load_effect_mobile [(storage_key, js "null")] (js "development") (env_map [] [], JV (JStr [])) =
    ((JNull, snd (env_map [] [], JV (JStr []))), None) /\
  env_effect JNull (js "development") = None.
Proof.
  split; [vm_compute; reflexivity|]. split; [vm_compute; reflexivity|].
  apply (load_effect_stored_null [(storage_key, js "null")] (js "development") (js "null") (env_map [] [], JV (JStr [])));
    vm_compute; reflexivity.
Defined.
